(** * PStatClientData: the per-client registry of collectors and threads

    A shallow embedding of [pandatool/src/pstatserver/pStatClientData.cxx]
    (collector registry, thread table, liveness and close) together with the
    part of [pStatThreadData.h] that the client data drives, and the
    properties of these operations; and of the graphs, settings and chart
    menus of [pandatool/src/gtk-stats/gtkStatsMonitor.cxx].

    Conventions of the embedding:
    - a C++ [int] is a [Z]; the places where the source converts between
      [int] and [size_t] are written out ([int_to_size_t], [size_t_to_int]);
    - a [vector] is a [list], indexed with stdpp's lookup and insert;
    - a pointer that may be NULL is an [option];
    - a method that changes the object takes the object and gives the new
      one back inside a [result], which also tells how the method was left;
    - the two recursive queries and the two growing loops take a [fuel]
      argument, the number of nested calls (of iterations) they may use. *)

From Stdlib Require Import ZArith QArith Qabs Qminmax Lia.
From stdpp Require Import base list strings finite gmap.

Open Scope Z_scope.

(** ** Machine integers *)

(** Width of [size_t], the type of [vector::size()]. *)
Definition SIZE_BITS : Z := 64.

(** The conversion the comparison [v.size() <= i] applies to an [int] [i]. *)
Definition int_to_size_t (i : Z) : Z := i mod 2 ^ SIZE_BITS.

(** The cast [(int)v.size()]. *)
Definition size_t_to_int (n : Z) : Z := (n + 2 ^ 31) mod 2 ^ 32 - 2 ^ 31.

(** The values of the type [int]. *)
Definition is_int (i : Z) : Prop := - 2 ^ 31 <= i < 2 ^ 31.

(** The most elements a [vector] holds, [max_size()]: no implementation
    puts it above the largest [ptrdiff_t]. *)
Definition MAX_SIZE : Z := 2 ^ (SIZE_BITS - 1) - 1.

(** [vector::size()]. *)
Definition vsize {A : Type} (v : list A) : Z := Z.of_nat (length v).

(** ** Data *)

Module PStatCollectorDef.
(** The fields of a collector definition that the client data reads. *)
Record t : Type := Build {
  _index : Z;
  _name : string;
  _parent_index : Z
}.
End PStatCollectorDef.

Module Thread.
(** [PStatClientData::Thread]; [_data] is a [PT(PStatThreadData)], null or
    the address of a frame store. *)
Record t : Type := Build {
  _name : string;
  _data : option nat
}.

(** The default constructor [Thread()]. *)
Definition new : t := {| _name := ""; _data := None |}.
End Thread.

(** Modelled from the spec: the class [PStatThreadData] is declared in
    [pStatThreadData.h], and the bodies of its methods are in
    [pStatThreadData.cxx], which is not among the sources.  The client data
    makes two calls on a frame store, [new PStatThreadData(this)] and
    [record_new_frame(frame_number, frame_data)], the [record] of the
    specification; a store is kept here as the trace of the second: the
    arguments (frame number, frame data pointer) of the calls made on it,
    latest first.  The trace is not the buffer of the store: the
    specification has the store slot a frame by its number, overwrite a frame
    of the same number and evict old frames, and which frames a store still
    holds is not modelled. *)
Record PStatThreadData : Type := Build_PStatThreadData {
  calls : list (Z * nat)
}.

(** Modelled from the spec: [new PStatThreadData(this)], a store on which no
    call has been made. *)
Definition PStatThreadData_new : PStatThreadData := {| calls := [] |}.

(** Modelled from the spec: the call
    [record_new_frame(frame_number, frame_data)] on a frame store, of which
    only the fact that it was made, and with which arguments, is kept. *)
Definition store_frame (frame_number : Z) (frame_data : nat)
    (store : PStatThreadData) : PStatThreadData :=
  {| calls := (frame_number, frame_data) :: calls store |}.

Record PStatClientData : Type := Build_PStatClientData {
  _is_alive : bool;
  _reader : option nat;
  _collectors : list (option PStatCollectorDef.t);
  _threads : list Thread.t;
  (** the frame stores made by [new PStatThreadData(this)]; the address of a
      store is its position *)
  thread_data_heap : list PStatThreadData;
  (** the readers on which [PStatReader::close()] was called, latest first *)
  reader_closed : list nat
}.

Definition set_collectors (s : PStatClientData)
    (v : list (option PStatCollectorDef.t)) : PStatClientData :=
  {| _is_alive := _is_alive s; _reader := _reader s; _collectors := v;
     _threads := _threads s; thread_data_heap := thread_data_heap s;
     reader_closed := reader_closed s |}.

Definition set_threads (s : PStatClientData) (v : list Thread.t)
    : PStatClientData :=
  {| _is_alive := _is_alive s; _reader := _reader s;
     _collectors := _collectors s; _threads := v;
     thread_data_heap := thread_data_heap s;
     reader_closed := reader_closed s |}.

Definition set_heap (s : PStatClientData) (h : list PStatThreadData)
    : PStatClientData :=
  {| _is_alive := _is_alive s; _reader := _reader s;
     _collectors := _collectors s; _threads := _threads s;
     thread_data_heap := h; reader_closed := reader_closed s |}.

(** How a method was left. *)
Inductive result (A : Type) : Type :=
| Returns (a : A) (s : PStatClientData)
    (** ran to its end *)
| AssertionFailed (a : A) (s : PStatClientData)
    (** left through a failed [nassertv] or [nassertr] *)
| Undefined
    (** used a null pointer or a slot outside its vector *)
| Throws
    (** an exception of [push_back] left the method *)
| OutOfFuel.
    (** the loop did not finish within the fuel *)

Arguments Returns {A} a s.
Arguments AssertionFailed {A} a s.
Arguments Undefined {A}.
Arguments Throws {A}.
Arguments OutOfFuel {A}.

(** Modelled from the spec: the macros [nassertv(c)] and [nassertr(c, v)] are
    declared in the notify headers, which are not among the sources here.  A
    condition that does not hold makes the method return at once (returning
    [v] for [nassertr]) with the object as it is at that point; this is the
    ValidationError of the specification. *)
Definition nassert {A : Type} (c : bool) (v : A) (s : PStatClientData)
    (k : result A) : result A :=
  if c then k else AssertionFailed v s.

(** The constructor [PStatClientData(reader)]. *)
Definition PStatClientData_new (reader : option nat) : PStatClientData :=
  {| _is_alive := true; _reader := reader; _collectors := []; _threads := [];
     thread_data_heap := []; reader_closed := [] |}.

Definition is_alive (s : PStatClientData) : bool := _is_alive s.

(** [close()]: the call [_reader->close()] is recorded in [reader_closed]. *)
Definition close (s : PStatClientData) : PStatClientData :=
  match _is_alive s, _reader s with
  | true, Some r =>
      {| _is_alive := false; _reader := None;
         _collectors := _collectors s; _threads := _threads s;
         thread_data_heap := thread_data_heap s;
         reader_closed := r :: reader_closed s |}
  | _, _ => s
  end.

(** ** The collector registry *)

Definition get_num_collectors (s : PStatClientData) : Z :=
  size_t_to_int (vsize (_collectors s)).

Definition has_collector (s : PStatClientData) (index : Z) : bool :=
  (0 <=? index) && (index <? size_t_to_int (vsize (_collectors s)))
  && match _collectors s !! Z.to_nat index with
     | Some (Some _) => true
     | _ => false
     end.

(** How a loop of [push_back] ends. *)
Inductive grown (A : Type) : Type :=
| Grown (v : list A)
    (** the loop is over *)
| LengthError
    (** a [push_back] on a full vector has thrown *)
| Spent.
    (** the loop did not finish within the fuel *)

Arguments Grown {A} v.
Arguments LengthError {A}.
Arguments Spent {A}.

(** The loop [while (v.size() <= index) v.push_back(filler);]. *)
Fixpoint grow {A : Type} (fuel : nat) (filler : A) (v : list A) (index : Z)
    : grown A :=
  if vsize v <=? int_to_size_t index then
    match fuel with
    | O => Spent
    | S fuel' =>
        if vsize v <? MAX_SIZE then grow fuel' filler (v ++ [filler]) index
        else LengthError
    end
  else Grown v.

(** [add_collector(def)].  The table holds the definitions themselves, so
    that the [delete] of a definition that is replaced has nothing to do. *)
Definition add_collector (fuel : nat) (def : PStatCollectorDef.t)
    (s : PStatClientData) : result unit :=
  nassert (PStatCollectorDef._index def <? 1000) tt s
    match grow fuel None (_collectors s) (PStatCollectorDef._index def) with
    | Spent => OutOfFuel
    | LengthError => Throws
    | Grown v =>
        Returns tt
          (set_collectors s
             (<[Z.to_nat (int_to_size_t (PStatCollectorDef._index def))
                := Some def]> v))
    end.

Section Registry.

(** The static [_null_collector(-1, "Unknown")].  The constructor of
    [PStatCollectorDef] is not among the sources, so the parent index it
    gives is a parameter. *)
Variable null_parent_index : Z.

Definition _null_collector : PStatCollectorDef.t :=
  {| PStatCollectorDef._index := -1;
     PStatCollectorDef._name := "Unknown";
     PStatCollectorDef._parent_index := null_parent_index |}.

Definition get_collector_def (s : PStatClientData) (index : Z)
    : PStatCollectorDef.t :=
  if negb (has_collector s index) then _null_collector
  else match _collectors s !! Z.to_nat index with
       | Some (Some def) => def
       | _ => _null_collector
       end.

(** [get_child_distance]; [None] when the nesting exceeds [fuel].  The sum
    [dist + 1] counts the nested calls that are returning, far fewer than
    an [int] holds, and is written without wrap-around. *)
Fixpoint get_child_distance (fuel : nat) (s : PStatClientData)
    (parent child : Z) : option Z :=
  match fuel with
  | O => None
  | S fuel' =>
      if parent =? child then Some 0
      else if negb (has_collector s child) || (child =? 0) then Some (-1)
      else
        match get_child_distance fuel' s parent
                (PStatCollectorDef._parent_index
                   (get_collector_def s child)) with
        | None => None
        | Some dist => if dist =? -1 then Some (-1) else Some (dist + 1)
        end
  end.

End Registry.

Definition get_collector_name (s : PStatClientData) (index : Z) : string :=
  if negb (has_collector s index) then "Unknown"
  else match _collectors s !! Z.to_nat index with
       | Some (Some def) => PStatCollectorDef._name def
       | _ => "Unknown"
       end.

(** [get_collector_fullname]; [None] when the nesting exceeds [fuel]. *)
Fixpoint get_collector_fullname (fuel : nat) (s : PStatClientData)
    (index : Z) : option string :=
  match fuel with
  | O => None
  | S fuel' =>
      if negb (has_collector s index) then Some "Unknown"
      else match _collectors s !! Z.to_nat index with
           | Some (Some def) =>
               if PStatCollectorDef._parent_index def =? 0
               then Some (PStatCollectorDef._name def)
               else
                 match get_collector_fullname fuel' s
                         (PStatCollectorDef._parent_index def) with
                 | None => None
                 | Some full =>
                     Some (full +:+ ":" +:+ PStatCollectorDef._name def)
                 end
           | _ => Some "Unknown"
           end
  end.

(** ** The thread table *)

Definition get_num_threads (s : PStatClientData) : Z :=
  size_t_to_int (vsize (_threads s)).

(** [string::empty()]. *)
Definition empty (name : string) : bool :=
  match name with
  | EmptyString => true
  | String _ _ => false
  end.

Definition has_thread (s : PStatClientData) (index : Z) : bool :=
  (0 <=? index) && (index <? size_t_to_int (vsize (_threads s)))
  && match _threads s !! Z.to_nat index with
     | Some t => negb (empty (Thread._name t))
     | None => false
     end.

Definition get_thread_name (s : PStatClientData) (index : Z) : string :=
  if negb (has_thread s index) then "Unknown"
  else match _threads s !! Z.to_nat index with
       | Some t => Thread._name t
       | None => "Unknown"
       end.

(** The two assignments of [define_thread] to the slot [_threads[i]], on the
    slot [t]; [heap] is where [new PStatThreadData(this)] allocates. *)
Definition define_slot (name : string) (t : Thread.t)
    (heap : list PStatThreadData) : Thread.t * list PStatThreadData :=
  let named :=
    if negb (empty name)
    then {| Thread._name := name; Thread._data := Thread._data t |}
    else t in
  match Thread._data named with
  | None =>
      ({| Thread._name := Thread._name named;
          Thread._data := Some (length heap) |},
       heap ++ [PStatThreadData_new])
  | Some _ => (named, heap)
  end.

Definition define_thread (fuel : nat) (thread_index : Z) (name : string)
    (s : PStatClientData) : result unit :=
  nassert (thread_index <? 1000) tt s
    match grow fuel Thread.new (_threads s) thread_index with
    | Spent => OutOfFuel
    | LengthError => Throws
    | Grown v =>
        let i := Z.to_nat (int_to_size_t thread_index) in
        match v !! i with
        | None => Undefined
        | Some t =>
            let '(t', heap') := define_slot name t (thread_data_heap s) in
            Returns tt (set_heap (set_threads s (<[i := t']> v)) heap')
        end
    end.

(** What the caller of a method goes on with: a callee left through its
    assertion has simply returned. *)
Definition after {A B : Type} (r : result A)
    (k : A -> PStatClientData -> result B) : result B :=
  match r with
  | Returns a s => k a s
  | AssertionFailed a s => k a s
  | Undefined => Undefined
  | Throws => Throws
  | OutOfFuel => OutOfFuel
  end.

(** The check [index >= 0 && index < (int)_threads.size()]. *)
Definition thread_in_range (s : PStatClientData) (index : Z) : bool :=
  (0 <=? index) && (index <? size_t_to_int (vsize (_threads s))).

(** [get_thread_data(index)], which calls [define_thread(index)] with the
    default (empty) name. *)
Definition get_thread_data (fuel : nat) (index : Z) (s : PStatClientData)
    : result (option nat) :=
  after (define_thread fuel index "" s) (fun _ s1 =>
    nassert (thread_in_range s1 index) None s1
      match _threads s1 !! Z.to_nat index with
      | None => Undefined
      | Some t => Returns (Thread._data t) s1
      end).

(** [record_new_frame(thread_index, frame_number, frame_data)]. *)
Definition record_new_frame (fuel : nat) (thread_index frame_number : Z)
    (frame_data : nat) (s : PStatClientData) : result unit :=
  after (define_thread fuel thread_index "" s) (fun _ s1 =>
    nassert (thread_in_range s1 thread_index) tt s1
      match _threads s1 !! Z.to_nat thread_index with
      | None => Undefined
      | Some t =>
          match Thread._data t with
          | None => Undefined
          | Some p =>
              match thread_data_heap s1 !! p with
              | None => Undefined
              | Some store =>
                  Returns tt
                    (set_heap s1
                       (<[p := store_frame frame_number frame_data store]>
                          (thread_data_heap s1)))
              end
          end
      end).

(** ** Well-formed objects *)

(** The state of the slot [index] of the thread table. *)
Definition stored_name (s : PStatClientData) (index : Z) : string :=
  match _threads s !! Z.to_nat index with
  | Some t => Thread._name t
  | None => ""
  end.

Definition stored_data (s : PStatClientData) (index : Z) : option nat :=
  match _threads s !! Z.to_nat index with
  | Some t => Thread._data t
  | None => None
  end.

(** Both tables hold at most 1000 slots, and every frame store a thread
    points to has been allocated. *)
Definition wf (s : PStatClientData) : Prop :=
  vsize (_collectors s) <= 1000
  /\ vsize (_threads s) <= 1000
  /\ forall (i : nat) (t : Thread.t) (p : nat),
       _threads s !! i = Some t -> Thread._data t = Some p ->
       (p < length (thread_data_heap s))%nat.

(** The object a method leaves behind, when it comes back to its caller. *)
Definition final {A : Type} (r : result A) : option PStatClientData :=
  match r with
  | Returns _ s => Some s
  | AssertionFailed _ s => Some s
  | Undefined => None
  | Throws => None
  | OutOfFuel => None
  end.

(** The objects a client data made for a reader can become. *)
Inductive reachable : PStatClientData -> Prop :=
| reach_new (r : nat) : reachable (PStatClientData_new (Some r))
| reach_close s : reachable s -> reachable (close s)
| reach_add_collector fuel def s s' :
    reachable s -> is_int (PStatCollectorDef._index def) ->
    final (add_collector fuel def s) = Some s' ->
    reachable s'
| reach_define_thread fuel index name s s' :
    reachable s -> is_int index ->
    final (define_thread fuel index name s) = Some s' ->
    reachable s'
| reach_get_thread_data fuel index s s' :
    reachable s -> is_int index ->
    final (get_thread_data fuel index s) = Some s' ->
    reachable s'
| reach_record_new_frame fuel index frame_number frame_data s s' :
    reachable s -> is_int index ->
    final (record_new_frame fuel index frame_number frame_data s) = Some s' ->
    reachable s'.

(** The liveness flag, the reader and the calls made on it are the same in
    both objects. *)
Definition same_session (s s' : PStatClientData) : Prop :=
  _is_alive s' = _is_alive s /\ _reader s' = _reader s
  /\ reader_closed s' = reader_closed s.

(** The session is live with its reader, on which [close()] was never
    called, or closed without a reader after exactly one such call. *)
Definition session_inv (s : PStatClientData) : Prop :=
  (_is_alive s = true /\ (exists r, _reader s = Some r)
   /\ reader_closed s = [])
  \/ (_is_alive s = false /\ _reader s = None
      /\ exists r, reader_closed s = [r]).

(** The session of a client data made for [reader], which may be NULL: live
    with what the constructor was given and no call of [close()] on a reader;
    or, when there is a reader, closed without reader after exactly one call
    of [close()] on that reader. *)
Definition session_of (reader : option nat) (s : PStatClientData) : Prop :=
  (_is_alive s = true /\ _reader s = reader /\ reader_closed s = [])
  \/ (exists r : nat,
        reader = Some r /\ _is_alive s = false /\ _reader s = None
        /\ reader_closed s = [r]).

(** ** Walks along parent links *)

(** The recursive call [get_collector_fullname] makes at [index], if any. *)
Definition fullname_parent (s : PStatClientData) (index : Z) : option Z :=
  if negb (has_collector s index) then None
  else match _collectors s !! Z.to_nat index with
       | Some (Some def) =>
           if PStatCollectorDef._parent_index def =? 0 then None
           else Some (PStatCollectorDef._parent_index def)
       | _ => None
       end.

(** The collector [k] such calls above [index]. *)
Fixpoint climb (s : PStatClientData) (k : nat) (index : Z) : option Z :=
  match k with
  | O => Some index
  | S k' =>
      match fullname_parent s index with
      | None => None
      | Some p => climb s k' p
      end
  end.

(** No defined collector is above itself through links to a parent other
    than the root. *)
Definition acyclic (s : PStatClientData) : Prop :=
  forall (index : Z) (k : nat), climb s (S k) index <> Some index.

(** The collector [k] parent links above [child]. *)
Fixpoint ancestor (null_parent_index : Z) (s : PStatClientData) (k : nat)
    (child : Z) : Z :=
  match k with
  | O => child
  | S k' =>
      ancestor null_parent_index s k'
        (PStatCollectorDef._parent_index
           (get_collector_def null_parent_index s child))
  end.

(** The first [k] collectors of the walk from [child] are defined and are
    neither the root nor [parent]. *)
Definition climbs (null_parent_index : Z) (s : PStatClientData)
    (parent child : Z) (k : nat) : Prop :=
  forall i : nat, (i < k)%nat ->
    ancestor null_parent_index s i child <> parent
    /\ has_collector s (ancestor null_parent_index s i child) = true
    /\ ancestor null_parent_index s i child <> 0.

(** The slots [add_collector] leaves, given those it found, for a definition
    whose index is from 0 to 999. *)
Definition slots_with (def : PStatCollectorDef.t)
    (v : list (option PStatCollectorDef.t))
    : list (option PStatCollectorDef.t) :=
  let index := PStatCollectorDef._index def in
  <[Z.to_nat index := Some def]>
    (v ++ replicate (Z.to_nat (index + 1 - vsize v)) None).

(** ** A registry of three collectors

    The root "Frame" (index 0), "B" below the root and "C" below "B". *)
Definition chain_registry : PStatClientData :=
  set_collectors (PStatClientData_new (Some 0%nat))
    [Some (PStatCollectorDef.Build 0 "Frame" 0);
     Some (PStatCollectorDef.Build 1 "B" 0);
     Some (PStatCollectorDef.Build 2 "C" 1)].

(** The slot [define_thread] works on: the one of the table, or the fresh
    [Thread()] the loop has appended. *)
Definition slot_or_new (s : PStatClientData) (index : Z) : Thread.t :=
  default Thread.new (_threads s !! Z.to_nat index).

(** The object [define_thread] leaves for an index from 0 to 999. *)
Definition defined_thread (index : Z) (name : string) (s : PStatClientData)
    : PStatClientData :=
  let v :=
    _threads s
    ++ replicate (Z.to_nat (index + 1 - vsize (_threads s))) Thread.new in
  let '(t', heap') :=
    define_slot name (slot_or_new s index) (thread_data_heap s) in
  set_heap (set_threads s (<[Z.to_nat index := t']> v)) heap'.

(** The thread [index] has its slot and its frame store, and no name. *)
Definition materialized_unnamed (s : PStatClientData) (index : Z) : Prop :=
  has_thread s index = false
  /\ get_thread_name s index = "Unknown"
  /\ exists (t : Thread.t) (p : nat),
       _threads s !! Z.to_nat index = Some t
       /\ Thread._data t = Some p
       /\ is_Some (thread_data_heap s !! p).

(** The object [record_new_frame] leaves for an index from 0 to 999. *)
Definition recorded_frame (index frame_number : Z) (frame_data : nat)
    (s : PStatClientData) : PStatClientData :=
  let s1 := defined_thread index "" s in
  match stored_data s1 index with
  | Some p =>
      set_heap s1
        (alter (store_frame frame_number frame_data) p
           (thread_data_heap s1))
  | None => s1
  end.

(** A sequence of [define_thread] calls for one thread. *)
Fixpoint define_thread_seq (fuel : nat) (index : Z) (names : list string)
    (s : PStatClientData) : result unit :=
  match names with
  | [] => Returns tt s
  | name :: rest =>
      after (define_thread fuel index name s)
        (fun _ s1 => define_thread_seq fuel index rest s1)
  end.

(** The last non-empty name of [names], [old] if there is none. *)
Fixpoint last_name (names : list string) (old : string) : string :=
  match names with
  | [] => old
  | name :: rest => last_name rest (if empty name then old else name)
  end.

(** [f] applied to the object a method leaves behind. *)
Definition map_result {A : Type} (f : PStatClientData -> PStatClientData)
    (r : result A) : result A :=
  match r with
  | Returns a s => Returns a (f s)
  | AssertionFailed a s => AssertionFailed a (f s)
  | Undefined => Undefined
  | Throws => Throws
  | OutOfFuel => OutOfFuel
  end.

(** ** The frame store *)

Module FrameStore.

(** Modelled from the spec: the bodies of the methods of [PStatThreadData],
    [get_frame_rate] among them, are in [pStatThreadData.cxx], which is not
    among the sources; [pStatThreadData.h] declares the methods and the
    fields.  A retained frame is its timestamp, a rational standing for the
    [double] of the source, and a hole is [None]. *)
Record t : Type := Build {
  _frames : list (option Q);
  _first_frame_number : Z;
  _history : Q
}.

(** The timestamps of the retained frames, oldest first. *)
Definition retained (st : t) : list Q := omap id (_frames st).

(** Modelled from the spec: [get_latest_time], the timestamp of the latest
    retained frame; [None] on an empty store. *)
Definition get_latest_time (st : t) : option Q := last (retained st).

(** Modelled from the spec: the retained frames whose timestamp lies within
    [window] seconds of [get_latest_time]. *)
Definition qualifying (st : t) (window : Q) : list Q :=
  match get_latest_time st with
  | None => []
  | Some now =>
      List.filter (fun time => Qle_bool (Qabs (now - time)) window)
        (retained st)
  end.

Definition earliest (times : list Q) : Q :=
  match times with
  | [] => 0%Q
  | time :: rest => fold_left Qmin rest time
  end.

Definition latest (times : list Q) : Q :=
  match times with
  | [] => 0%Q
  | time :: rest => fold_left Qmax rest time
  end.

(** Modelled from the spec: [get_frame_rate(time)], the count of qualifying
    frames less one over the span of their timestamps, and 0 when there are
    fewer than two of them or the span is zero. *)
Definition get_frame_rate (st : t) (window : Q) : Q :=
  let times := qualifying st window in
  if (length times <? 2)%nat then 0%Q
  else
    let span := (latest times - earliest times)%Q in
    if Qeq_bool span 0 then 0%Q
    else ((inject_Z (Z.of_nat (length times)) - 1) / span)%Q.

End FrameStore.

(** ** One call after another *)

(** What one call of a method, with [int] arguments, makes of an object. *)
Inductive step (s : PStatClientData) : PStatClientData -> Prop :=
| step_close : step s (close s)
| step_add_collector fuel def s' :
    is_int (PStatCollectorDef._index def) ->
    final (add_collector fuel def s) = Some s' -> step s s'
| step_define_thread fuel index name s' :
    is_int index ->
    final (define_thread fuel index name s) = Some s' -> step s s'
| step_get_thread_data fuel index s' :
    is_int index ->
    final (get_thread_data fuel index s) = Some s' -> step s s'
| step_record_new_frame fuel index frame_number frame_data s' :
    is_int index ->
    final (record_new_frame fuel index frame_number frame_data s) = Some s' ->
    step s s'.

(** The frame store the slot [index] of the thread table points to. *)
Definition store_of (s : PStatClientData) (index : Z)
    : option PStatThreadData :=
  match stored_data s index with
  | Some p => thread_data_heap s !! p
  | None => None
  end.

(** No two slots of the thread table point to the same frame store, and a
    slot that has a name has a frame store. *)
Definition threads_inv (s : PStatClientData) : Prop :=
  (forall (i j : nat) (t t' : Thread.t) (p : nat),
     _threads s !! i = Some t -> _threads s !! j = Some t' ->
     Thread._data t = Some p -> Thread._data t' = Some p -> i = j)
  /\ (forall (i : nat) (t : Thread.t),
        _threads s !! i = Some t -> empty (Thread._name t) = false ->
        is_Some (Thread._data t)).

(** The names from [index] up along the calls of [get_collector_fullname],
    at most [k] links. *)
Fixpoint walk_names (s : PStatClientData) (k : nat) (index : Z)
    : list string :=
  match k with
  | O => [get_collector_name s index]
  | S k' =>
      match fullname_parent s index with
      | Some p => get_collector_name s index :: walk_names s k' p
      | None => [get_collector_name s index]
      end
  end.

(** The names [names], the last one first, with a colon between them. *)
Fixpoint joined (names : list string) : string :=
  match names with
  | [] => ""
  | [name] => name
  | name :: above => joined above +:+ ":" +:+ name
  end.

(** What a call keeps: the collectors and the threads that are defined, the
    frame store every thread points to, the slots of the two tables, and a
    session that is not alive. *)
Definition grows (s s' : PStatClientData) : Prop :=
  (forall i : Z, has_collector s i = true -> has_collector s' i = true)
  /\ (forall i : Z, has_thread s i = true -> has_thread s' i = true)
  /\ (forall (i : Z) (p : nat),
        0 <= i -> stored_data s i = Some p -> stored_data s' i = Some p)
  /\ get_num_collectors s <= get_num_collectors s'
  /\ get_num_threads s <= get_num_threads s'
  /\ (is_alive s = false -> is_alive s' = false).

(** Every definition of the table sits in the slot of its own index. *)
Definition collectors_inv (s : PStatClientData) : Prop :=
  forall (i : nat) (def : PStatCollectorDef.t),
    _collectors s !! i = Some (Some def) ->
    PStatCollectorDef._index def = Z.of_nat i.

(** ** The monitor of gtk-stats *)

Module GtkStatsMonitor.

(** What a graph was last told through [set_time_units], [set_scroll_speed]
    and [set_pause]; [None] for what it was never told. *)
Record Told : Type := Build_Told {
  told_time_units : option Z;
  told_scroll_speed : option Q;
  told_pause : option bool
}.

(** A graph fresh from its constructor. *)
Definition untold : Told :=
  {| told_time_units := None; told_scroll_speed := None;
     told_pause := None |}.

(** A chart menu: the thread it is for, and the position last given to its
    [add_to_menu_bar]. *)
Record ChartMenu : Type := Build_ChartMenu {
  menu_thread : Z;
  menu_position : option Z
}.

(** The fields of [GtkStatsMonitor] that the methods below use.  [Graphs]
    and [ChartMenus] are declared in [gtkStatsMonitor.h], which is not among
    the sources; by their use here (insert of one pointer, find and erase;
    push_back) they are a set of graph pointers and a vector of menu
    pointers.  The monitor owns the graphs and the menus, so that a graph
    pointer is kept with what the graph was told, and a menu is kept by
    value.  [destroyed] lists the windows given to [gtk_widget_destroy],
    latest first. *)
Record t : Type := Build {
  _window : option nat;
  _time_units : Z;
  _scroll_speed : Q;
  _pause : bool;
  _next_chart_index : Z;
  _graphs : gmap nat Told;
  _chart_menus : list ChartMenu;
  destroyed : list nat
}.

Definition set_time_units (unit_mask : Z) (m : t) : t :=
  {| _window := _window m; _time_units := unit_mask;
     _scroll_speed := _scroll_speed m; _pause := _pause m;
     _next_chart_index := _next_chart_index m;
     _graphs :=
       (fun g => {| told_time_units := Some unit_mask;
                    told_scroll_speed := told_scroll_speed g;
                    told_pause := told_pause g |}) <$> _graphs m;
     _chart_menus := _chart_menus m; destroyed := destroyed m |}.

Definition set_scroll_speed (scroll_speed : Q) (m : t) : t :=
  {| _window := _window m; _time_units := _time_units m;
     _scroll_speed := scroll_speed; _pause := _pause m;
     _next_chart_index := _next_chart_index m;
     _graphs :=
       (fun g => {| told_time_units := told_time_units g;
                    told_scroll_speed := Some scroll_speed;
                    told_pause := told_pause g |}) <$> _graphs m;
     _chart_menus := _chart_menus m; destroyed := destroyed m |}.

Definition set_pause (pause : bool) (m : t) : t :=
  {| _window := _window m; _time_units := _time_units m;
     _scroll_speed := _scroll_speed m; _pause := pause;
     _next_chart_index := _next_chart_index m;
     _graphs :=
       (fun g => {| told_time_units := told_time_units g;
                    told_scroll_speed := told_scroll_speed g;
                    told_pause := Some pause |}) <$> _graphs m;
     _chart_menus := _chart_menus m; destroyed := destroyed m |}.

Definition with_graphs (m : t) (graphs : gmap nat Told) : t :=
  {| _window := _window m; _time_units := _time_units m;
     _scroll_speed := _scroll_speed m; _pause := _pause m;
     _next_chart_index := _next_chart_index m; _graphs := graphs;
     _chart_menus := _chart_menus m; destroyed := destroyed m |}.

(** [add_graph(graph)], for the graph at address [graph] that was told
    [told]: an insert into a set, which keeps a pointer it has already. *)
Definition add_graph (graph : nat) (told : Told) (m : t) : t :=
  match _graphs m !! graph with
  | Some _ => m
  | None => with_graphs m (<[graph := told]> (_graphs m))
  end.

Definition remove_graph (graph : nat) (m : t) : t :=
  match _graphs m !! graph with
  | Some _ => with_graphs m (delete graph (_graphs m))
  | None => m
  end.

(** What [open_strip_chart], [open_piano_roll], [open_flame_graph] and
    [open_timeline] do with the graph they have made, at address [graph]:
    [add_graph], and then the three settings of the monitor told to the
    graph. *)
Definition open_graph (graph : nat) (m : t) : t :=
  let m1 := add_graph graph untold m in
  with_graphs m1
    (alter
       (fun _ => {| told_time_units := Some (_time_units m1);
                    told_scroll_speed := Some (_scroll_speed m1);
                    told_pause := Some (_pause m1) |})
       graph (_graphs m1)).

Definition open_strip_chart (graph : nat) (thread_index collector_index : Z)
    (show_level : bool) (m : t) : t := open_graph graph m.

Definition open_piano_roll (graph : nat) (thread_index : Z) (m : t) : t :=
  open_graph graph m.

Definition open_flame_graph (graph : nat) (thread_index collector_index : Z)
    (m : t) : t := open_graph graph m.

Definition open_timeline (graph : nat) (m : t) : t := open_graph graph m.

(** [new_thread(thread_index)]: the new chart menu goes to the menu bar at
    [_next_chart_index], which is then one more.  The count of the menus is
    far from the largest [int], and [++] is written without wrap-around. *)
Definition new_thread (thread_index : Z) (m : t) : t :=
  {| _window := _window m; _time_units := _time_units m;
     _scroll_speed := _scroll_speed m; _pause := _pause m;
     _next_chart_index := _next_chart_index m + 1;
     _graphs := _graphs m;
     _chart_menus :=
       _chart_menus m
       ++ [{| menu_thread := thread_index;
              menu_position := Some (_next_chart_index m) |}];
     destroyed := destroyed m |}.

(** The loop of [create_window] over the chart menus, from the position
    [next]: the menus with their new positions, and the position after the
    last. *)
Fixpoint add_to_menu_bar (menus : list ChartMenu) (next : Z)
    : list ChartMenu * Z :=
  match menus with
  | [] => ([], next)
  | menu :: rest =>
      let '(rest', next') := add_to_menu_bar rest (next + 1) in
      ({| menu_thread := menu_thread menu; menu_position := Some next |}
       :: rest', next')
  end.

Section Window.

(** [PStatGraph::GBU_ms], declared in [pStatGraph.h], which is not among the
    sources. *)
Variable GBU_ms : Z.

(** [setup_options_menu()] and [setup_speed_menu()], as far as the fields
    above go: the calls they end with. *)
Definition setup_options_menu (m : t) : t := set_time_units GBU_ms m.

Definition setup_speed_menu (m : t) : t :=
  set_pause false (set_scroll_speed 3 m).

(** [create_window()], where [window] is what [gtk_window_new] returns. *)
Definition create_window (window : nat) (m : t) : t :=
  match _window m with
  | Some _ => m
  | None =>
      let m1 :=
        setup_speed_menu
          (setup_options_menu
             {| _window := Some window; _time_units := _time_units m;
                _scroll_speed := _scroll_speed m; _pause := _pause m;
                _next_chart_index := 2; _graphs := _graphs m;
                _chart_menus := _chart_menus m;
                destroyed := destroyed m |}) in
      let '(menus, next) :=
        add_to_menu_bar (_chart_menus m1) (_next_chart_index m1) in
      {| _window := _window m1; _time_units := _time_units m1;
         _scroll_speed := _scroll_speed m1; _pause := _pause m1;
         _next_chart_index := next; _graphs := _graphs m1;
         _chart_menus := menus; destroyed := destroyed m1 |}
  end.

(** [got_hello()]; [graph] is the strip chart it makes. *)
Definition got_hello (window graph : nat) (m : t) : t :=
  open_strip_chart graph 0 0 false (create_window window m).

End Window.

(** [shutdown()], which [lost_connection()] and the destructor call. *)
Definition shutdown (m : t) : t :=
  {| _window := None; _time_units := _time_units m;
     _scroll_speed := _scroll_speed m; _pause := _pause m;
     _next_chart_index := _next_chart_index m; _graphs := ∅;
     _chart_menus := [];
     destroyed :=
       match _window m with
       | Some window => window :: destroyed m
       | None => destroyed m
       end |}.

(** Every graph of the monitor was last told the three settings the monitor
    has. *)
Definition graphs_agree (m : t) : Prop :=
  forall (graph : nat) (told : Told),
    _graphs m !! graph = Some told ->
    told = {| told_time_units := Some (_time_units m);
              told_scroll_speed := Some (_scroll_speed m);
              told_pause := Some (_pause m) |}.

(** Once the window is made, the chart menus sit in the menu bar at the
    positions 2, 3, and so on, in the order of the vector, and
    [_next_chart_index] is the position after the last. *)
Definition menus_in_order (m : t) : Prop :=
  _next_chart_index m = 2 + Z.of_nat (length (_chart_menus m))
  /\ forall (i : nat) (menu : ChartMenu),
       _chart_menus m !! i = Some menu ->
       menu_position menu = Some (2 + Z.of_nat i).

(** The constructor; [next] is what [_next_chart_index], which the
    constructor does not set, happens to hold. *)
Definition new (next : Z) : t :=
  {| _window := None; _time_units := 0; _scroll_speed := 0; _pause := false;
     _next_chart_index := next; _graphs := ∅; _chart_menus := [];
     destroyed := [] |}.

(** One call of a method that changes the graphs, the menus or the
    settings. *)
Inductive step (GBU_ms : Z) (m : t) : t -> Prop :=
| step_open_strip_chart graph thread_index collector_index show_level :
    step GBU_ms m
      (open_strip_chart graph thread_index collector_index show_level m)
| step_open_piano_roll graph thread_index :
    step GBU_ms m (open_piano_roll graph thread_index m)
| step_open_flame_graph graph thread_index collector_index :
    step GBU_ms m (open_flame_graph graph thread_index collector_index m)
| step_open_timeline graph : step GBU_ms m (open_timeline graph m)
| step_remove_graph graph : step GBU_ms m (remove_graph graph m)
| step_set_time_units unit_mask : step GBU_ms m (set_time_units unit_mask m)
| step_set_scroll_speed scroll_speed :
    step GBU_ms m (set_scroll_speed scroll_speed m)
| step_set_pause pause : step GBU_ms m (set_pause pause m)
| step_new_thread thread_index : step GBU_ms m (new_thread thread_index m)
| step_create_window window : step GBU_ms m (create_window GBU_ms window m)
| step_got_hello window graph :
    step GBU_ms m (got_hello GBU_ms window graph m)
| step_shutdown : step GBU_ms m (shutdown m).

End GtkStatsMonitor.

(** * Properties *)

(** ** Conversions and the growing loop *)

Lemma size_t_to_int_small (n : Z) :
  0 <= n < 2 ^ 31 -> size_t_to_int n = n.
Proof.
  intros Hn. unfold size_t_to_int.
  rewrite Z.mod_small; lia.
Qed.

Lemma size_t_to_int_le (n : Z) : 0 <= n -> size_t_to_int n <= n.
Proof.
  intros Hn. unfold size_t_to_int.
  pose proof (Z.mod_le (n + 2 ^ 31) (2 ^ 32)). lia.
Qed.

Lemma int_to_size_t_small (i : Z) :
  0 <= i < 2 ^ SIZE_BITS -> int_to_size_t i = i.
Proof. intros Hi. unfold int_to_size_t. apply Z.mod_small. exact Hi. Qed.

Lemma int_to_size_t_negative (i : Z) :
  is_int i -> i < 0 -> int_to_size_t i = 2 ^ SIZE_BITS + i.
Proof.
  unfold is_int, int_to_size_t, SIZE_BITS. intros Hi Hneg.
  symmetry. apply (Z.mod_unique i (2 ^ 64) (-1)); lia.
Qed.

Lemma vsize_app {A : Type} (v w : list A) :
  vsize (v ++ w) = vsize v + vsize w.
Proof. unfold vsize. rewrite length_app. lia. Qed.

Lemma vsize_nonneg {A : Type} (v : list A) : 0 <= vsize v.
Proof. unfold vsize. lia. Qed.

Lemma vsize_insert {A : Type} (v : list A) (i : nat) (x : A) :
  vsize (<[i := x]> v) = vsize v.
Proof. unfold vsize. now rewrite length_insert. Qed.

Lemma vsize_replicate {A : Type} (n : nat) (x : A) :
  vsize (replicate n x) = Z.of_nat n.
Proof. unfold vsize. now rewrite length_replicate. Qed.

(** With fuel for the missing slots, the loop appends exactly them. *)
Lemma grow_enough {A : Type} (fuel : nat) (filler : A) (v : list A)
    (index : Z) :
  int_to_size_t index < MAX_SIZE ->
  int_to_size_t index + 1 - vsize v <= Z.of_nat fuel ->
  grow fuel filler v index
  = Grown (v ++ replicate (Z.to_nat (int_to_size_t index + 1 - vsize v))
                  filler).
Proof.
  intros Hroom. revert v. induction fuel as [|fuel IH]; intros v Hfuel; simpl.
  - destruct (Z.leb_spec (vsize v) (int_to_size_t index)) as [Hle|Hgt];
      [lia|].
    replace (Z.to_nat _) with 0%nat by lia. simpl. now rewrite app_nil_r.
  - destruct (Z.leb_spec (vsize v) (int_to_size_t index)) as [Hle|Hgt].
    + destruct (Z.ltb_spec (vsize v) MAX_SIZE); [|lia].
      rewrite IH by (rewrite vsize_app; unfold vsize at 2; simpl; lia).
      rewrite vsize_app. unfold vsize at 2. simpl.
      replace (Z.to_nat (int_to_size_t index + 1 - vsize v))
        with (S (Z.to_nat (int_to_size_t index + 1 - (vsize v + 1))))
        by lia.
      simpl. now rewrite <- app_assoc.
    + replace (Z.to_nat _) with 0%nat by lia. simpl. now rewrite app_nil_r.
Qed.

(** A loop that is over has only appended fillers, up to the index. *)
Lemma grow_Grown {A : Type} (fuel : nat) (filler : A) (index : Z) :
  forall v v' : list A,
    grow fuel filler v index = Grown v' ->
    int_to_size_t index < vsize v'
    /\ (Z.to_nat (int_to_size_t index + 1 - vsize v) <= fuel)%nat
    /\ v' = v ++ replicate (Z.to_nat (int_to_size_t index + 1 - vsize v))
                   filler.
Proof.
  induction fuel as [|fuel IH]; intros v v' Hgrow; simpl in Hgrow;
    destruct (Z.leb_spec (vsize v) (int_to_size_t index)) as [Hle|Hgt];
    try discriminate.
  - injection Hgrow as <-. split; [exact Hgt|].
    replace (Z.to_nat _) with 0%nat by lia. simpl.
    split; [lia|now rewrite app_nil_r].
  - destruct (Z.ltb_spec (vsize v) MAX_SIZE); [|discriminate].
    apply IH in Hgrow as (Hroom & Hsteps & ->).
    assert (Hone : vsize (v ++ [filler]) = vsize v + 1)
      by (rewrite vsize_app; reflexivity).
    rewrite Hone in Hroom, Hsteps |- *.
    split; [exact Hroom|split; [lia|]].
    replace (Z.to_nat (int_to_size_t index + 1 - vsize v))
      with (S (Z.to_nat (int_to_size_t index + 1 - (vsize v + 1))))
      by lia.
    simpl. now rewrite <- app_assoc.
  - injection Hgrow as <-. split; [exact Hgt|].
    replace (Z.to_nat _) with 0%nat by lia. simpl.
    split; [lia|now rewrite app_nil_r].
Qed.

(** An index that no vector can hold keeps the loop appending, until
    [push_back] throws. *)
Lemma grow_overflow {A : Type} (fuel : nat) (filler : A) (index : Z) :
  MAX_SIZE <= int_to_size_t index ->
  forall v : list A,
    vsize v <= MAX_SIZE ->
    grow fuel filler v index
    = if Z.of_nat fuel <=? MAX_SIZE - vsize v then Spent else LengthError.
Proof.
  intros Hindex. induction fuel as [|fuel IH]; intros v Hsize; simpl grow;
    (destruct (Z.leb_spec (vsize v) (int_to_size_t index)); [|lia]).
  - destruct (Z.leb_spec (Z.of_nat 0) (MAX_SIZE - vsize v)); [reflexivity|lia].
  - destruct (Z.ltb_spec (vsize v) MAX_SIZE).
    + assert (Hone : vsize (v ++ [filler]) = vsize v + 1)
        by (rewrite vsize_app; reflexivity).
      rewrite IH, Hone by lia.
      destruct (Z.leb_spec (Z.of_nat fuel) (MAX_SIZE - (vsize v + 1))),
               (Z.leb_spec (Z.of_nat (S fuel)) (MAX_SIZE - vsize v));
        (reflexivity || lia).
    + destruct (Z.leb_spec (Z.of_nat (S fuel)) (MAX_SIZE - vsize v));
        [lia|reflexivity].
Qed.

(** ** The collector registry: lookups *)

Lemma has_collector_true (s : PStatClientData) (index : Z) :
  has_collector s index = true <->
  0 <= index < size_t_to_int (vsize (_collectors s))
  /\ exists def, _collectors s !! Z.to_nat index = Some (Some def).
Proof.
  unfold has_collector. rewrite !andb_true_iff, Z.leb_le, Z.ltb_lt.
  destruct (_collectors s !! Z.to_nat index) as [[def|]|].
  - split; [intros [[? ?] _]|intros [[? ?] _]]; eauto.
  - split; [intros [_ ?]; discriminate|intros [_ [? ?]]; discriminate].
  - split; [intros [_ ?]; discriminate|intros [_ [? ?]]; discriminate].
Qed.

(** In a table of fewer than 2^31 slots, a collector is defined exactly when
    its slot holds a definition. *)
Lemma has_collector_stored (s : PStatClientData) (index : Z)
    (def : PStatCollectorDef.t) :
  vsize (_collectors s) < 2 ^ 31 -> 0 <= index ->
  _collectors s !! Z.to_nat index = Some (Some def) ->
  has_collector s index = true.
Proof.
  intros Hsize Hindex Hslot. apply has_collector_true. split; [|eauto].
  rewrite size_t_to_int_small by (pose proof (vsize_nonneg (_collectors s)); lia).
  apply lookup_lt_Some in Hslot. unfold vsize. lia.
Qed.

Lemma has_collector_false (s : PStatClientData) (index : Z) :
  index < 0 \/ vsize (_collectors s) <= index
  \/ _collectors s !! Z.to_nat index = Some None ->
  has_collector s index = false.
Proof.
  intros Hcase. apply not_true_is_false. rewrite has_collector_true.
  intros [[Hlo Hhi] [def Hslot]].
  pose proof (size_t_to_int_le _ (vsize_nonneg (_collectors s))).
  destruct Hcase as [?|[?|Hnone]]; [lia|lia|congruence].
Qed.

Lemma get_collector_def_stored (null_parent_index : Z) (s : PStatClientData)
    (index : Z) (def : PStatCollectorDef.t) :
  has_collector s index = true ->
  _collectors s !! Z.to_nat index = Some (Some def) ->
  get_collector_def null_parent_index s index = def.
Proof.
  intros Hhas Hslot. unfold get_collector_def. now rewrite Hhas, Hslot.
Qed.

(** ** The collector registry: [add_collector] *)

Lemma add_collector_rejected (fuel : nat) (def : PStatCollectorDef.t)
    (s : PStatClientData) :
  1000 <= PStatCollectorDef._index def ->
  add_collector fuel def s = AssertionFailed tt s.
Proof.
  intros Hbig. unfold add_collector, nassert.
  destruct (Z.ltb_spec (PStatCollectorDef._index def) 1000); [lia|reflexivity].
Qed.

Lemma add_collector_stores (fuel : nat) (def : PStatCollectorDef.t)
    (s : PStatClientData) :
  0 <= PStatCollectorDef._index def < 1000 ->
  PStatCollectorDef._index def + 1 - vsize (_collectors s) <= Z.of_nat fuel ->
  add_collector fuel def s
  = Returns tt (set_collectors s (slots_with def (_collectors s))).
Proof.
  intros Hrange Hfuel. unfold add_collector, nassert, slots_with.
  destruct (Z.ltb_spec (PStatCollectorDef._index def) 1000); [|lia].
  assert (Hconv : int_to_size_t (PStatCollectorDef._index def)
                  = PStatCollectorDef._index def)
    by (apply int_to_size_t_small; unfold SIZE_BITS; lia).
  rewrite grow_enough by (rewrite Hconv; unfold MAX_SIZE, SIZE_BITS; lia).
  now rewrite Hconv.
Qed.

Lemma slots_with_lookup (def : PStatCollectorDef.t)
    (v : list (option PStatCollectorDef.t)) :
  0 <= PStatCollectorDef._index def ->
  slots_with def v !! Z.to_nat (PStatCollectorDef._index def)
  = Some (Some def).
Proof.
  intros Hindex. unfold slots_with. apply list_lookup_insert_eq.
  rewrite length_app, length_replicate. unfold vsize. lia.
Qed.

Lemma slots_with_lookup_ne (def : PStatCollectorDef.t)
    (v : list (option PStatCollectorDef.t)) (j : nat) :
  j <> Z.to_nat (PStatCollectorDef._index def) ->
  slots_with def v !! j
  = match v !! j with
    | Some slot => Some slot
    | None =>
        if decide (Z.of_nat j < PStatCollectorDef._index def) then Some None
        else None
    end.
Proof.
  intros Hne. unfold slots_with.
  rewrite list_lookup_insert_ne by congruence.
  destruct (v !! j) as [slot|] eqn:Hslot.
  - now rewrite (lookup_app_l_Some _ _ _ _ Hslot).
  - apply lookup_ge_None in Hslot. rewrite lookup_app_r by lia.
    case_decide as Hlt.
    + apply lookup_replicate_2. unfold vsize. lia.
    + apply lookup_ge_None. rewrite length_replicate. unfold vsize. lia.
Qed.

Lemma slots_with_vsize (def : PStatCollectorDef.t)
    (v : list (option PStatCollectorDef.t)) :
  vsize (slots_with def v)
  = Z.max (vsize v) (PStatCollectorDef._index def + 1).
Proof.
  unfold slots_with. rewrite vsize_insert, vsize_app, vsize_replicate.
  pose proof (vsize_nonneg v). lia.
Qed.

(** A negative index passes the sanity check; converted to [size_t] it is
    beyond what a vector holds, and the loop goes on until [push_back]
    throws. *)
Lemma add_collector_negative (fuel : nat) (def : PStatCollectorDef.t)
    (s : PStatClientData) :
  is_int (PStatCollectorDef._index def) ->
  PStatCollectorDef._index def < 0 ->
  vsize (_collectors s) <= MAX_SIZE ->
  add_collector fuel def s
  = if Z.of_nat fuel <=? MAX_SIZE - vsize (_collectors s) then OutOfFuel
    else Throws.
Proof.
  intros Hint Hneg Hsize. unfold add_collector, nassert.
  destruct (Z.ltb_spec (PStatCollectorDef._index def) 1000); [|lia].
  pose proof (int_to_size_t_negative _ Hint Hneg) as Hconv.
  rewrite grow_overflow
    by (try assumption; unfold is_int, MAX_SIZE, SIZE_BITS in *; lia).
  now destruct (Z.of_nat fuel <=? MAX_SIZE - vsize (_collectors s)).
Qed.

(** A call that returns was for an index from 0 to 999. *)
Lemma add_collector_Returns (fuel : nat) (def : PStatCollectorDef.t)
    (s s' : PStatClientData) :
  is_int (PStatCollectorDef._index def) ->
  vsize (_collectors s) <= MAX_SIZE ->
  add_collector fuel def s = Returns tt s' ->
  0 <= PStatCollectorDef._index def < 1000
  /\ s' = set_collectors s (slots_with def (_collectors s)).
Proof.
  intros Hint Hsize Hret.
  destruct (Z.le_gt_cases 1000 (PStatCollectorDef._index def)) as [Hbig|Hlt].
  { rewrite add_collector_rejected in Hret by exact Hbig. discriminate. }
  destruct (Z.lt_ge_cases (PStatCollectorDef._index def) 0) as [Hneg|Hpos].
  { rewrite add_collector_negative in Hret by assumption.
    now destruct (Z.of_nat fuel <=? MAX_SIZE - vsize (_collectors s)). }
  split; [lia|].
  unfold add_collector, nassert in Hret.
  destruct (Z.ltb_spec (PStatCollectorDef._index def) 1000); [|lia].
  destruct (grow fuel None (_collectors s) (PStatCollectorDef._index def))
    as [v| |] eqn:Hgrow; try discriminate.
  apply grow_Grown in Hgrow as (_ & _ & ->).
  rewrite int_to_size_t_small in Hret by (unfold SIZE_BITS; lia).
  now injection Hret as <-.
Qed.

(** C1.  [add_collector] leaves through its assertion, with the object
    unchanged, when the index of the definition is 1000 or more; for an
    index from 0 to 999 it returns, having grown the table to hold the index
    and stored the definition there, the other slots being kept.  A negative
    index is not rejected: it passes the check [_index < 1000], and the loop
    that grows the table compares the size with the index converted to
    [size_t], which no vector reaches, so that the loop appends slots until
    [push_back] throws. *)
Theorem add_collector_index_check (fuel : nat) (def : PStatCollectorDef.t)
    (s : PStatClientData) :
  (1000 <= PStatCollectorDef._index def ->
   add_collector fuel def s = AssertionFailed tt s)
  /\ (0 <= PStatCollectorDef._index def < 1000 -> (1000 <= fuel)%nat ->
      exists s',
        add_collector fuel def s = Returns tt s'
        /\ _collectors s' !! Z.to_nat (PStatCollectorDef._index def)
           = Some (Some def)
        /\ vsize (_collectors s')
           = Z.max (vsize (_collectors s)) (PStatCollectorDef._index def + 1)
        /\ (forall (j : nat) slot,
              j <> Z.to_nat (PStatCollectorDef._index def) ->
              _collectors s !! j = Some slot ->
              _collectors s' !! j = Some slot)
        /\ s' = set_collectors s (_collectors s'))
  /\ (is_int (PStatCollectorDef._index def) ->
      PStatCollectorDef._index def < 0 ->
      vsize (_collectors s) <= MAX_SIZE ->
      add_collector fuel def s <> AssertionFailed tt s
      /\ add_collector fuel def s
         = if Z.of_nat fuel <=? MAX_SIZE - vsize (_collectors s)
           then OutOfFuel else Throws).
Proof.
  split; [apply add_collector_rejected|split].
  - intros Hrange Hfuel.
    exists (set_collectors s (slots_with def (_collectors s))).
    split; [|split; [|split; [|split]]].
    + apply add_collector_stores; [exact Hrange|].
      pose proof (vsize_nonneg (_collectors s)). lia.
    + apply slots_with_lookup. lia.
    + apply slots_with_vsize.
    + intros j slot Hne Hslot. simpl.
      rewrite slots_with_lookup_ne by exact Hne. now rewrite Hslot.
    + reflexivity.
  - intros Hint Hneg Hsize.
    rewrite (add_collector_negative fuel def s Hint Hneg Hsize).
    split; [|reflexivity].
    now destruct (Z.of_nat fuel <=? MAX_SIZE - vsize (_collectors s)).
Qed.

(** On a new object, a definition of index -1 is not turned away: the loop
    is still appending slots after a thousand of them. *)
Lemma add_collector_index_check_witness :
  add_collector 1000 (PStatCollectorDef.Build (-1) "Bad" 0)
    (PStatClientData_new (Some 0%nat)) = OutOfFuel.
Proof.
  destruct (add_collector_index_check 1000
              (PStatCollectorDef.Build (-1) "Bad" 0)
              (PStatClientData_new (Some 0%nat))) as (_ & _ & Hneg).
  destruct Hneg as [_ Hloop];
    [unfold is_int; simpl; lia|simpl; lia|vm_compute; discriminate|].
  exact Hloop.
Defined.

(** C2.  A lookup of an undefined collector, whether the index is negative,
    past the end of the table or that of a slot never filled, finds no
    collector ([has_collector] is false) and gives the sentinel, of index -1
    and name "Unknown", and the name "Unknown"; a lookup of a defined
    collector finds it and gives the stored definition and its name.  The
    lookups are total functions: none of them fails. *)
Theorem lookup_undefined_gives_sentinel (null_parent_index : Z)
    (s : PStatClientData) (index : Z) :
  (index < 0 \/ vsize (_collectors s) <= index
   \/ _collectors s !! Z.to_nat index = Some None ->
   has_collector s index = false)
  /\ (has_collector s index = false ->
      get_collector_def null_parent_index s index
      = _null_collector null_parent_index
      /\ get_collector_name s index = "Unknown")
  /\ PStatCollectorDef._index (_null_collector null_parent_index) = -1
  /\ PStatCollectorDef._name (_null_collector null_parent_index) = "Unknown"
  /\ (forall def, vsize (_collectors s) < 2 ^ 31 -> 0 <= index ->
        _collectors s !! Z.to_nat index = Some (Some def) ->
        has_collector s index = true
        /\ get_collector_def null_parent_index s index = def
        /\ get_collector_name s index = PStatCollectorDef._name def)
  /\ (has_collector s index = true ->
      exists def,
        _collectors s !! Z.to_nat index = Some (Some def)
        /\ get_collector_def null_parent_index s index = def
        /\ get_collector_name s index = PStatCollectorDef._name def).
Proof.
  split; [apply has_collector_false|].
  split; [|split; [reflexivity|split; [reflexivity|split]]].
  - intros Hhas. unfold get_collector_def, get_collector_name.
    now rewrite Hhas.
  - intros def Hsize Hindex Hslot.
    pose proof (has_collector_stored s index def Hsize Hindex Hslot) as Hhas.
    split; [exact Hhas|split].
    + now apply get_collector_def_stored.
    + unfold get_collector_name. now rewrite Hhas, Hslot.
  - intros Hhas.
    destruct (proj1 (has_collector_true s index) Hhas) as [_ [def Hslot]].
    exists def. split; [exact Hslot|split].
    + now apply get_collector_def_stored.
    + unfold get_collector_name. now rewrite Hhas, Hslot.
Qed.

(** In the registry of three, index 7 is past the table and gives the
    sentinel, and index 2 gives the definition of "C". *)
Lemma lookup_undefined_gives_sentinel_witness :
  has_collector chain_registry 7 = false
  /\ get_collector_def 0 chain_registry 7 = _null_collector 0
  /\ get_collector_name chain_registry 7 = "Unknown"
  /\ has_collector chain_registry 2 = true
  /\ get_collector_def 0 chain_registry 2 = PStatCollectorDef.Build 2 "C" 1.
Proof.
  destruct (lookup_undefined_gives_sentinel 0 chain_registry 7)
    as (Hpast & Hsentinel & _).
  destruct (lookup_undefined_gives_sentinel 0 chain_registry 2)
    as (_ & _ & _ & _ & Hstored & _).
  assert (Hmiss : has_collector chain_registry 7 = false)
    by (apply Hpast; right; left; vm_compute; discriminate).
  destruct (Hsentinel Hmiss) as [Hdef Hname].
  destruct (Hstored (PStatCollectorDef.Build 2 "C" 1)
              ltac:(vm_compute; reflexivity) ltac:(lia) eq_refl)
    as (Hhas & Hget & _).
  repeat split; assumption.
Defined.

(** ** Distance to an ancestor *)

Section ChildDistance.

Variable null_parent_index : Z.

Local Abbreviation distance := (get_child_distance null_parent_index).
Local Abbreviation parent_of s child :=
  (PStatCollectorDef._parent_index
     (get_collector_def null_parent_index s child)).
Local Abbreviation up := (ancestor null_parent_index).
Local Abbreviation climbs := (climbs null_parent_index).

Lemma get_child_distance_same (fuel : nat) (s : PStatClientData) (x : Z) :
  distance (S fuel) s x x = Some 0.
Proof. simpl. now rewrite Z.eqb_refl. Qed.

Lemma get_child_distance_stop (fuel : nat) (s : PStatClientData)
    (parent child : Z) :
  parent <> child -> has_collector s child = false \/ child = 0 ->
  distance (S fuel) s parent child = Some (-1).
Proof.
  intros Hne Hstop. simpl.
  destruct (Z.eqb_spec parent child) as [|_]; [contradiction|].
  destruct Hstop as [->| ->]; [reflexivity|].
  now rewrite orb_true_r.
Qed.

Lemma get_child_distance_step (fuel : nat) (s : PStatClientData)
    (parent child dist : Z) :
  parent <> child -> has_collector s child = true -> child <> 0 ->
  distance fuel s parent (parent_of s child) = Some dist ->
  distance (S fuel) s parent child
  = Some (if dist =? -1 then -1 else dist + 1).
Proof.
  intros Hne Hhas Hroot Hrec. simpl.
  destruct (Z.eqb_spec parent child) as [|_]; [contradiction|].
  rewrite Hhas. simpl.
  destruct (Z.eqb_spec child 0) as [|_]; [contradiction|].
  rewrite Hrec. now destruct (dist =? -1).
Qed.

Lemma climbs_tail (s : PStatClientData) (parent child : Z) (k : nat) :
  climbs s parent child (S k) ->
  parent <> child /\ has_collector s child = true /\ child <> 0
  /\ climbs s parent (parent_of s child) k.
Proof.
  intros Hwalk. destruct (Hwalk 0%nat ltac:(lia)) as (Hne & Hhas & Hroot).
  simpl in *. repeat split; try assumption; try congruence;
    apply (Hwalk (S i)); lia.
Qed.

(** [parent] found [k] links above [child]: the distance is [k]. *)
Lemma get_child_distance_hops (s : PStatClientData) (parent : Z) (k : nat) :
  forall (fuel : nat) (child : Z),
    (k < fuel)%nat -> climbs s parent child k -> up s k child = parent ->
    distance fuel s parent child = Some (Z.of_nat k).
Proof.
  induction k as [|k IH]; intros fuel child Hfuel Hwalk Hend;
    (destruct fuel as [|fuel]; [lia|]).
  - simpl in Hend. subst child. apply get_child_distance_same.
  - apply climbs_tail in Hwalk as (Hne & Hhas & Hroot & Hwalk).
    rewrite (get_child_distance_step fuel s parent child (Z.of_nat k));
      try assumption.
    + destruct (Z.eqb_spec (Z.of_nat k) (-1)); [lia|]. f_equal. lia.
    + apply IH; [lia|exact Hwalk|exact Hend].
Qed.

(** The walk ends, after [k] links, on the root or on an undefined
    collector, without having met [parent]: the distance is -1. *)
Lemma get_child_distance_miss (s : PStatClientData) (parent : Z) (k : nat) :
  forall (fuel : nat) (child : Z),
    (k < fuel)%nat -> climbs s parent child k -> up s k child <> parent ->
    has_collector s (up s k child) = false \/ up s k child = 0 ->
    distance fuel s parent child = Some (-1).
Proof.
  induction k as [|k IH]; intros fuel child Hfuel Hwalk Hne Hend;
    (destruct fuel as [|fuel]; [lia|]).
  - simpl in Hne, Hend. apply get_child_distance_stop; [congruence|exact Hend].
  - apply climbs_tail in Hwalk as (Hne' & Hhas & Hroot & Hwalk).
    rewrite (get_child_distance_step fuel s parent child (-1));
      try assumption; [reflexivity|].
    apply IH; [lia|exact Hwalk|exact Hne|exact Hend].
Qed.

End ChildDistance.

(** C3.  [get_child_distance] gives 0 when parent and child are the same
    index, defined or not, and -1 when they differ and the child is undefined
    or is the root 0.  Otherwise it calls itself on the parent of the child,
    and gives -1 if that call gave -1 and one more than its result if not.
    So it gives the number of links from the child up to the parent when the
    walk meets the parent, and -1 when the walk ends on the root or on an
    undefined collector without having met it. *)
Theorem get_child_distance_cases (null_parent_index : Z) (fuel : nat)
    (s : PStatClientData) (parent child : Z) :
  (parent = child ->
   get_child_distance null_parent_index (S fuel) s parent child = Some 0)
  /\ (parent <> child -> has_collector s child = false \/ child = 0 ->
      get_child_distance null_parent_index (S fuel) s parent child
      = Some (-1))
  /\ (parent <> child -> has_collector s child = true -> child <> 0 ->
      forall dist,
        get_child_distance null_parent_index fuel s parent
          (PStatCollectorDef._parent_index
             (get_collector_def null_parent_index s child)) = Some dist ->
        get_child_distance null_parent_index (S fuel) s parent child
        = Some (if dist =? -1 then -1 else dist + 1))
  /\ (forall k : nat, (k <= fuel)%nat ->
        climbs null_parent_index s parent child k ->
        ancestor null_parent_index s k child = parent ->
        get_child_distance null_parent_index (S fuel) s parent child
        = Some (Z.of_nat k))
  /\ (forall k : nat, (k <= fuel)%nat ->
        climbs null_parent_index s parent child k ->
        ancestor null_parent_index s k child <> parent ->
        has_collector s (ancestor null_parent_index s k child) = false
        \/ ancestor null_parent_index s k child = 0 ->
        get_child_distance null_parent_index (S fuel) s parent child
        = Some (-1)).
Proof.
  split; [intros ->; apply get_child_distance_same|].
  split; [apply get_child_distance_stop|].
  split; [intros Hne Hhas Hroot dist; now apply get_child_distance_step|].
  split.
  - intros k Hk. apply get_child_distance_hops. lia.
  - intros k Hk. apply get_child_distance_miss. lia.
Qed.

(** In the registry of three, "C" is two links below the root. *)
Lemma get_child_distance_cases_witness :
  get_child_distance 0 3 chain_registry 0 2 = Some 2.
Proof.
  destruct (get_child_distance_cases 0 2 chain_registry 0 2)
    as (_ & _ & _ & Hhops & _).
  apply (Hhops 2%nat).
  - lia.
  - intros i Hi.
    destruct i as [|[|i]]; [vm_compute; intuition discriminate ..|lia].
  - reflexivity.
Defined.

(** In the registry of three, "C" is not above "B": the call for the parent
    of "B", the root, gives -1, and the distance is -1, not 1 + -1. *)
Lemma get_child_distance_not_one_more :
  2 <> 1 /\ has_collector chain_registry 1 = true /\ 1 <> 0
  /\ get_child_distance 0 1 chain_registry 2
       (PStatCollectorDef._parent_index
          (get_collector_def 0 chain_registry 1)) = Some (-1)
  /\ get_child_distance 0 2 chain_registry 2 1 = Some (-1)
  /\ -1 <> 1 + -1.
Proof. repeat split; (lia || reflexivity). Qed.

(** ** Full names *)

Lemma get_collector_fullname_undefined (fuel : nat) (s : PStatClientData)
    (index : Z) :
  has_collector s index = false ->
  get_collector_fullname (S fuel) s index = Some "Unknown".
Proof. intros Hhas. simpl. now rewrite Hhas. Qed.

Lemma get_collector_fullname_top (fuel : nat) (s : PStatClientData)
    (index : Z) (def : PStatCollectorDef.t) :
  has_collector s index = true ->
  _collectors s !! Z.to_nat index = Some (Some def) ->
  PStatCollectorDef._parent_index def = 0 ->
  get_collector_fullname (S fuel) s index
  = Some (PStatCollectorDef._name def).
Proof. intros Hhas Hslot Hparent. simpl. now rewrite Hhas, Hslot, Hparent. Qed.

Lemma get_collector_fullname_below (fuel : nat) (s : PStatClientData)
    (index : Z) (def : PStatCollectorDef.t) (full : string) :
  has_collector s index = true ->
  _collectors s !! Z.to_nat index = Some (Some def) ->
  PStatCollectorDef._parent_index def <> 0 ->
  get_collector_fullname fuel s (PStatCollectorDef._parent_index def)
  = Some full ->
  get_collector_fullname (S fuel) s index
  = Some (full +:+ ":" +:+ PStatCollectorDef._name def).
Proof.
  intros Hhas Hslot Hparent Hrec. simpl. rewrite Hhas, Hslot. simpl.
  destruct (Z.eqb_spec (PStatCollectorDef._parent_index def) 0);
    [contradiction|].
  now rewrite Hrec.
Qed.

(** More fuel does not change a name that was found. *)
Lemma get_collector_fullname_more (s : PStatClientData) (fuel : nat) :
  forall (fuel' : nat) (index : Z) (full : string),
    (fuel <= fuel')%nat ->
    get_collector_fullname fuel s index = Some full ->
    get_collector_fullname fuel' s index = Some full.
Proof.
  induction fuel as [|fuel IH]; intros fuel' index full Hle Hfull;
    [discriminate|].
  destruct fuel' as [|fuel']; [lia|]. simpl in *.
  destruct (has_collector s index); simpl in *; [|exact Hfull].
  destruct (_collectors s !! Z.to_nat index) as [[def|]|]; try exact Hfull.
  destruct (PStatCollectorDef._parent_index def =? 0); [exact Hfull|].
  destruct (get_collector_fullname fuel s _) as [above|] eqn:Habove;
    [|discriminate].
  now rewrite (IH fuel' _ above ltac:(lia) Habove).
Qed.

(** C4.  For a defined collector, [get_collector_fullname] gives the bare
    name when the parent index is 0, and otherwise the full name of the
    parent, a colon and the name.  On a chain root, B, C, with the root at
    index 0, it gives the name of B for B and the name of B, a colon and the
    name of C for C: "B:C" in the registry of three. *)
Theorem get_collector_fullname_defined (fuel : nat) (s : PStatClientData)
    (index : Z) (def : PStatCollectorDef.t) :
  has_collector s index = true ->
  _collectors s !! Z.to_nat index = Some (Some def) ->
  (PStatCollectorDef._parent_index def = 0 ->
   get_collector_fullname (S fuel) s index
   = Some (PStatCollectorDef._name def))
  /\ (PStatCollectorDef._parent_index def <> 0 ->
      forall full,
        get_collector_fullname fuel s (PStatCollectorDef._parent_index def)
        = Some full ->
        get_collector_fullname (S fuel) s index
        = Some (full +:+ ":" +:+ PStatCollectorDef._name def))
  /\ (PStatCollectorDef._parent_index def <> 0 ->
      forall above,
        has_collector s (PStatCollectorDef._parent_index def) = true ->
        _collectors s !! Z.to_nat (PStatCollectorDef._parent_index def)
        = Some (Some above) ->
        PStatCollectorDef._parent_index above = 0 ->
        get_collector_fullname (S fuel) s
          (PStatCollectorDef._parent_index def)
        = Some (PStatCollectorDef._name above)
        /\ get_collector_fullname (S (S fuel)) s index
           = Some (PStatCollectorDef._name above +:+ ":"
                   +:+ PStatCollectorDef._name def))
  /\ get_collector_fullname (S fuel) chain_registry 1 = Some "B"
  /\ get_collector_fullname (S (S fuel)) chain_registry 2 = Some "B:C".
Proof.
  intros Hhas Hslot.
  split; [now apply get_collector_fullname_top|].
  split; [intros Hparent full; now apply get_collector_fullname_below|].
  split; [|split; reflexivity].
  intros Hparent above Hhas' Hslot' Htop.
  pose proof (get_collector_fullname_top fuel s _ above Hhas' Hslot' Htop)
    as Habove.
  split; [exact Habove|].
  now apply get_collector_fullname_below.
Qed.

(** In the registry of three, the full name of "C" is "B:C". *)
Lemma get_collector_fullname_defined_witness :
  get_collector_fullname 2 chain_registry 2 = Some "B:C".
Proof.
  destruct (get_collector_fullname_defined 1 chain_registry 2
              (PStatCollectorDef.Build 2 "C" 1) eq_refl eq_refl)
    as (_ & Hbelow & _).
  apply (Hbelow ltac:(discriminate) "B"). reflexivity.
Defined.

(** ** Termination of the full name *)

Lemma fullname_parent_Some (s : PStatClientData) (index p : Z) :
  fullname_parent s index = Some p ->
  has_collector s index = true
  /\ exists def, _collectors s !! Z.to_nat index = Some (Some def)
                 /\ PStatCollectorDef._parent_index def = p /\ p <> 0.
Proof.
  unfold fullname_parent. intros Hstep.
  destruct (has_collector s index); [|discriminate]. simpl in Hstep.
  destruct (_collectors s !! Z.to_nat index) as [[def|]|]; try discriminate.
  destruct (Z.eqb_spec (PStatCollectorDef._parent_index def) 0);
    [discriminate|].
  injection Hstep as <-. eauto.
Qed.

(** The recursion is still running after [fuel] calls only if the walk has
    [fuel] links. *)
Lemma get_collector_fullname_None (s : PStatClientData) (fuel : nat) :
  forall index : Z,
    get_collector_fullname fuel s index = None ->
    exists top, climb s fuel index = Some top.
Proof.
  induction fuel as [|fuel IH]; intros index Hnone; [simpl; eauto|].
  simpl in *. unfold fullname_parent.
  destruct (has_collector s index); [|discriminate]. simpl in *.
  destruct (_collectors s !! Z.to_nat index) as [[def|]|]; try discriminate.
  destruct (PStatCollectorDef._parent_index def =? 0); [discriminate|].
  destruct (get_collector_fullname fuel s _) eqn:Hrec; [discriminate|].
  now apply IH.
Qed.

Lemma climb_add (s : PStatClientData) (a b : nat) :
  forall index : Z,
    climb s (a + b) index
    = match climb s a index with
      | Some mid => climb s b mid
      | None => None
      end.
Proof.
  induction a as [|a IH]; intros index; simpl; [reflexivity|].
  destruct (fullname_parent s index); [apply IH|reflexivity].
Qed.

(** A collector from which the walk goes on is defined, so that its index is
    one of the slots. *)
Lemma climb_slot (s : PStatClientData) (index top : Z) (k : nat) :
  climb s (S k) index = Some top ->
  0 <= index < vsize (_collectors s).
Proof.
  simpl. destruct (fullname_parent s index) as [p|] eqn:Hstep;
    [intros _|discriminate].
  apply fullname_parent_Some in Hstep as [Hhas _].
  apply has_collector_true in Hhas as [Hrange _].
  pose proof (size_t_to_int_le _ (vsize_nonneg (_collectors s))). lia.
Qed.

(** A walk of more links than the table has slots passes some collector
    twice. *)
Lemma climb_long (s : PStatClientData) (index top : Z) (k : nat) :
  (length (_collectors s) <= k)%nat ->
  climb s (S k) index = Some top -> ~ acyclic s.
Proof.
  intros Hlong Hwalk Hacyclic.
  set (n := length (_collectors s)) in *.
  pose (node := fun i : nat => default 0 (climb s i index)).
  assert (Hnode : forall i : nat, (i <= k)%nat ->
            climb s i index = Some (node i)
            /\ exists top', climb s (S (k - i)) (node i) = Some top').
  { intros i Hi. unfold node.
    replace (S k) with (i + S (k - i))%nat in Hwalk by lia.
    rewrite climb_add in Hwalk.
    destruct (climb s i index) as [mid|]; [|discriminate]. simpl. eauto. }
  destruct (nat_pigeonhole (fun i => Z.to_nat (node i)) (S n) n)
    as (i1 & i2 & Hlt & Hsame); [lia| |].
  { intros i Hi. destruct (Hnode i ltac:(lia)) as [_ [top' Hnext]].
    apply climb_slot in Hnext. unfold vsize in Hnext. fold n in Hnext. lia. }
  destruct (Hnode i1 ltac:(lia)) as [H1 [top1 Hnext1]].
  destruct (Hnode i2 ltac:(lia)) as [H2 [top2 Hnext2]].
  apply climb_slot in Hnext1, Hnext2.
  assert (Heq : node i1 = node i2) by lia.
  apply (Hacyclic (node i1) (i2 - i1 - 1)%nat).
  assert (Hloop : climb s (i1 + S (i2 - i1 - 1)) index = Some (node i2))
    by (rewrite <- H2; f_equal; lia).
  rewrite climb_add, H1 in Hloop. rewrite Heq at 2. exact Hloop.
Qed.

(** C5.  [get_collector_fullname] returns for every index: "Unknown" at once
    for an index that is not defined, whether negative, past the table or
    never filled; the name after "Unknown:" when the parent is such an index;
    and, in every registry whose links from a defined collector to a parent
    other than the root form no cycle, a name within as many nested calls as
    the table has slots, plus one. *)
Theorem get_collector_fullname_terminates (s : PStatClientData) (index : Z) :
  (forall fuel : nat, has_collector s index = false ->
     get_collector_fullname (S fuel) s index = Some "Unknown")
  /\ (forall (fuel : nat) (def : PStatCollectorDef.t),
        has_collector s index = true ->
        _collectors s !! Z.to_nat index = Some (Some def) ->
        PStatCollectorDef._parent_index def <> 0 ->
        has_collector s (PStatCollectorDef._parent_index def) = false ->
        get_collector_fullname (S (S fuel)) s index
        = Some ("Unknown:" +:+ PStatCollectorDef._name def))
  /\ (acyclic s ->
      exists full : string,
        forall fuel : nat, (length (_collectors s) < fuel)%nat ->
          get_collector_fullname fuel s index = Some full).
Proof.
  split; [intros fuel; apply get_collector_fullname_undefined|split].
  - intros fuel def Hhas Hslot Hparent Hundefined.
    now rewrite (get_collector_fullname_below (S fuel) s index def "Unknown"
                   Hhas Hslot Hparent
                   (get_collector_fullname_undefined fuel s _ Hundefined)).
  - intros Hacyclic.
    destruct (get_collector_fullname (S (length (_collectors s))) s index)
      as [full|] eqn:Hfull.
    + exists full. intros fuel Hfuel.
      apply (get_collector_fullname_more s (S (length (_collectors s))));
        [lia|exact Hfull].
    + apply get_collector_fullname_None in Hfull as [top Hwalk].
      now apply climb_long in Hwalk.
Qed.

Lemma fullname_parent_chain (index : Z) :
  fullname_parent chain_registry index = if index =? 2 then Some 1 else None.
Proof.
  assert (Hcases : index < 0 \/ index = 0 \/ index = 1 \/ index = 2
                   \/ 3 <= index) by lia.
  destruct Hcases as [Hneg|[->|[->|[->|Hbig]]]]; try reflexivity.
  - unfold fullname_parent. rewrite has_collector_false by (left; exact Hneg).
    simpl. destruct (Z.eqb_spec index 2); [lia|reflexivity].
  - unfold fullname_parent.
    rewrite has_collector_false by (right; left; exact Hbig).
    simpl. destruct (Z.eqb_spec index 2); [lia|reflexivity].
Qed.

Lemma acyclic_chain : acyclic chain_registry.
Proof.
  intros index k. cbn [climb]. rewrite fullname_parent_chain.
  destruct (Z.eqb_spec index 2) as [->|_]; [|discriminate].
  destruct k as [|k]; cbn [climb]; [discriminate|].
  rewrite fullname_parent_chain. discriminate.
Qed.

(** The registry of three has no cycle, and the full name of "C" is found
    within four nested calls. *)
Lemma get_collector_fullname_terminates_witness :
  acyclic chain_registry
  /\ exists full : string,
       forall fuel : nat, (3 < fuel)%nat ->
         get_collector_fullname fuel chain_registry 2 = Some full.
Proof.
  split; [exact acyclic_chain|].
  destruct (get_collector_fullname_terminates chain_registry 2)
    as (_ & _ & Hreturns).
  exact (Hreturns acyclic_chain).
Defined.

(** ** The thread table *)

Lemma has_thread_stored (s : PStatClientData) (index : Z) :
  vsize (_threads s) < 2 ^ 31 -> 0 <= index ->
  has_thread s index = negb (empty (stored_name s index)).
Proof.
  intros Hsize Hindex. unfold has_thread, stored_name.
  rewrite size_t_to_int_small
    by (pose proof (vsize_nonneg (_threads s)); lia).
  destruct (_threads s !! Z.to_nat index) as [t|] eqn:Hslot.
  - apply lookup_lt_Some in Hslot.
    destruct (Z.leb_spec 0 index); [|lia].
    destruct (Z.ltb_spec index (vsize (_threads s)));
      [reflexivity|unfold vsize in *; lia].
  - simpl. now rewrite andb_false_r.
Qed.

Lemma has_thread_negative (s : PStatClientData) (index : Z) :
  index < 0 -> has_thread s index = false.
Proof.
  intros Hneg. unfold has_thread.
  destruct (Z.leb_spec 0 index); [lia|reflexivity].
Qed.

Lemma get_thread_name_stored (s : PStatClientData) (index : Z) :
  vsize (_threads s) < 2 ^ 31 -> 0 <= index ->
  get_thread_name s index
  = if empty (stored_name s index) then "Unknown" else stored_name s index.
Proof.
  intros Hsize Hindex. unfold get_thread_name.
  rewrite has_thread_stored by assumption. unfold stored_name.
  destruct (_threads s !! Z.to_nat index) as [t|]; [|reflexivity].
  now destruct (empty (Thread._name t)).
Qed.

Lemma define_thread_rejected (fuel : nat) (index : Z) (name : string)
    (s : PStatClientData) :
  1000 <= index -> define_thread fuel index name s = AssertionFailed tt s.
Proof.
  intros Hbig. unfold define_thread, nassert.
  destruct (Z.ltb_spec index 1000); [lia|reflexivity].
Qed.

(** The slot of [index] once the loop has run. *)
Lemma grown_slot (s : PStatClientData) (index : Z) :
  0 <= index ->
  (_threads s
   ++ replicate (Z.to_nat (index + 1 - vsize (_threads s))) Thread.new)
  !! Z.to_nat index = Some (slot_or_new s index).
Proof.
  intros Hindex. unfold slot_or_new.
  destruct (_threads s !! Z.to_nat index) as [t|] eqn:Hslot; simpl.
  - now apply lookup_app_l_Some.
  - apply lookup_ge_None in Hslot. rewrite lookup_app_r by lia.
    apply lookup_replicate_2. unfold vsize. lia.
Qed.

Lemma define_thread_valid (fuel : nat) (index : Z) (name : string)
    (s : PStatClientData) :
  0 <= index < 1000 ->
  index + 1 - vsize (_threads s) <= Z.of_nat fuel ->
  define_thread fuel index name s = Returns tt (defined_thread index name s).
Proof.
  intros Hrange Hfuel. unfold define_thread, nassert, defined_thread.
  destruct (Z.ltb_spec index 1000); [|lia].
  assert (Hconv : int_to_size_t index = index)
    by (apply int_to_size_t_small; unfold SIZE_BITS; lia).
  rewrite grow_enough by (rewrite Hconv; unfold MAX_SIZE, SIZE_BITS; lia).
  rewrite Hconv, grown_slot by lia.
  now destruct (define_slot name (slot_or_new s index) (thread_data_heap s)).
Qed.

(** A call for an index from 0 to 999 that returns has done so with the
    object [defined_thread] describes. *)
Lemma define_thread_Returns (fuel : nat) (index : Z) (name : string)
    (s s' : PStatClientData) :
  0 <= index < 1000 ->
  define_thread fuel index name s = Returns tt s' ->
  s' = defined_thread index name s.
Proof.
  intros Hrange Hret.
  destruct (Z.le_gt_cases (index + 1 - vsize (_threads s)) (Z.of_nat fuel))
    as [Hle|Hgt].
  - rewrite define_thread_valid in Hret by assumption. congruence.
  - unfold define_thread, nassert in Hret.
    destruct (Z.ltb_spec index 1000); [|lia].
    destruct (grow fuel Thread.new (_threads s) index) as [v| |] eqn:Hgrow;
      try discriminate.
    apply grow_Grown in Hgrow as (_ & Hsteps & _).
    rewrite int_to_size_t_small in Hsteps by (unfold SIZE_BITS; lia). lia.
Qed.

Lemma define_slot_spec (name : string) (t : Thread.t)
    (heap : list PStatThreadData) :
  define_slot name t heap
  = ({| Thread._name := if empty name then Thread._name t else name;
        Thread._data := Some (default (length heap) (Thread._data t)) |},
     match Thread._data t with
     | Some _ => heap
     | None => heap ++ [PStatThreadData_new]
     end).
Proof.
  unfold define_slot. destruct t as [old data], (empty name), data; reflexivity.
Qed.

Lemma slot_or_new_name (s : PStatClientData) (index : Z) :
  Thread._name (slot_or_new s index) = stored_name s index.
Proof.
  unfold slot_or_new, stored_name. now destruct (_threads s !! Z.to_nat index).
Qed.

Lemma slot_or_new_data (s : PStatClientData) (index : Z) :
  Thread._data (slot_or_new s index) = stored_data s index.
Proof.
  unfold slot_or_new, stored_data. now destruct (_threads s !! Z.to_nat index).
Qed.

(** What [define_thread] has changed: the slot of the index, the slots the
    loop has appended, and the heap when a frame store was made. *)
Lemma defined_thread_spec (index : Z) (name : string) (s : PStatClientData) :
  0 <= index ->
  let s' := defined_thread index name s in
  _threads s' !! Z.to_nat index
  = Some {| Thread._name := if empty name then stored_name s index else name;
            Thread._data :=
              Some (default (length (thread_data_heap s))
                      (stored_data s index)) |}
  /\ thread_data_heap s'
     = match stored_data s index with
       | Some _ => thread_data_heap s
       | None => thread_data_heap s ++ [PStatThreadData_new]
       end
  /\ vsize (_threads s') = Z.max (vsize (_threads s)) (index + 1)
  /\ (forall j : nat, j <> Z.to_nat index ->
        _threads s' !! j
        = match _threads s !! j with
          | Some t => Some t
          | None =>
              if decide (Z.of_nat j < index) then Some Thread.new else None
          end)
  /\ _collectors s' = _collectors s /\ _is_alive s' = _is_alive s
  /\ _reader s' = _reader s /\ reader_closed s' = reader_closed s.
Proof.
  intros Hindex. unfold defined_thread. rewrite define_slot_spec.
  rewrite slot_or_new_name, slot_or_new_data. simpl.
  split; [|split; [reflexivity|split; [|split; [|repeat split]]]].
  - apply list_lookup_insert_eq. rewrite length_app, length_replicate.
    unfold vsize. lia.
  - rewrite vsize_insert, vsize_app, vsize_replicate.
    pose proof (vsize_nonneg (_threads s)). lia.
  - intros j Hne. rewrite list_lookup_insert_ne by congruence.
    destruct (_threads s !! j) as [t|] eqn:Hslot.
    + now apply lookup_app_l_Some.
    + apply lookup_ge_None in Hslot. rewrite lookup_app_r by lia.
      case_decide as Hlt.
      * apply lookup_replicate_2. unfold vsize. lia.
      * apply lookup_ge_None. rewrite length_replicate. unfold vsize. lia.
Qed.

Lemma defined_thread_stored (index : Z) (name : string)
    (s : PStatClientData) :
  0 <= index ->
  stored_name (defined_thread index name s) index
  = (if empty name then stored_name s index else name)
  /\ stored_data (defined_thread index name s) index
     = Some (default (length (thread_data_heap s)) (stored_data s index)).
Proof.
  intros Hindex.
  destruct (defined_thread_spec index name s Hindex) as [Hslot _].
  unfold stored_name at 1, stored_data at 1. now rewrite Hslot.
Qed.

Lemma defined_thread_wf (index : Z) (name : string) (s : PStatClientData) :
  0 <= index < 1000 -> wf s -> wf (defined_thread index name s).
Proof.
  intros Hrange (Hcollectors & Hthreads & Hheap).
  destruct (defined_thread_spec index name s ltac:(lia))
    as (Hslot & Hheap' & Hsize & Hother & Hsame & _).
  split; [now rewrite Hsame|split; [lia|]].
  assert (Hlonger : (length (thread_data_heap s)
                     <= length (thread_data_heap
                                  (defined_thread index name s)))%nat).
  { rewrite Hheap'. destruct (stored_data s index); [lia|].
    rewrite length_app. lia. }
  intros i t p Hi Hdata.
  destruct (decide (i = Z.to_nat index)) as [->|Hne].
  - rewrite Hslot in Hi. injection Hi as <-. simpl in Hdata.
    injection Hdata as <-. rewrite Hheap'. unfold stored_data.
    destruct (_threads s !! Z.to_nat index) as [t|] eqn:Hold; simpl.
    + destruct (Thread._data t) as [p|] eqn:Hp; simpl.
      * exact (Hheap _ _ _ Hold Hp).
      * rewrite length_app. simpl. lia.
    + rewrite length_app. simpl. lia.
  - rewrite (Hother i Hne) in Hi.
    destruct (_threads s !! i) as [t0|] eqn:Hold.
    + injection Hi as <-. pose proof (Hheap _ _ _ Hold Hdata). lia.
    + case_decide; [|discriminate]. injection Hi as <-. discriminate.
Qed.

Lemma wf_threads_small (s : PStatClientData) :
  wf s -> vsize (_threads s) < 2 ^ 31.
Proof. intros (_ & Hthreads & _). lia. Qed.

(** A sequence of calls for an index from 0 to 999: every call returns, the
    name is the last non-empty one, and the frame store and the heap are
    those the first call has left. *)
Lemma define_thread_seq_valid (fuel : nat) (index : Z) :
  0 <= index < 1000 -> (1000 <= fuel)%nat ->
  forall (names : list string) (s : PStatClientData),
    wf s ->
    exists s',
      define_thread_seq fuel index names s = Returns tt s'
      /\ wf s'
      /\ stored_name s' index = last_name names (stored_name s index)
      /\ (is_Some (stored_data s index) ->
          stored_data s' index = stored_data s index
          /\ thread_data_heap s' = thread_data_heap s).
Proof.
  intros Hrange Hfuel names.
  induction names as [|name rest IH]; intros s Hwf; simpl.
  - exists s.
    split; [reflexivity|split; [exact Hwf|split; [reflexivity|]]].
    intros _. split; reflexivity.
  - rewrite define_thread_valid
      by (try assumption; pose proof (vsize_nonneg (_threads s)); lia).
    simpl.
    destruct (IH (defined_thread index name s)
                (defined_thread_wf index name s Hrange Hwf))
      as (s' & Hrun & Hwf' & Hname & Hdata).
    destruct (defined_thread_stored index name s ltac:(lia))
      as [Hname1 Hdata1].
    exists s'. split; [exact Hrun|split; [exact Hwf'|split]].
    + now rewrite Hname, Hname1.
    + intros [p Hp].
      destruct (Hdata ltac:(rewrite Hdata1; eauto)) as [-> ->].
      destruct (defined_thread_spec index name s ltac:(lia))
        as (_ & Hheap & _).
      rewrite Hdata1, Hheap, Hp. split; reflexivity.
Qed.

Lemma last_name_empties (n : nat) (old : string) :
  last_name (replicate n "") old = old.
Proof. induction n as [|n IH]; simpl; [reflexivity|exact IH]. Qed.

(** No slot of a well-formed object has an index of 1000 or more. *)
Lemma no_thread_above (s : PStatClientData) (id : Z) :
  wf s -> 1000 <= id ->
  _threads s !! Z.to_nat id = None
  /\ has_thread s id = false /\ get_thread_name s id = "Unknown".
Proof.
  intros Hwf Hbig.
  assert (Hslot : _threads s !! Z.to_nat id = None).
  { apply lookup_ge_None. destruct Hwf as (_ & Hsize & _).
    unfold vsize in Hsize. lia. }
  split; [exact Hslot|].
  rewrite get_thread_name_stored, has_thread_stored
    by (try (now apply wf_threads_small); lia).
  unfold stored_name. rewrite Hslot. split; reflexivity.
Qed.

(** Calls of [define_thread] for an index of 1000 or more, one after
    another, leave the object as it is. *)
Lemma define_thread_seq_rejected (fuel : nat) (id : Z) (names : list string)
    (s : PStatClientData) :
  1000 <= id -> define_thread_seq fuel id names s = Returns tt s.
Proof.
  intros Hbig. induction names as [|name rest IH]; simpl; [reflexivity|].
  rewrite define_thread_rejected by exact Hbig. exact IH.
Qed.

(** C6.  For a thread index from 0 to 999, a call of [define_thread]
    returns; it stores the name when this is not empty and keeps the stored
    name when it is; the first call for the index makes the frame store, and
    the calls after it keep that store and allocate nothing.  After the
    names "" and "Render" the thread is named "Render", and calls with the
    empty name after them leave it so.  A call for an index of 1000 or more,
    whatever the name, is turned away by the assertion and stores nothing:
    the object is as it was, alone or in a sequence of such calls, and it
    has no slot, no name and no frame store for that index. *)
Theorem define_thread_upsert (fuel : nat) (index : Z) (s : PStatClientData) :
  0 <= index < 1000 -> (1000 <= fuel)%nat -> wf s ->
  (forall (name : string) (rest : list string),
     exists s1 s',
       define_thread fuel index name s = Returns tt s1
       /\ stored_name s1 index
          = (if empty name then stored_name s index else name)
       /\ stored_data s1 index
          = Some (default (length (thread_data_heap s))
                    (stored_data s index))
       /\ thread_data_heap s1
          = match stored_data s index with
            | Some _ => thread_data_heap s
            | None => thread_data_heap s ++ [PStatThreadData_new]
            end
       /\ define_thread_seq fuel index (name :: rest) s = Returns tt s'
       /\ stored_name s' index
          = last_name (name :: rest) (stored_name s index)
       /\ get_thread_name s' index
          = (if empty (stored_name s' index) then "Unknown"
             else stored_name s' index)
       /\ stored_data s' index = stored_data s1 index
       /\ thread_data_heap s' = thread_data_heap s1)
  /\ (forall n : nat,
        exists s',
          define_thread_seq fuel index ("" :: "Render" :: replicate n "") s
          = Returns tt s'
          /\ get_thread_name s' index = "Render")
  /\ (forall (id : Z) (name : string) (names : list string),
        1000 <= id ->
        define_thread fuel id name s = AssertionFailed tt s
        /\ define_thread_seq fuel id names s = Returns tt s
        /\ _threads s !! Z.to_nat id = None
        /\ has_thread s id = false
        /\ get_thread_name s id = "Unknown"
        /\ stored_data s id = None).
Proof.
  intros Hrange Hfuel Hwf.
  assert (Hcall : forall name,
            define_thread fuel index name s
            = Returns tt (defined_thread index name s))
    by (intros name; apply define_thread_valid;
        [exact Hrange|pose proof (vsize_nonneg (_threads s)); lia]).
  split; [|split]; cycle 2.
  { intros id name names Hbig.
    destruct (no_thread_above s id Hwf Hbig) as (Hslot & Hhas & Hname).
    split; [now apply define_thread_rejected|].
    split; [now apply define_thread_seq_rejected|].
    split; [exact Hslot|split; [exact Hhas|split; [exact Hname|]]].
    unfold stored_data. now rewrite Hslot. }
  - intros name rest. exists (defined_thread index name s).
    destruct (defined_thread_stored index name s ltac:(lia))
      as [Hname1 Hdata1].
    destruct (defined_thread_spec index name s ltac:(lia))
      as (_ & Hheap1 & _).
    destruct (define_thread_seq_valid fuel index Hrange Hfuel rest
                (defined_thread index name s)
                (defined_thread_wf index name s Hrange Hwf))
      as (s' & Hrun & Hwf' & Hname & Hdata).
    destruct (Hdata ltac:(rewrite Hdata1; eauto)) as [Hdata' Hheap'].
    exists s'. simpl. rewrite Hcall. simpl.
    repeat split; try assumption.
    + now rewrite Hname, Hname1.
    + apply get_thread_name_stored; [now apply wf_threads_small|lia].
  - intros n.
    destruct (define_thread_seq_valid fuel index Hrange Hfuel
                ("" :: "Render" :: replicate n "") s Hwf)
      as (s' & Hrun & Hwf' & Hname & _).
    exists s'. split; [exact Hrun|].
    rewrite get_thread_name_stored
      by (try (now apply wf_threads_small); lia).
    rewrite Hname. simpl. now rewrite last_name_empties.
Qed.

(** On a new object, thread 3 defined with "", "Render" and "" is named
    "Render", and a call for thread 1234 is turned away. *)
Lemma define_thread_upsert_witness :
  (exists s',
     define_thread_seq 1000 3 ["" ; "Render"; ""]
       (PStatClientData_new (Some 0%nat))
     = Returns tt s'
     /\ get_thread_name s' 3 = "Render")
  /\ define_thread 1000 1234 "Render" (PStatClientData_new (Some 0%nat))
     = AssertionFailed tt (PStatClientData_new (Some 0%nat)).
Proof.
  assert (Hwf : wf (PStatClientData_new (Some 0%nat))).
  { repeat split; vm_compute; discriminate. }
  destruct (define_thread_upsert 1000 3 (PStatClientData_new (Some 0%nat))
              ltac:(lia) ltac:(lia) Hwf) as (_ & Hrender & Hbig).
  split; [exact (Hrender 1%nat)|].
  exact (proj1 (Hbig 1234 "Render" [] ltac:(lia))).
Defined.

(** A call for the index 1000 with the name "Render" leaves through the
    assertion: the object is as it was, with no slot, no name and no frame
    store for the thread. *)
Lemma define_thread_1000_not_stored :
  define_thread 2000 1000 "Render" (PStatClientData_new (Some 0%nat))
  = AssertionFailed tt (PStatClientData_new (Some 0%nat))
  /\ get_thread_name (PStatClientData_new (Some 0%nat)) 1000 = "Unknown"
  /\ _threads (PStatClientData_new (Some 0%nat)) !! 1000%nat = None.
Proof. repeat split. Qed.

(** ** What the methods keep *)

Lemma define_thread_negative (fuel : nat) (index : Z) (name : string)
    (s : PStatClientData) :
  is_int index -> index < 0 -> vsize (_threads s) <= MAX_SIZE ->
  define_thread fuel index name s
  = if Z.of_nat fuel <=? MAX_SIZE - vsize (_threads s) then OutOfFuel
    else Throws.
Proof.
  intros Hint Hneg Hsize. unfold define_thread, nassert.
  destruct (Z.ltb_spec index 1000); [|lia].
  pose proof (int_to_size_t_negative _ Hint Hneg) as Hconv.
  rewrite grow_overflow
    by (try assumption; unfold is_int, MAX_SIZE, SIZE_BITS in *; lia).
  now destruct (Z.of_nat fuel <=? MAX_SIZE - vsize (_threads s)).
Qed.

(** A call of [define_thread] that comes back has either been turned away,
    the index being 1000 or more, or has defined a thread of index from 0 to
    999. *)
Lemma define_thread_final (fuel : nat) (index : Z) (name : string)
    (s s' : PStatClientData) :
  is_int index -> vsize (_threads s) <= MAX_SIZE ->
  final (define_thread fuel index name s) = Some s' ->
  (1000 <= index /\ s' = s)
  \/ (0 <= index < 1000 /\ s' = defined_thread index name s).
Proof.
  intros Hint Hsize Hfinal.
  destruct (Z.le_gt_cases 1000 index) as [Hbig|Hlt].
  { rewrite define_thread_rejected in Hfinal by exact Hbig.
    injection Hfinal as <-. now left. }
  destruct (Z.lt_ge_cases index 0) as [Hneg|Hpos].
  { rewrite define_thread_negative in Hfinal by assumption.
    now destruct (Z.of_nat fuel <=? MAX_SIZE - vsize (_threads s)). }
  right. split; [lia|].
  destruct (define_thread fuel index name s) as [[] s1|[] s1| | |] eqn:Hcall;
    try discriminate; injection Hfinal as <-.
  - apply (define_thread_Returns fuel index name s s1); [lia|exact Hcall].
  - unfold define_thread, nassert in Hcall.
    destruct (Z.ltb_spec index 1000); [|lia].
    destruct (grow fuel Thread.new (_threads s) index) as [v| |];
      try discriminate.
    destruct (v !! Z.to_nat (int_to_size_t index)); [|discriminate].
    now destruct (define_slot name t (thread_data_heap s)).
Qed.

Lemma wf_sizes (s : PStatClientData) :
  wf s -> vsize (_collectors s) <= MAX_SIZE /\ vsize (_threads s) <= MAX_SIZE.
Proof. intros (Hc & Ht & _). unfold MAX_SIZE, SIZE_BITS. lia. Qed.

Lemma wf_new (reader : option nat) : wf (PStatClientData_new reader).
Proof. repeat split; vm_compute; discriminate. Qed.

Lemma close_fields (s : PStatClientData) :
  _collectors (close s) = _collectors s /\ _threads (close s) = _threads s
  /\ thread_data_heap (close s) = thread_data_heap s.
Proof. unfold close. destruct (_is_alive s), (_reader s); repeat split. Qed.

Lemma close_wf (s : PStatClientData) : wf s -> wf (close s).
Proof.
  destruct (close_fields s) as (Hc & Ht & Hh). unfold wf.
  now rewrite Hc, Ht, Hh.
Qed.

Lemma add_collector_keeps (fuel : nat) (def : PStatCollectorDef.t)
    (s s' : PStatClientData) :
  is_int (PStatCollectorDef._index def) -> wf s ->
  final (add_collector fuel def s) = Some s' ->
  wf s' /\ same_session s s'.
Proof.
  intros Hint Hwf Hfinal.
  destruct (add_collector fuel def s) as [[] s1|[] s1| | |] eqn:Hcall;
    try discriminate; injection Hfinal as <-.
  - apply add_collector_Returns in Hcall as [Hrange ->];
      [|exact Hint|now apply wf_sizes].
    split; [|repeat split].
    destruct Hwf as (Hc & Ht & Hh). split; [|split; assumption].
    simpl. rewrite slots_with_vsize. lia.
  - unfold add_collector, nassert in Hcall.
    destruct (PStatCollectorDef._index def <? 1000).
    + destruct (grow fuel None (_collectors s) _); discriminate.
    + injection Hcall as <-. split; [exact Hwf|repeat split].
Qed.

Lemma define_thread_keeps (fuel : nat) (index : Z) (name : string)
    (s s' : PStatClientData) :
  is_int index -> wf s ->
  final (define_thread fuel index name s) = Some s' ->
  wf s' /\ same_session s s' /\ _collectors s' = _collectors s.
Proof.
  intros Hint Hwf Hfinal.
  destruct (define_thread_final fuel index name s s' Hint
              (proj2 (wf_sizes s Hwf)) Hfinal) as [[_ ->]|[Hrange ->]].
  - split; [exact Hwf|repeat split].
  - split; [now apply defined_thread_wf|].
    destruct (defined_thread_spec index name s ltac:(lia))
      as (_ & _ & _ & _ & Hc & Ha & Hr & Hl).
    repeat split; assumption.
Qed.

Lemma thread_in_range_defined (index : Z) (name : string)
    (s : PStatClientData) :
  0 <= index < 1000 -> wf s ->
  thread_in_range (defined_thread index name s) index = true.
Proof.
  intros Hrange Hwf.
  pose proof (defined_thread_wf index name s Hrange Hwf) as Hwf'.
  destruct (defined_thread_spec index name s ltac:(lia))
    as (_ & _ & Hsize & _).
  unfold thread_in_range.
  rewrite size_t_to_int_small
    by (pose proof (wf_threads_small _ Hwf');
        pose proof (vsize_nonneg (_threads (defined_thread index name s)));
        lia).
  apply andb_true_iff. rewrite Z.leb_le, Z.ltb_lt. lia.
Qed.

Lemma thread_in_range_bound (s : PStatClientData) (index : Z) :
  wf s -> thread_in_range s index = true -> 0 <= index < 1000.
Proof.
  intros (_ & Hsize & _). unfold thread_in_range.
  rewrite andb_true_iff, Z.leb_le, Z.ltb_lt.
  pose proof (size_t_to_int_le _ (vsize_nonneg (_threads s))). lia.
Qed.

Lemma get_thread_data_valid (fuel : nat) (index : Z) (s : PStatClientData) :
  0 <= index < 1000 -> (1000 <= fuel)%nat -> wf s ->
  get_thread_data fuel index s
  = Returns (stored_data (defined_thread index "" s) index)
      (defined_thread index "" s).
Proof.
  intros Hrange Hfuel Hwf. unfold get_thread_data.
  rewrite define_thread_valid
    by (try assumption; pose proof (vsize_nonneg (_threads s)); lia).
  simpl. rewrite thread_in_range_defined by assumption. simpl.
  unfold stored_data.
  destruct (defined_thread_spec index "" s ltac:(lia)) as (Hslot & _).
  now rewrite Hslot.
Qed.

Lemma record_new_frame_valid (fuel : nat) (index frame_number : Z)
    (frame_data : nat) (s : PStatClientData) :
  0 <= index < 1000 -> (1000 <= fuel)%nat -> wf s ->
  record_new_frame fuel index frame_number frame_data s
  = Returns tt (recorded_frame index frame_number frame_data s).
Proof.
  intros Hrange Hfuel Hwf. unfold record_new_frame, recorded_frame.
  rewrite define_thread_valid
    by (try assumption; pose proof (vsize_nonneg (_threads s)); lia).
  simpl. rewrite thread_in_range_defined by assumption. simpl.
  pose proof (defined_thread_wf index "" s Hrange Hwf) as (_ & _ & Hheap).
  unfold stored_data.
  destruct (_threads (defined_thread index "" s) !! Z.to_nat index)
    as [t|] eqn:Hslot.
  - destruct (Thread._data t) as [p|] eqn:Hdata.
    + pose proof (Hheap _ _ _ Hslot Hdata) as Hp.
      destruct (thread_data_heap (defined_thread index "" s) !! p)
        as [store|] eqn:Hstore; [|apply lookup_ge_None in Hstore; lia].
      do 2 f_equal. apply list_eq. intros i. rewrite list_lookup_alter.
      destruct (decide (p = i)) as [<-|Hne].
      * rewrite list_lookup_insert_eq by exact Hp. now rewrite Hstore.
      * now rewrite list_lookup_insert_ne.
    + destruct (defined_thread_spec index "" s ltac:(lia)) as (Hnew & _).
      rewrite Hnew in Hslot. injection Hslot as <-. discriminate.
  - destruct (defined_thread_spec index "" s ltac:(lia)) as (Hnew & _).
    rewrite Hnew in Hslot. discriminate.
Qed.

(** A call of [get_thread_data] or of [record_new_frame] comes back with the
    object [define_thread] has left; [record_new_frame] may have changed the
    heap in it. *)
Lemma get_thread_data_final (fuel : nat) (index : Z) (s s' : PStatClientData) :
  final (get_thread_data fuel index s) = Some s' ->
  final (define_thread fuel index "" s) = Some s'.
Proof.
  unfold get_thread_data, after, nassert.
  destruct (define_thread fuel index "" s) as [[] s1|[] s1| | |];
    try discriminate;
    (destruct (thread_in_range s1 index); [|intros H; exact H]);
    (destruct (_threads s1 !! Z.to_nat index); [|discriminate]);
    intros H; exact H.
Qed.

Lemma record_new_frame_final (fuel : nat) (index frame_number : Z)
    (frame_data : nat) (s s' : PStatClientData) :
  final (record_new_frame fuel index frame_number frame_data s) = Some s' ->
  exists s1 heap,
    final (define_thread fuel index "" s) = Some s1
    /\ s' = set_heap s1 heap
    /\ length heap = length (thread_data_heap s1).
Proof.
  unfold record_new_frame, after, nassert.
  destruct (define_thread fuel index "" s) as [[] s1|[] s1| | |];
    try discriminate;
    (destruct (thread_in_range s1 index);
     [|intros H; injection H as <-; exists s1, (thread_data_heap s1);
       now destruct s1]);
    (destruct (_threads s1 !! Z.to_nat index) as [t|]; [|discriminate]);
    (destruct (Thread._data t) as [p|]; [|discriminate]);
    (destruct (thread_data_heap s1 !! p) as [store|]; [|discriminate]);
    intros H; injection H as <-; eexists s1, _;
    (split; [reflexivity|split; [reflexivity|apply length_insert]]).
Qed.

Lemma set_heap_wf (s : PStatClientData) (heap : list PStatThreadData) :
  length heap = length (thread_data_heap s) -> wf s -> wf (set_heap s heap).
Proof.
  intros Hlen (Hc & Ht & Hh). split; [exact Hc|split; [exact Ht|]].
  simpl. rewrite Hlen. exact Hh.
Qed.

(** Every object a client data can become is well formed, and its session
    is live with its reader or closed after one call of the reader's
    [close()]. *)
Lemma reachable_inv (s : PStatClientData) :
  reachable s -> wf s /\ session_inv s.
Proof.
  induction 1 as [r|s Hs [Hwf Hinv]|fuel def s s' Hs [Hwf Hinv] Hint Hfinal
                  |fuel index name s s' Hs [Hwf Hinv] Hint Hfinal
                  |fuel index s s' Hs [Hwf Hinv] Hint Hfinal
                  |fuel index fn fd s s' Hs [Hwf Hinv] Hint Hfinal].
  - split; [apply wf_new|]. left. simpl. eauto.
  - split; [now apply close_wf|]. unfold session_inv, close.
    destruct Hinv as [(Ha & [r Hr] & Hcalls)|(Ha & Hr & Hcalls)];
      rewrite Ha, ?Hr; right; simpl.
    + rewrite Hcalls. eauto.
    + auto.
  - destruct (add_collector_keeps fuel def s s' Hint Hwf Hfinal)
      as (Hwf' & Ha & Hr & Hl).
    split; [exact Hwf'|]. unfold session_inv. now rewrite Ha, Hr, Hl.
  - destruct (define_thread_keeps fuel index name s s' Hint Hwf Hfinal)
      as (Hwf' & (Ha & Hr & Hl) & _).
    split; [exact Hwf'|]. unfold session_inv. now rewrite Ha, Hr, Hl.
  - apply get_thread_data_final in Hfinal.
    destruct (define_thread_keeps fuel index "" s s' Hint Hwf Hfinal)
      as (Hwf' & (Ha & Hr & Hl) & _).
    split; [exact Hwf'|]. unfold session_inv. now rewrite Ha, Hr, Hl.
  - apply record_new_frame_final in Hfinal
      as (s1 & heap & Hfinal & -> & Hlen).
    destruct (define_thread_keeps fuel index "" s s1 Hint Hwf Hfinal)
      as (Hwf' & (Ha & Hr & Hl) & _).
    split; [now apply set_heap_wf|].
    unfold session_inv. simpl. now rewrite Ha, Hr, Hl.
Qed.

(** ** Closing the session *)

Lemma close_again (s : PStatClientData) : close (close s) = close s.
Proof. destruct s as [[] [r|] c t h l]; reflexivity. Qed.

Lemma close_iter (n : nat) (s : PStatClientData) :
  Nat.iter n close (close s) = close s.
Proof.
  induction n as [|n IH]; simpl; [reflexivity|].
  rewrite IH. apply close_again.
Qed.

Lemma close_session_inv (s : PStatClientData) :
  session_inv s ->
  _is_alive (close s) = false /\ _reader (close s) = None
  /\ exists r : nat, reader_closed (close s) = [r].
Proof.
  destruct s as [a r c t h l]. unfold session_inv, close. simpl.
  intros [(-> & [r' ->] & ->)|(-> & -> & Hcalls)]; simpl; eauto.
Qed.

(** Every call other than [close()] leaves the liveness flag, the reader and
    the calls made on readers as they were. *)
Lemma step_same_session (s s' : PStatClientData) :
  wf s -> step s s' -> s' = close s \/ same_session s s'.
Proof.
  intros Hwf Hstep.
  destruct Hstep as [|fuel def s' Hint Hfinal|fuel index name s' Hint Hfinal
                     |fuel index s' Hint Hfinal
                     |fuel index fn fd s' Hint Hfinal].
  - now left.
  - right. now destruct (add_collector_keeps fuel def s s' Hint Hwf Hfinal).
  - right.
    now destruct (define_thread_keeps fuel index name s s' Hint Hwf Hfinal)
      as (_ & Hsame & _).
  - right. apply get_thread_data_final in Hfinal.
    now destruct (define_thread_keeps fuel index "" s s' Hint Hwf Hfinal)
      as (_ & Hsame & _).
  - right. apply record_new_frame_final in Hfinal
      as (s1 & heap & Hfinal & -> & _).
    now destruct (define_thread_keeps fuel index "" s s1 Hint Hwf Hfinal)
      as (_ & Hsame & _).
Qed.

Lemma step_wf (s s' : PStatClientData) : wf s -> step s s' -> wf s'.
Proof.
  intros Hwf Hstep.
  destruct Hstep as [|fuel def s' Hint Hfinal|fuel index name s' Hint Hfinal
                     |fuel index s' Hint Hfinal
                     |fuel index fn fd s' Hint Hfinal].
  - now apply close_wf.
  - now destruct (add_collector_keeps fuel def s s' Hint Hwf Hfinal).
  - now destruct (define_thread_keeps fuel index name s s' Hint Hwf Hfinal).
  - apply get_thread_data_final in Hfinal.
    now destruct (define_thread_keeps fuel index "" s s' Hint Hwf Hfinal).
  - apply record_new_frame_final in Hfinal
      as (s1 & heap & Hfinal & -> & Hlen).
    apply set_heap_wf; [exact Hlen|].
    now destruct (define_thread_keeps fuel index "" s s1 Hint Hwf Hfinal).
Qed.

Lemma close_session_of (reader : option nat) (s : PStatClientData) :
  session_of reader s -> session_of reader (close s).
Proof.
  destruct s as [a r c t h l]. unfold session_of, close. simpl.
  intros [(-> & -> & ->)|(r' & -> & -> & -> & ->)].
  - destruct reader as [r'|]; simpl; [right; eauto|left; auto].
  - right. eauto.
Qed.

(** After any calls on a client data made for [reader], the session is the
    one of that reader. *)
Lemma steps_session_of (reader : option nat) (s : PStatClientData) :
  rtc step (PStatClientData_new reader) s -> wf s /\ session_of reader s.
Proof.
  intros Hsteps.
  apply (rtc_ind_r (R := step) (fun s => wf s /\ session_of reader s)
           (PStatClientData_new reader)); [| |exact Hsteps].
  - split; [apply wf_new|]. left. repeat split.
  - clear s Hsteps. intros s1 s2 _ Hstep [Hwf Hinv].
    split; [exact (step_wf s1 s2 Hwf Hstep)|].
    destruct (step_same_session s1 s2 Hwf Hstep) as [->|(Ha & Hr & Hl)].
    + now apply close_session_of.
    + unfold session_of. now rewrite Ha, Hr, Hl.
Qed.

(** C7.  A second call of [close()], and any call after it, changes
    nothing: the object is the one the first call has left.  A call of
    [close()] on a live session that holds a reader calls [close()] on that
    very reader, once, and leaves the session not alive and without reader;
    a call on any other object does nothing at all.  So, after any calls on
    a client data made for a reader, the session once closed is not alive,
    has no reader, and [close()] has been called on the reader it was made
    for and on no other, exactly once in all, however many calls of
    [close()] follow.  A client data made with a NULL reader has nothing to
    release: [close()] does nothing on it, and it stays alive. *)
Theorem close_idempotent (s : PStatClientData) :
  close (close s) = close s
  /\ (forall n : nat, Nat.iter n close (close s) = close s)
  /\ (length (reader_closed (close s)) <= S (length (reader_closed s)))%nat
  /\ (forall r : nat,
        is_alive s = true -> _reader s = Some r ->
        is_alive (close s) = false
        /\ _reader (close s) = None
        /\ forall n : nat,
             reader_closed (Nat.iter n close (close s))
             = r :: reader_closed s)
  /\ (is_alive s = false \/ _reader s = None -> close s = s)
  /\ (forall r : nat,
        rtc step (PStatClientData_new (Some r)) s ->
        is_alive (close s) = false
        /\ _reader (close s) = None
        /\ forall n : nat,
             reader_closed (Nat.iter n close (close s)) = [r])
  /\ (rtc step (PStatClientData_new None) s ->
      close s = s /\ is_alive s = true /\ _reader s = None
      /\ reader_closed s = []).
Proof.
  split; [apply close_again|split; [intros n; apply close_iter|]].
  split; [|split; [|split; [|split]]].
  - unfold close. destruct (_is_alive s), (_reader s); simpl; lia.
  - intros r Ha Hr. unfold is_alive in *.
    assert (Hclose : close s
                     = {| _is_alive := false; _reader := None;
                          _collectors := _collectors s;
                          _threads := _threads s;
                          thread_data_heap := thread_data_heap s;
                          reader_closed := r :: reader_closed s |})
      by (unfold close; now rewrite Ha, Hr).
    split; [now rewrite Hclose|split; [now rewrite Hclose|]].
    intros n. rewrite close_iter. now rewrite Hclose.
  - unfold is_alive, close. intros [->| ->]; [reflexivity|].
    now destruct (_is_alive s).
  - intros r Hsteps.
    destruct (steps_session_of (Some r) s Hsteps)
      as [_ [(Ha & Hr & Hl)|(r' & Heq & Ha & Hr & Hl)]].
    + assert (Hclose : close s
                       = {| _is_alive := false; _reader := None;
                            _collectors := _collectors s;
                            _threads := _threads s;
                            thread_data_heap := thread_data_heap s;
                            reader_closed := r :: reader_closed s |})
        by (unfold close; now rewrite Ha, Hr).
      split; [now rewrite Hclose|split; [now rewrite Hclose|]].
      intros n. rewrite close_iter, Hclose. simpl. now rewrite Hl.
    + injection Heq as <-.
      assert (Hclose : close s = s) by (unfold close; now rewrite Ha).
      rewrite Hclose. unfold is_alive.
      split; [exact Ha|split; [exact Hr|]].
      intros n. now rewrite <- Hclose at 1; rewrite close_iter, Hclose.
  - intros Hsteps.
    destruct (steps_session_of None s Hsteps)
      as [_ [(Ha & Hr & Hl)|(r' & Heq & _)]]; [|discriminate].
    unfold is_alive, close. rewrite Ha, Hr. auto.
Qed.

(** A session made for reader 7, with a thread defined, closed any
    number of times: not alive, no reader, and one call of [close()], on
    reader 7. *)
Lemma close_idempotent_witness :
  is_alive
    (close (defined_thread 0 "Main" (PStatClientData_new (Some 7%nat))))
  = false
  /\ _reader
       (close (defined_thread 0 "Main" (PStatClientData_new (Some 7%nat))))
     = None
  /\ forall n : nat,
       reader_closed
         (Nat.iter n close
            (close
               (defined_thread 0 "Main" (PStatClientData_new (Some 7%nat)))))
       = [7%nat].
Proof.
  destruct (close_idempotent
              (defined_thread 0 "Main" (PStatClientData_new (Some 7%nat))))
    as (_ & _ & _ & _ & _ & Hmade & _).
  apply Hmade. apply rtc_once.
  apply (step_define_thread _ 1000 0 "Main");
    [unfold is_int; simpl; lia|reflexivity].
Defined.

(** ** What [close()] keeps *)

Lemma has_collector_ext (s s' : PStatClientData) (index : Z) :
  _collectors s' = _collectors s ->
  has_collector s' index = has_collector s index.
Proof. unfold has_collector. now intros ->. Qed.

Lemma get_collector_def_ext (null_parent_index : Z) (s s' : PStatClientData)
    (index : Z) :
  _collectors s' = _collectors s ->
  get_collector_def null_parent_index s' index
  = get_collector_def null_parent_index s index.
Proof.
  intros Heq. unfold get_collector_def.
  now rewrite (has_collector_ext s s' index Heq), Heq.
Qed.

Lemma get_collector_fullname_ext (s s' : PStatClientData) (fuel : nat) :
  _collectors s' = _collectors s ->
  forall index : Z,
    get_collector_fullname fuel s' index = get_collector_fullname fuel s index.
Proof.
  intros Heq. induction fuel as [|fuel IH]; intros index; simpl;
    [reflexivity|].
  rewrite (has_collector_ext s s' index Heq), Heq.
  destruct (has_collector s index); simpl; [|reflexivity].
  destruct (_collectors s !! Z.to_nat index) as [[def|]|]; try reflexivity.
  now rewrite IH.
Qed.

Lemma get_child_distance_ext (null_parent_index : Z) (s s' : PStatClientData)
    (fuel : nat) :
  _collectors s' = _collectors s ->
  forall parent child : Z,
    get_child_distance null_parent_index fuel s' parent child
    = get_child_distance null_parent_index fuel s parent child.
Proof.
  intros Heq. induction fuel as [|fuel IH]; intros parent child; simpl;
    [reflexivity|].
  rewrite (has_collector_ext s s' child Heq),
    (get_collector_def_ext null_parent_index s s' child Heq).
  now rewrite IH.
Qed.

Lemma add_collector_close (fuel : nat) (def : PStatCollectorDef.t)
    (s : PStatClientData) :
  add_collector fuel def (close s) = map_result close (add_collector fuel def s).
Proof.
  unfold add_collector, nassert.
  destruct (close_fields s) as (-> & _).
  destruct (PStatCollectorDef._index def <? 1000); [|reflexivity].
  destruct (grow fuel None (_collectors s) _); try reflexivity.
  simpl. f_equal. now destruct s as [[] [r|] c t h l].
Qed.

Lemma define_thread_close (fuel : nat) (index : Z) (name : string)
    (s : PStatClientData) :
  define_thread fuel index name (close s)
  = map_result close (define_thread fuel index name s).
Proof.
  unfold define_thread, nassert.
  destruct (close_fields s) as (_ & -> & ->).
  destruct (index <? 1000); [|reflexivity].
  destruct (grow fuel Thread.new (_threads s) index) as [v| |];
    try reflexivity.
  destruct (v !! Z.to_nat (int_to_size_t index)) as [t|]; [|reflexivity].
  destruct (define_slot name t (thread_data_heap s)) as [t' heap'].
  simpl. f_equal. now destruct s as [[] [r|] c ts h l].
Qed.

(** C8.  [close()] changes the liveness flag, the reader and nothing else:
    the collector table, the thread table and the frame stores are the same
    after it, and so is the result of every query.  The methods that change
    the object do not look at the liveness flag: on a closed session
    [add_collector] and [define_thread] do what they do on the session
    before it was closed. *)
Theorem close_keeps_tables (null_parent_index : Z) (s : PStatClientData) :
  _collectors (close s) = _collectors s
  /\ _threads (close s) = _threads s
  /\ thread_data_heap (close s) = thread_data_heap s
  /\ (forall index : Z,
        has_collector (close s) index = has_collector s index
        /\ get_collector_def null_parent_index (close s) index
           = get_collector_def null_parent_index s index
        /\ get_collector_name (close s) index = get_collector_name s index
        /\ has_thread (close s) index = has_thread s index
        /\ get_thread_name (close s) index = get_thread_name s index)
  /\ (forall (fuel : nat) (index : Z),
        get_collector_fullname fuel (close s) index
        = get_collector_fullname fuel s index)
  /\ (forall (fuel : nat) (parent child : Z),
        get_child_distance null_parent_index fuel (close s) parent child
        = get_child_distance null_parent_index fuel s parent child)
  /\ (forall (fuel : nat) (def : PStatCollectorDef.t),
        add_collector fuel def (close s)
        = map_result close (add_collector fuel def s))
  /\ (forall (fuel : nat) (index : Z) (name : string),
        define_thread fuel index name (close s)
        = map_result close (define_thread fuel index name s)).
Proof.
  destruct (close_fields s) as (Hc & Ht & Hh).
  split; [exact Hc|split; [exact Ht|split; [exact Hh|]]].
  split; [|split; [|split; [|split]]].
  - intros index.
    split; [now apply has_collector_ext|].
    split; [now apply get_collector_def_ext|].
    unfold get_collector_name, has_thread, get_thread_name, has_thread.
    now rewrite (has_collector_ext s (close s) index Hc), Hc, Ht.
  - intros fuel. now apply get_collector_fullname_ext.
  - intros fuel. now apply get_child_distance_ext.
  - intros fuel def. apply add_collector_close.
  - intros fuel index name. apply define_thread_close.
Qed.

(** A session that was closed takes a collector and a thread all the same:
    the definition of index 0 is stored, and thread 0 is named. *)
Lemma closed_session_is_changed :
  is_alive (close (PStatClientData_new (Some 7%nat))) = false
  /\ has_collector (close (PStatClientData_new (Some 7%nat))) 0 = false
  /\ add_collector 1 (PStatCollectorDef.Build 0 "Frame" 0)
       (close (PStatClientData_new (Some 7%nat)))
     = Returns tt
         (set_collectors (close (PStatClientData_new (Some 7%nat)))
            [Some (PStatCollectorDef.Build 0 "Frame" 0)])
  /\ has_collector
       (set_collectors (close (PStatClientData_new (Some 7%nat)))
          [Some (PStatCollectorDef.Build 0 "Frame" 0)]) 0 = true
  /\ has_thread (close (PStatClientData_new (Some 7%nat))) 0 = false
  /\ define_thread 1 0 "Main" (close (PStatClientData_new (Some 7%nat)))
     = Returns tt
         (defined_thread 0 "Main" (close (PStatClientData_new (Some 7%nat))))
  /\ has_thread
       (defined_thread 0 "Main" (close (PStatClientData_new (Some 7%nat))))
       0 = true.
Proof. repeat split. Qed.

(** ** Threads without a name *)

Lemma materialized_defined (index : Z) (s : PStatClientData) :
  0 <= index < 1000 -> wf s -> has_thread s index = false ->
  materialized_unnamed (defined_thread index "" s) index.
Proof.
  intros Hrange Hwf Hunnamed.
  pose proof (defined_thread_wf index "" s Hrange Hwf) as Hwf'.
  destruct (defined_thread_stored index "" s ltac:(lia)) as [Hname Hdata].
  destruct (defined_thread_spec index "" s ltac:(lia)) as (Hslot & _).
  rewrite has_thread_stored in Hunnamed
    by (try (now apply wf_threads_small); lia).
  apply negb_false_iff in Hunnamed. simpl in Hname.
  split; [|split].
  - rewrite has_thread_stored by (try (now apply wf_threads_small); lia).
    now rewrite Hname, Hunnamed.
  - rewrite get_thread_name_stored
      by (try (now apply wf_threads_small); lia).
    now rewrite Hname, Hunnamed.
  - eexists _, _. split; [exact Hslot|split; [reflexivity|]].
    apply lookup_lt_is_Some_2.
    destruct Hwf' as (_ & _ & Hheap). exact (Hheap _ _ _ Hslot eq_refl).
Qed.

Lemma materialized_set_heap (s : PStatClientData) (index : Z) (p : nat)
    (f : PStatThreadData -> PStatThreadData) :
  materialized_unnamed s index ->
  materialized_unnamed (set_heap s (alter f p (thread_data_heap s))) index.
Proof.
  intros (Hhas & Hname & t & q & Hslot & Hdata & Hstore).
  split; [exact Hhas|split; [exact Hname|]].
  exists t, q. split; [exact Hslot|split; [exact Hdata|]]. simpl.
  apply lookup_lt_is_Some. rewrite length_alter.
  now apply lookup_lt_is_Some.
Qed.

Lemma define_thread_Returns_any (fuel : nat) (index : Z) (name : string)
    (s s' : PStatClientData) :
  is_int index -> wf s ->
  define_thread fuel index name s = Returns tt s' ->
  0 <= index < 1000 /\ s' = defined_thread index name s.
Proof.
  intros Hint Hwf Hret.
  destruct (define_thread_final fuel index name s s' Hint
              (proj2 (wf_sizes s Hwf)) ltac:(now rewrite Hret))
    as [[Hbig _]|Hvalid]; [|exact Hvalid].
  rewrite define_thread_rejected in Hret by exact Hbig. discriminate.
Qed.

(** After [define_thread] with the default name, the check of the index
    holds only for a thread that was then defined. *)
Lemma define_thread_then_in_range (fuel : nat) (index : Z)
    (s s1 : PStatClientData) :
  is_int index -> wf s ->
  final (define_thread fuel index "" s) = Some s1 ->
  thread_in_range s1 index = true ->
  0 <= index < 1000 /\ s1 = defined_thread index "" s.
Proof.
  intros Hint Hwf Hfinal Hcheck.
  destruct (define_thread_final fuel index "" s s1 Hint
              (proj2 (wf_sizes s Hwf)) Hfinal)
    as [[Hbig ->]|Hvalid]; [|exact Hvalid].
  apply thread_in_range_bound in Hcheck; [lia|exact Hwf].
Qed.

Lemma get_thread_data_Returns (fuel : nat) (index : Z) (p : option nat)
    (s s' : PStatClientData) :
  is_int index -> wf s ->
  get_thread_data fuel index s = Returns p s' ->
  0 <= index < 1000 /\ s' = defined_thread index "" s
  /\ p = stored_data s' index.
Proof.
  intros Hint Hwf. unfold get_thread_data, after, nassert.
  destruct (define_thread fuel index "" s) as [[] s1|[] s1| | |] eqn:Hcall;
    try discriminate;
    (destruct (thread_in_range s1 index) eqn:Hcheck; [|discriminate]);
    (destruct (define_thread_then_in_range fuel index s s1 Hint Hwf
                 ltac:(now rewrite Hcall) Hcheck) as [Hrange Hs1]);
    unfold stored_data;
    (destruct (_threads s1 !! Z.to_nat index) as [t|] eqn:Hslot;
     [|discriminate]);
    intros Hret; injection Hret as <- <-; rewrite Hslot; auto.
Qed.

Lemma record_new_frame_Returns (fuel : nat) (index frame_number : Z)
    (frame_data : nat) (s s' : PStatClientData) :
  is_int index -> wf s ->
  record_new_frame fuel index frame_number frame_data s = Returns tt s' ->
  0 <= index < 1000 /\ s' = recorded_frame index frame_number frame_data s.
Proof.
  intros Hint Hwf Hret.
  assert (Hrange : 0 <= index < 1000).
  { revert Hret. unfold record_new_frame, after, nassert.
    destruct (define_thread fuel index "" s) as [[] s1|[] s1| | |] eqn:Hcall;
      try discriminate;
      (destruct (thread_in_range s1 index) eqn:Hcheck; [|discriminate]);
      intros _;
      apply (define_thread_then_in_range fuel index s s1 Hint Hwf
               ltac:(now rewrite Hcall) Hcheck). }
  split; [exact Hrange|].
  destruct (Nat.le_gt_cases 1000 fuel) as [Hfuel|Hfuel].
  - rewrite record_new_frame_valid in Hret by assumption. congruence.
  - destruct (Z.le_gt_cases (index + 1 - vsize (_threads s)) (Z.of_nat fuel))
      as [Hle|Hgt].
    + pose proof (record_new_frame_valid 1000 index frame_number frame_data s
                    Hrange (Nat.le_refl _) Hwf) as Hlong.
      unfold record_new_frame in Hret, Hlong.
      rewrite define_thread_valid in Hret by assumption.
      rewrite define_thread_valid in Hlong
        by (try assumption; pose proof (vsize_nonneg (_threads s)); lia).
      congruence.
    + exfalso. revert Hret. unfold record_new_frame, after, define_thread, nassert.
      destruct (Z.ltb_spec index 1000); [|lia].
      destruct (grow fuel Thread.new (_threads s) index) as [v| |] eqn:Hgrow;
        try discriminate.
      apply grow_Grown in Hgrow as (_ & Hsteps & _).
      rewrite int_to_size_t_small in Hsteps by (unfold SIZE_BITS; lia). lia.
Qed.

Lemma materialized_recorded (index frame_number : Z) (frame_data : nat)
    (s : PStatClientData) :
  0 <= index < 1000 -> wf s -> has_thread s index = false ->
  materialized_unnamed (recorded_frame index frame_number frame_data s) index.
Proof.
  intros Hrange Hwf Hunnamed. unfold recorded_frame.
  pose proof (materialized_defined index s Hrange Hwf Hunnamed) as Hdefined.
  destruct (stored_data (defined_thread index "" s) index);
    [now apply materialized_set_heap|exact Hdefined].
Qed.

Lemma has_thread_iff (s : PStatClientData) (index : Z) :
  wf s ->
  has_thread s index = true
  <-> 0 <= index /\ empty (stored_name s index) = false.
Proof.
  intros Hwf. destruct (Z.lt_ge_cases index 0) as [Hneg|Hpos].
  - rewrite has_thread_negative by exact Hneg. split; [discriminate|lia].
  - rewrite has_thread_stored by (try (now apply wf_threads_small); lia).
    rewrite negb_true_iff. intuition.
Qed.

(** C10.  Take a thread that has no name.  When [define_thread] with the
    empty name, [get_thread_data] or [record_new_frame] returns for its
    index, which each does for an index from 0 to 999, the thread has its
    slot and its frame store, and still [has_thread] is false and
    [get_thread_name] gives "Unknown".  [has_thread] holds exactly for the
    threads that store a name that is not empty, and [define_thread] with
    such a name makes it hold. *)
Theorem unnamed_thread_is_unknown (fuel : nat) (index : Z)
    (s : PStatClientData) :
  is_int index -> wf s -> has_thread s index = false ->
  (forall s',
     define_thread fuel index "" s = Returns tt s' ->
     materialized_unnamed s' index)
  /\ (forall p s',
        get_thread_data fuel index s = Returns p s' ->
        materialized_unnamed s' index /\ p = stored_data s' index)
  /\ (forall frame_number frame_data s',
        record_new_frame fuel index frame_number frame_data s
        = Returns tt s' ->
        materialized_unnamed s' index)
  /\ (0 <= index < 1000 -> (1000 <= fuel)%nat ->
      define_thread fuel index "" s
      = Returns tt (defined_thread index "" s)
      /\ get_thread_data fuel index s
         = Returns (stored_data (defined_thread index "" s) index)
             (defined_thread index "" s)
      /\ forall frame_number frame_data,
           record_new_frame fuel index frame_number frame_data s
           = Returns tt (recorded_frame index frame_number frame_data s))
  /\ (has_thread s index = true
      <-> 0 <= index /\ empty (stored_name s index) = false)
  /\ (forall name s',
        empty name = false ->
        define_thread fuel index name s = Returns tt s' ->
        has_thread s' index = true /\ get_thread_name s' index = name).
Proof.
  intros Hint Hwf Hunnamed.
  split; [|split; [|split; [|split; [|split]]]].
  - intros s' Hret.
    apply (define_thread_Returns_any fuel index "" s s' Hint Hwf) in Hret
      as [Hrange ->].
    now apply materialized_defined.
  - intros p s' Hret.
    apply (get_thread_data_Returns fuel index p s s' Hint Hwf) in Hret
      as (Hrange & -> & ->).
    split; [now apply materialized_defined|reflexivity].
  - intros frame_number frame_data s' Hret.
    apply (record_new_frame_Returns fuel index _ _ s s' Hint Hwf) in Hret
      as [Hrange ->].
    now apply materialized_recorded.
  - intros Hrange Hfuel. split; [|split].
    + apply define_thread_valid; [exact Hrange|].
      pose proof (vsize_nonneg (_threads s)). lia.
    + now apply get_thread_data_valid.
    + intros frame_number frame_data. now apply record_new_frame_valid.
  - now apply has_thread_iff.
  - intros name s' Hname Hret.
    apply (define_thread_Returns_any fuel index name s s' Hint Hwf) in Hret
      as [Hrange ->].
    pose proof (defined_thread_wf index name s Hrange Hwf) as Hwf'.
    destruct (defined_thread_stored index name s ltac:(lia)) as [Hstored _].
    rewrite Hname in Hstored.
    rewrite has_thread_stored, get_thread_name_stored
      by (try (now apply wf_threads_small); lia).
    now rewrite Hstored, Hname.
Qed.

(** On a new object, [get_thread_data(2)] gives the frame store at address
    0, and the thread 2 it has made has no name. *)
Lemma unnamed_thread_is_unknown_witness :
  get_thread_data 1000 2 (PStatClientData_new (Some 7%nat))
  = Returns (Some 0%nat) (defined_thread 2 "" (PStatClientData_new (Some 7%nat)))
  /\ materialized_unnamed
       (defined_thread 2 "" (PStatClientData_new (Some 7%nat))) 2.
Proof.
  destruct (unnamed_thread_is_unknown 1000 2 (PStatClientData_new (Some 7%nat))
              ltac:(unfold is_int; simpl; lia) (wf_new _) eq_refl)
    as (_ & Hget & _ & Hreturns & _).
  destruct (Hreturns ltac:(lia) ltac:(lia)) as (_ & Hcall & _).
  split; [exact Hcall|].
  exact (proj1 (Hget _ _ Hcall)).
Defined.

(** ** The frame rate *)

(** C9.  [get_frame_rate(window)] is the count of the qualifying frames less
    one, over the latest less the earliest of their timestamps, where a
    retained frame qualifies when its timestamp is within [window] seconds of
    [get_latest_time]; it is 0 when fewer than two frames qualify and when
    the span of their timestamps is zero.  Over the frames of timestamps 0,
    0.5, 1 and 1.5 and a window of 3 seconds it is 2. *)
Theorem get_frame_rate_spec (st : FrameStore.t) (window : Q) :
  (forall time : Q,
     In time (FrameStore.qualifying st window)
     <-> In time (FrameStore.retained st)
         /\ exists now : Q,
              FrameStore.get_latest_time st = Some now
              /\ (Qabs (now - time) <= window)%Q)
  /\ ((length (FrameStore.qualifying st window) < 2)%nat ->
      FrameStore.get_frame_rate st window = 0%Q)
  /\ ((FrameStore.latest (FrameStore.qualifying st window)
       - FrameStore.earliest (FrameStore.qualifying st window) == 0)%Q ->
      FrameStore.get_frame_rate st window = 0%Q)
  /\ ((2 <= length (FrameStore.qualifying st window))%nat ->
      ~ (FrameStore.latest (FrameStore.qualifying st window)
         - FrameStore.earliest (FrameStore.qualifying st window) == 0)%Q ->
      FrameStore.get_frame_rate st window
      = ((inject_Z (Z.of_nat (length (FrameStore.qualifying st window))) - 1)
         / (FrameStore.latest (FrameStore.qualifying st window)
            - FrameStore.earliest (FrameStore.qualifying st window)))%Q)
  /\ (FrameStore.get_frame_rate
        (FrameStore.Build [Some 0%Q; Some (1 # 2)%Q; Some 1%Q; Some (3 # 2)%Q]
           0 60%Q) 3%Q == 2)%Q
  /\ FrameStore.get_frame_rate (FrameStore.Build [Some 5%Q; None] 0 60%Q) 3%Q
     = 0%Q.
Proof.
  split; [|split; [|split; [|split; [|split]]]].
  - intros time. unfold FrameStore.qualifying.
    destruct (FrameStore.get_latest_time st) as [now|].
    + rewrite filter_In, Qle_bool_iff. split.
      * intros [Hin Hle]. eauto.
      * intros [Hin (now' & Heq & Hle)]. injection Heq as <-. auto.
    + simpl. split; [contradiction|]. intros [_ (now & Heq & _)].
      discriminate.
  - intros Hfew. unfold FrameStore.get_frame_rate.
    destruct (Nat.ltb_spec (length (FrameStore.qualifying st window)) 2);
      [reflexivity|lia].
  - intros Hspan. unfold FrameStore.get_frame_rate.
    destruct (length (FrameStore.qualifying st window) <? 2)%nat;
      [reflexivity|].
    apply Qeq_bool_iff in Hspan. now rewrite Hspan.
  - intros Hmany Hspan. unfold FrameStore.get_frame_rate.
    destruct (Nat.ltb_spec (length (FrameStore.qualifying st window)) 2);
      [lia|].
    destruct (Qeq_bool _ 0) eqn:Hzero; [|reflexivity].
    apply Qeq_bool_iff in Hzero. contradiction.
  - vm_compute. reflexivity.
  - reflexivity.
Qed.

(** Two frames half a second apart qualify for a window of 3 seconds: the
    rate is 1 over 1/2. *)
Lemma get_frame_rate_spec_witness :
  FrameStore.get_frame_rate
    (FrameStore.Build [Some 1%Q; None; Some (3 # 2)%Q] 4 60%Q) 3%Q
  = ((inject_Z 2 - 1) / ((3 # 2) - 1))%Q.
Proof.
  destruct (get_frame_rate_spec
              (FrameStore.Build [Some 1%Q; None; Some (3 # 2)%Q] 4 60%Q) 3%Q)
    as (_ & _ & _ & Hrate & _).
  apply Hrate; [vm_compute; lia|vm_compute; discriminate].
Defined.

(** * Further properties *)

(** ** Adding collectors *)

Lemma has_collector_small (s : PStatClientData) (index : Z) :
  vsize (_collectors s) < 2 ^ 31 -> 0 <= index ->
  has_collector s index
  = match _collectors s !! Z.to_nat index with
    | Some (Some _) => true
    | _ => false
    end.
Proof.
  intros Hsize Hindex.
  destruct (_collectors s !! Z.to_nat index) as [[def|]|] eqn:Hslot.
  - now apply (has_collector_stored s index def).
  - apply has_collector_false. auto.
  - apply has_collector_false. right. left.
    apply lookup_ge_None in Hslot. unfold vsize. lia.
Qed.

Lemma has_collector_negative (s : PStatClientData) (index : Z) :
  index < 0 -> has_collector s index = false.
Proof. intros Hneg. apply has_collector_false. now left. Qed.

Lemma wf_collectors_small (s : PStatClientData) :
  wf s -> vsize (_collectors s) < 2 ^ 31.
Proof. intros (Hc & _). lia. Qed.

Lemma set_collectors_wf (s : PStatClientData)
    (v : list (option PStatCollectorDef.t)) :
  vsize v <= 1000 -> wf s -> wf (set_collectors s v).
Proof. intros Hsize (_ & Ht & Hh). split; [exact Hsize|split; assumption]. Qed.

Lemma slots_with_wf (def : PStatCollectorDef.t) (s : PStatClientData) :
  0 <= PStatCollectorDef._index def < 1000 -> wf s ->
  wf (set_collectors s (slots_with def (_collectors s))).
Proof.
  intros Hrange Hwf. apply set_collectors_wf; [|exact Hwf].
  rewrite slots_with_vsize. destruct Hwf as (Hc & _). lia.
Qed.

(** The lookups of the other indices see the same thing in the slots
    [add_collector] leaves. *)
Lemma slots_with_other (def : PStatCollectorDef.t)
    (v : list (option PStatCollectorDef.t)) (j : nat) :
  j <> Z.to_nat (PStatCollectorDef._index def) ->
  mjoin (slots_with def v !! j) = mjoin (v !! j).
Proof.
  intros Hne. rewrite slots_with_lookup_ne by exact Hne.
  destruct (v !! j); [reflexivity|]. now case_decide.
Qed.

Lemma has_collector_join (s : PStatClientData) (index : Z) :
  vsize (_collectors s) < 2 ^ 31 -> 0 <= index ->
  has_collector s index
  = bool_decide (is_Some (mjoin (_collectors s !! Z.to_nat index))).
Proof.
  intros Hsize Hindex. rewrite has_collector_small by assumption.
  now destruct (_collectors s !! Z.to_nat index) as [[def|]|].
Qed.

Lemma get_collector_def_join (null_parent_index : Z) (s : PStatClientData)
    (index : Z) :
  vsize (_collectors s) < 2 ^ 31 -> 0 <= index ->
  get_collector_def null_parent_index s index
  = default (_null_collector null_parent_index)
      (mjoin (_collectors s !! Z.to_nat index)).
Proof.
  intros Hsize Hindex. unfold get_collector_def.
  rewrite has_collector_small by assumption.
  now destruct (_collectors s !! Z.to_nat index) as [[def|]|].
Qed.

Lemma get_collector_name_join (s : PStatClientData) (index : Z) :
  vsize (_collectors s) < 2 ^ 31 -> 0 <= index ->
  get_collector_name s index
  = default "Unknown"
      (PStatCollectorDef._name <$> mjoin (_collectors s !! Z.to_nat index)).
Proof.
  intros Hsize Hindex. unfold get_collector_name.
  rewrite has_collector_small by assumption.
  now destruct (_collectors s !! Z.to_nat index) as [[def|]|].
Qed.

(** X1.  After [add_collector] of a definition of index from 0 to 999, the
    lookups of that index find the definition, and the lookups of every
    other index give what they gave before. *)
Theorem add_collector_then_lookup (null_parent_index : Z) (fuel : nat)
    (def : PStatCollectorDef.t) (s : PStatClientData) :
  wf s -> 0 <= PStatCollectorDef._index def < 1000 -> (1000 <= fuel)%nat ->
  exists s',
    add_collector fuel def s = Returns tt s'
    /\ has_collector s' (PStatCollectorDef._index def) = true
    /\ get_collector_def null_parent_index s' (PStatCollectorDef._index def)
       = def
    /\ get_collector_name s' (PStatCollectorDef._index def)
       = PStatCollectorDef._name def
    /\ forall j : Z,
         j <> PStatCollectorDef._index def ->
         has_collector s' j = has_collector s j
         /\ get_collector_def null_parent_index s' j
            = get_collector_def null_parent_index s j
         /\ get_collector_name s' j = get_collector_name s j.
Proof.
  intros Hwf Hrange Hfuel.
  exists (set_collectors s (slots_with def (_collectors s))).
  pose proof (slots_with_wf def s Hrange Hwf) as Hwf'.
  pose proof (wf_collectors_small _ Hwf) as Hsmall.
  pose proof (wf_collectors_small _ Hwf') as Hsmall'.
  assert (Hslot : _collectors (set_collectors s (slots_with def (_collectors s)))
                  !! Z.to_nat (PStatCollectorDef._index def)
                  = Some (Some def))
    by (apply slots_with_lookup; lia).
  split; [|split; [|split; [|split]]].
  - apply add_collector_stores; [exact Hrange|].
    pose proof (vsize_nonneg (_collectors s)). lia.
  - rewrite has_collector_small by (assumption || lia). now rewrite Hslot.
  - rewrite get_collector_def_join by (assumption || lia). now rewrite Hslot.
  - rewrite get_collector_name_join by (assumption || lia). now rewrite Hslot.
  - intros j Hne. destruct (Z.lt_ge_cases j 0) as [Hneg|Hpos].
    + unfold get_collector_def, get_collector_name.
      now rewrite !has_collector_negative by exact Hneg.
    + rewrite !has_collector_join, !get_collector_def_join,
        !get_collector_name_join by (assumption || lia).
      simpl. rewrite slots_with_other by lia. auto.
Qed.

(** A definition of index 5 added to a new object is found, and index 3,
    whose slot the loop has appended, is still undefined. *)
Lemma add_collector_then_lookup_witness :
  exists s',
    add_collector 1000 (PStatCollectorDef.Build 5 "Cull" 0)
      (PStatClientData_new (Some 7%nat)) = Returns tt s'
    /\ get_collector_def 0 s' 5 = PStatCollectorDef.Build 5 "Cull" 0
    /\ has_collector s' 3 = false.
Proof.
  destruct (add_collector_then_lookup 0 1000
              (PStatCollectorDef.Build 5 "Cull" 0)
              (PStatClientData_new (Some 7%nat)) (wf_new _)
              ltac:(simpl; lia) ltac:(lia))
    as (s' & Hcall & _ & Hdef & _ & Hother).
  exists s'. split; [exact Hcall|split; [exact Hdef|]].
  destruct (Hother 3 ltac:(simpl; lia)) as [-> _]. reflexivity.
Defined.

Lemma slots_with_lookup_any (def : PStatCollectorDef.t)
    (v : list (option PStatCollectorDef.t)) (j : nat) :
  0 <= PStatCollectorDef._index def ->
  slots_with def v !! j
  = if decide (j = Z.to_nat (PStatCollectorDef._index def))
    then Some (Some def)
    else match v !! j with
         | Some slot => Some slot
         | None =>
             if decide (Z.of_nat j < PStatCollectorDef._index def)
             then Some None else None
         end.
Proof.
  intros Hindex. case_decide as Hj.
  - subst j. now apply slots_with_lookup.
  - now apply slots_with_lookup_ne.
Qed.

Lemma slots_with_replace (d1 d2 : PStatCollectorDef.t)
    (v : list (option PStatCollectorDef.t)) :
  0 <= PStatCollectorDef._index d1 ->
  PStatCollectorDef._index d1 = PStatCollectorDef._index d2 ->
  slots_with d2 (slots_with d1 v) = slots_with d2 v.
Proof.
  intros Hindex Hsame. apply list_eq. intros j.
  rewrite !slots_with_lookup_any by lia. rewrite Hsame.
  repeat case_decide; try reflexivity; try lia;
    destruct (v !! j); reflexivity.
Qed.

Lemma slots_with_commute (d1 d2 : PStatCollectorDef.t)
    (v : list (option PStatCollectorDef.t)) :
  0 <= PStatCollectorDef._index d1 -> 0 <= PStatCollectorDef._index d2 ->
  PStatCollectorDef._index d1 <> PStatCollectorDef._index d2 ->
  slots_with d2 (slots_with d1 v) = slots_with d1 (slots_with d2 v).
Proof.
  intros H1 H2 Hne. apply list_eq. intros j.
  rewrite !slots_with_lookup_any by lia.
  repeat case_decide; try reflexivity; try lia;
    destruct (v !! j); try reflexivity; repeat case_decide;
    reflexivity || lia.
Qed.

(** X2.  Of two definitions of the same index added one after the other, the
    second is the one that stays, as if the first had never been added; two
    definitions of different indices can be added in either order. *)
Theorem add_collector_twice (fuel : nat) (d1 d2 : PStatCollectorDef.t)
    (s : PStatClientData) :
  wf s -> (1000 <= fuel)%nat ->
  0 <= PStatCollectorDef._index d1 < 1000 ->
  0 <= PStatCollectorDef._index d2 < 1000 ->
  (PStatCollectorDef._index d1 = PStatCollectorDef._index d2 ->
   after (add_collector fuel d1 s) (fun _ s1 => add_collector fuel d2 s1)
   = add_collector fuel d2 s)
  /\ (PStatCollectorDef._index d1 <> PStatCollectorDef._index d2 ->
      after (add_collector fuel d1 s) (fun _ s1 => add_collector fuel d2 s1)
      = after (add_collector fuel d2 s)
          (fun _ s2 => add_collector fuel d1 s2)).
Proof.
  intros Hwf Hfuel H1 H2.
  assert (Hadd : forall d s0, 0 <= PStatCollectorDef._index d < 1000 ->
            add_collector fuel d s0
            = Returns tt (set_collectors s0 (slots_with d (_collectors s0))))
    by (intros d s0 Hd; apply add_collector_stores;
        [exact Hd|pose proof (vsize_nonneg (_collectors s0)); lia]).
  rewrite !Hadd by assumption. simpl. rewrite !Hadd by assumption. simpl.
  unfold set_collectors. simpl. split.
  - intros Hsame. now rewrite slots_with_replace by (lia || assumption).
  - intros Hne. now rewrite slots_with_commute by (lia || assumption).
Qed.

(** Two definitions of index 4: the name found is that of the second. *)
Lemma add_collector_twice_witness :
  after
    (add_collector 1000 (PStatCollectorDef.Build 4 "Draw" 0)
       (PStatClientData_new (Some 7%nat)))
    (fun _ s1 => add_collector 1000 (PStatCollectorDef.Build 4 "Cull" 0) s1)
  = add_collector 1000 (PStatCollectorDef.Build 4 "Cull" 0)
      (PStatClientData_new (Some 7%nat)).
Proof.
  destruct (add_collector_twice 1000 (PStatCollectorDef.Build 4 "Draw" 0)
              (PStatCollectorDef.Build 4 "Cull" 0)
              (PStatClientData_new (Some 7%nat)) (wf_new _)
              ltac:(lia) ltac:(simpl; lia) ltac:(simpl; lia))
    as [Hsame _].
  exact (Hsame eq_refl).
Defined.

(** ** Distances *)

Section MoreChildDistance.

Variable null_parent_index : Z.

Local Abbreviation distance := (get_child_distance null_parent_index).
Local Abbreviation parent_of s child :=
  (PStatCollectorDef._parent_index
     (get_collector_def null_parent_index s child)).
Local Abbreviation up := (ancestor null_parent_index).
Local Abbreviation climbs := (climbs null_parent_index).

(** What a distance that was returned tells of the walk. *)
Lemma get_child_distance_inv (s : PStatClientData) (parent : Z) (fuel : nat) :
  forall (child dist : Z),
    distance fuel s parent child = Some dist ->
    exists k : nat,
      (k < fuel)%nat /\ climbs s parent child k
      /\ ((dist = Z.of_nat k /\ up s k child = parent)
          \/ (dist = -1 /\ up s k child <> parent
              /\ (has_collector s (up s k child) = false
                  \/ up s k child = 0))).
Proof.
  induction fuel as [|fuel IH]; intros child dist Hdist; [discriminate|].
  simpl in Hdist.
  destruct (Z.eqb_spec parent child) as [Heq|Hne].
  { injection Hdist as <-. exists 0%nat.
    split; [lia|split; [intros i Hi; lia|left; simpl; auto]]. }
  destruct (has_collector s child) eqn:Hhas; simpl in Hdist.
  2:{ injection Hdist as <-. exists 0%nat.
      split; [lia|split; [intros i Hi; lia|right; simpl; auto]]. }
  destruct (Z.eqb_spec child 0) as [Hroot|Hroot].
  { injection Hdist as <-. exists 0%nat.
    split; [lia|split; [intros i Hi; lia|right; simpl; auto]]. }
  destruct (distance fuel s parent (parent_of s child)) as [d|] eqn:Hrec;
    [|discriminate].
  destruct (IH _ _ Hrec) as (k & Hk & Hwalk & Hend).
  exists (S k). split; [lia|split].
  - intros [|i] Hi; simpl; [auto|]. apply Hwalk. lia.
  - simpl. destruct Hend as [[-> Hend]|[-> Hend]].
    + left. destruct (Z.eqb_spec (Z.of_nat k) (-1)); [lia|].
      injection Hdist as <-. split; [lia|exact Hend].
    + right. simpl in Hdist. injection Hdist as <-. auto.
Qed.

Lemma get_child_distance_more (s : PStatClientData) (parent child dist : Z)
    (fuel fuel' : nat) :
  (fuel <= fuel')%nat ->
  distance fuel s parent child = Some dist ->
  distance fuel' s parent child = Some dist.
Proof.
  intros Hle Hdist.
  destruct (get_child_distance_inv s parent fuel child dist Hdist)
    as (k & Hk & Hwalk & [[-> Hend]|[-> [Hne Hend]]]).
  - apply get_child_distance_hops; [lia|exact Hwalk|exact Hend].
  - apply (get_child_distance_miss null_parent_index s parent k);
      [lia|exact Hwalk|exact Hne|exact Hend].
Qed.

(** From a collector below [mid], [parent] above [mid] is found within the
    links of both walks. *)
Lemma get_child_distance_through (s : PStatClientData) (parent mid : Z)
    (m : nat) :
  (forall fuel : nat, (m < fuel)%nat ->
     distance fuel s parent mid = Some (Z.of_nat m)) ->
  forall (n : nat) (child : Z),
    climbs s mid child n -> up s n child = mid ->
    exists k : nat,
      (k <= m + n)%nat
      /\ forall fuel : nat, (k < fuel)%nat ->
           distance fuel s parent child = Some (Z.of_nat k).
Proof.
  intros Hmid. induction n as [|n IH]; intros child Hwalk Hend.
  - simpl in Hend. subst child. exists m. split; [lia|exact Hmid].
  - apply climbs_tail in Hwalk as (Hne & Hhas & Hroot & Hwalk).
    destruct (Z.eq_dec parent child) as [<-|Hother].
    + exists 0%nat. split; [lia|]. intros [|fuel] Hfuel; [lia|].
      apply get_child_distance_same.
    + destruct (IH _ Hwalk Hend) as (k & Hk & Hdist).
      exists (S k). split; [lia|]. intros [|fuel] Hfuel; [lia|].
      rewrite (get_child_distance_step null_parent_index fuel s parent child
                 (Z.of_nat k)); try assumption.
      * destruct (Z.eqb_spec (Z.of_nat k) (-1)); [lia|]. f_equal. lia.
      * apply Hdist. lia.
Qed.

End MoreChildDistance.

(** X3.  A distance that [get_child_distance] returns is -1 or a count of
    links: a count [k] tells that [parent] is the collector [k] links above
    [child], through defined collectors other than the root, and -1 tells
    that no such walk from [child] meets [parent]. *)
Theorem get_child_distance_sound (null_parent_index : Z) (fuel : nat)
    (s : PStatClientData) (parent child dist : Z) :
  get_child_distance null_parent_index fuel s parent child = Some dist ->
  (0 <= dist
   /\ climbs null_parent_index s parent child (Z.to_nat dist)
   /\ ancestor null_parent_index s (Z.to_nat dist) child = parent)
  \/ (dist = -1
      /\ forall j : nat,
           climbs null_parent_index s parent child j ->
           ancestor null_parent_index s j child <> parent).
Proof.
  intros Hdist.
  destruct (get_child_distance_inv null_parent_index s parent fuel child dist
              Hdist) as (k & Hk & Hwalk & [[-> Hend]|[-> [Hne Hend]]]).
  - left. rewrite Nat2Z.id. split; [lia|split; assumption].
  - right. split; [reflexivity|]. intros j Hj Hmeet.
    destruct (Nat.lt_trichotomy j k) as [Hlt|[->|Hgt]].
    + now destruct (Hwalk j Hlt).
    + contradiction.
    + destruct (Hj k Hgt) as (_ & Hhas & Hroot).
      destruct Hend as [Hend|Hend]; congruence.
Qed.

(** In the registry of three, the distance from "B" up to the root is 1, and
    the root is the parent of "B". *)
Lemma get_child_distance_sound_witness :
  ancestor 0 chain_registry 1 1 = 0.
Proof.
  destruct (get_child_distance_sound 0 5 chain_registry 0 1 1 eq_refl)
    as [(_ & _ & Hend)|[Hminus _]]; [exact Hend|discriminate].
Defined.

(** X4.  Distances compose: when [mid] is above [child] and [parent] above
    [mid], [get_child_distance] finds [parent] above [child], no further than
    the two distances together. *)
Theorem get_child_distance_transitive (null_parent_index : Z)
    (fuel1 fuel2 : nat) (s : PStatClientData) (parent mid child m n : Z) :
  get_child_distance null_parent_index fuel1 s parent mid = Some m ->
  get_child_distance null_parent_index fuel2 s mid child = Some n ->
  0 <= m -> 0 <= n ->
  exists k : Z,
    0 <= k <= m + n
    /\ forall fuel : nat, (Z.to_nat k < fuel)%nat ->
         get_child_distance null_parent_index fuel s parent child = Some k.
Proof.
  intros Hm Hn Hmpos Hnpos.
  destruct (get_child_distance_inv null_parent_index s mid fuel2 child n Hn)
    as (kn & _ & Hwalk & [[-> Hend]|[-> _]]); [|lia].
  destruct (get_child_distance_inv null_parent_index s parent fuel1 mid m Hm)
    as (km & _ & Hwalk' & [[-> Hend']|[-> _]]); [|lia].
  destruct (get_child_distance_through null_parent_index s parent mid km)
    with (n := kn) (child := child) as (k & Hk & Hdist);
    [|exact Hwalk|exact Hend|].
  - intros fuel Hfuel. now apply get_child_distance_hops.
  - exists (Z.of_nat k). split; [lia|].
    intros fuel Hfuel. apply Hdist. lia.
Qed.

(** In the registry of three: the root is 1 above "B", "B" is 1 above "C",
    and the root is found above "C". *)
Lemma get_child_distance_transitive_witness :
  exists k : Z,
    0 <= k <= 1 + 1
    /\ forall fuel : nat, (Z.to_nat k < fuel)%nat ->
         get_child_distance 0 fuel chain_registry 0 2 = Some k.
Proof.
  apply (get_child_distance_transitive 0 5 5 chain_registry 0 1 2 1 1);
    (reflexivity || lia).
Defined.

Lemma get_child_distance_unfold (null_parent_index : Z) (fuel : nat)
    (s : PStatClientData) (parent child : Z) :
  get_child_distance null_parent_index (S fuel) s parent child
  = if parent =? child then Some 0
    else if negb (has_collector s child) || (child =? 0) then Some (-1)
    else
      match get_child_distance null_parent_index fuel s parent
              (PStatCollectorDef._parent_index
                 (get_collector_def null_parent_index s child)) with
      | None => None
      | Some dist => if dist =? -1 then Some (-1) else Some (dist + 1)
      end.
Proof. reflexivity. Qed.

Lemma get_child_distance_None (null_parent_index : Z) (s : PStatClientData)
    (parent : Z) (fuel : nat) :
  forall child : Z,
    get_child_distance null_parent_index (S fuel) s parent child = None ->
    exists top, climb s fuel child = Some top.
Proof.
  induction fuel as [|fuel IH]; intros child Hnone; [simpl; eauto|].
  rewrite get_child_distance_unfold in Hnone.
  destruct (parent =? child); [discriminate|].
  destruct (has_collector s child) eqn:Hhas; [|discriminate].
  destruct (child =? 0); [discriminate|]. cbn [negb orb] in Hnone.
  set (p := PStatCollectorDef._parent_index
              (get_collector_def null_parent_index s child)) in *.
  destruct (get_child_distance null_parent_index (S fuel) s parent p)
    as [d|] eqn:Hrec; [revert Hnone; now destruct (d =? -1)|].
  destruct (IH p Hrec) as [top Hwalk].
  exists top. cbn [climb].
  assert (Hp : p <> 0).
  { intros Hzero. rewrite get_child_distance_unfold, Hzero in Hrec.
    destruct (parent =? 0); [discriminate|].
    rewrite orb_true_r in Hrec. discriminate. }
  destruct (proj1 (has_collector_true s child) Hhas) as [_ [def Hslot]].
  assert (Hdef : PStatCollectorDef._parent_index def = p)
    by (unfold p; now rewrite (get_collector_def_stored _ s child def)).
  unfold fullname_parent. rewrite Hhas, Hslot. simpl.
  destruct (Z.eqb_spec (PStatCollectorDef._parent_index def) 0); [lia|].
  now rewrite Hdef.
Qed.

(** X5.  In a registry whose links have no cycle, [get_child_distance]
    returns for every pair of indices, within as many nested calls as the
    table has slots, plus two. *)
Theorem get_child_distance_terminates (null_parent_index : Z)
    (s : PStatClientData) (parent child : Z) :
  acyclic s ->
  exists dist : Z,
    forall fuel : nat, (S (length (_collectors s)) < fuel)%nat ->
      get_child_distance null_parent_index fuel s parent child = Some dist.
Proof.
  intros Hacyclic.
  destruct (get_child_distance null_parent_index
              (S (S (length (_collectors s)))) s parent child)
    as [dist|] eqn:Hdist.
  - exists dist. intros fuel Hfuel.
    apply (get_child_distance_more null_parent_index s parent child dist
             (S (S (length (_collectors s))))); [lia|exact Hdist].
  - apply get_child_distance_None in Hdist as [top Hwalk].
    now apply climb_long in Hwalk.
Qed.

(** In the registry of three, which has no cycle, the distance from "C" up
    to an index that is not defined is found. *)
Lemma get_child_distance_terminates_witness :
  exists dist : Z,
    forall fuel : nat, (4 < fuel)%nat ->
      get_child_distance 0 fuel chain_registry 9 2 = Some dist.
Proof.
  exact (get_child_distance_terminates 0 chain_registry 9 2 acyclic_chain).
Defined.

(** ** Full names *)

Lemma get_collector_fullname_climb (s : PStatClientData) (fuel : nat) :
  forall index top : Z,
    climb s fuel index = Some top ->
    get_collector_fullname fuel s index = None.
Proof.
  induction fuel as [|fuel IH]; intros index top Hwalk; [reflexivity|].
  cbn [climb] in Hwalk.
  destruct (fullname_parent s index) as [p|] eqn:Hstep; [|discriminate].
  apply fullname_parent_Some in Hstep as (Hhas & def & Hslot & <- & Hp).
  simpl. rewrite Hhas, Hslot. simpl.
  destruct (Z.eqb_spec (PStatCollectorDef._parent_index def) 0);
    [contradiction|].
  now rewrite (IH _ _ Hwalk).
Qed.

Lemma climb_shorter (s : PStatClientData) (a b : nat) (index top : Z) :
  climb s (a + b) index = Some top -> exists mid, climb s a index = Some mid.
Proof.
  rewrite climb_add. destruct (climb s a index); [eauto|discriminate].
Qed.

(** A walk that comes back to where it started goes on for ever. *)
Lemma climb_cycle (s : PStatClientData) (index : Z) (k : nat) :
  climb s (S k) index = Some index ->
  forall n : nat, exists top, climb s n index = Some top.
Proof.
  intros Hcycle n.
  assert (Hrounds : forall m : nat, climb s (m * S k) index = Some index).
  { induction m as [|m IH]; [reflexivity|].
    replace (S m * S k)%nat with (S k + m * S k)%nat by lia.
    now rewrite climb_add, Hcycle. }
  specialize (Hrounds n).
  replace (n * S k)%nat with (n + n * k)%nat in Hrounds by lia.
  now apply climb_shorter in Hrounds.
Qed.

(** X6.  [get_collector_fullname] has no guard against a cycle of parent
    links: for a collector that is above itself no number of nested calls is
    enough, and the registries in which it returns for every index are
    exactly those without a cycle. *)
Theorem get_collector_fullname_cycle (s : PStatClientData) :
  (forall (index : Z) (k : nat),
     climb s (S k) index = Some index ->
     forall fuel : nat, get_collector_fullname fuel s index = None)
  /\ (acyclic s
      <-> forall index : Z,
            exists (fuel : nat) (full : string),
              get_collector_fullname fuel s index = Some full).
Proof.
  assert (Hloop : forall (index : Z) (k : nat),
            climb s (S k) index = Some index ->
            forall fuel : nat, get_collector_fullname fuel s index = None).
  { intros index k Hcycle fuel.
    destruct (climb_cycle s index k Hcycle fuel) as [top Hwalk].
    now apply (get_collector_fullname_climb s fuel index top). }
  split; [exact Hloop|split].
  - intros Hacyclic index.
    destruct (get_collector_fullname (S (length (_collectors s))) s index)
      as [full|] eqn:Hfull; [eauto|].
    apply get_collector_fullname_None in Hfull as [top Hwalk].
    now apply climb_long in Hwalk.
  - intros Hreturns index k Hcycle.
    destruct (Hreturns index) as (fuel & full & Hfull).
    rewrite (Hloop index k Hcycle fuel) in Hfull. discriminate.
Qed.

(** A collector that is its own parent: its full name is never found. *)
Lemma get_collector_fullname_cycle_witness :
  get_collector_fullname 1000
    (set_collectors (PStatClientData_new (Some 7%nat))
       [None; Some (PStatCollectorDef.Build 1 "Loop" 1)]) 1 = None.
Proof.
  destruct (get_collector_fullname_cycle
              (set_collectors (PStatClientData_new (Some 7%nat))
                 [None; Some (PStatCollectorDef.Build 1 "Loop" 1)]))
    as [Hloop _].
  exact (Hloop 1 0%nat eq_refl 1000%nat).
Defined.

Lemma walk_names_cons (s : PStatClientData) (k : nat) (index : Z) :
  exists above, walk_names s k index = get_collector_name s index :: above.
Proof.
  destruct k as [|k]; simpl; [eauto|].
  destruct (fullname_parent s index); eauto.
Qed.

Lemma get_collector_fullname_stop (fuel : nat) (s : PStatClientData)
    (index : Z) :
  fullname_parent s index = None ->
  get_collector_fullname (S fuel) s index = Some (get_collector_name s index).
Proof.
  unfold fullname_parent, get_collector_name. simpl.
  destruct (has_collector s index); simpl; [|reflexivity].
  destruct (_collectors s !! Z.to_nat index) as [[def|]|]; try reflexivity.
  now destruct (PStatCollectorDef._parent_index def =? 0).
Qed.

(** X7.  The full name is made of the names met on the way up, the highest
    first, with a colon between them: the collector itself, its parent, and
    so on up to the first collector whose parent is the root, or to an
    undefined one, which stands as "Unknown". *)
Theorem get_collector_fullname_joined (s : PStatClientData) (k : nat) :
  forall index top : Z,
    climb s k index = Some top -> fullname_parent s top = None ->
    get_collector_fullname (S k) s index
    = Some (joined (walk_names s k index))
    /\ length (walk_names s k index) = S k.
Proof.
  induction k as [|k IH]; intros index top Hwalk Htop.
  - injection Hwalk as ->. split; [|reflexivity].
    now apply get_collector_fullname_stop.
  - cbn [climb walk_names] in Hwalk |- *.
    destruct (fullname_parent s index) as [p|] eqn:Hstep; [|discriminate].
    destruct (IH p top Hwalk Htop) as [Hfull Hlen].
    split; [|simpl; now rewrite Hlen].
    apply fullname_parent_Some in Hstep as (Hhas & def & Hslot & <- & Hp).
    rewrite (get_collector_fullname_below (S k) s index def _ Hhas Hslot Hp
               Hfull).
    unfold get_collector_name at 1. rewrite Hhas, Hslot. simpl.
    destruct (walk_names_cons s k (PStatCollectorDef._parent_index def))
      as [above ->].
    reflexivity.
Qed.

(** In the registry of three, the full name of "C" has the two parts "B" and
    "C". *)
Lemma get_collector_fullname_joined_witness :
  get_collector_fullname 2 chain_registry 2 = Some (joined ["C"; "B"]).
Proof.
  exact (proj1 (get_collector_fullname_joined chain_registry 1 2 1
                  eq_refl eq_refl)).
Defined.

(** ** Defining threads *)

Lemma defined_thread_eq (index : Z) (name : string) (s : PStatClientData) :
  defined_thread index name s
  = set_heap
      (set_threads s
         (<[Z.to_nat index :=
              {| Thread._name :=
                   if empty name then stored_name s index else name;
                 Thread._data :=
                   Some (default (length (thread_data_heap s))
                           (stored_data s index)) |}]>
            (_threads s
             ++ replicate (Z.to_nat (index + 1 - vsize (_threads s)))
                  Thread.new)))
      (match stored_data s index with
       | Some _ => thread_data_heap s
       | None => thread_data_heap s ++ [PStatThreadData_new]
       end).
Proof.
  unfold defined_thread.
  now rewrite define_slot_spec, slot_or_new_name, slot_or_new_data.
Qed.

Lemma set_same (s : PStatClientData) :
  set_heap (set_threads s (_threads s)) (thread_data_heap s) = s.
Proof. now destruct s. Qed.

(** A thread that has its frame store is left as it is by [define_thread]
    with the empty name. *)
Lemma defined_thread_again (index : Z) (p : nat) (s : PStatClientData) :
  0 <= index -> stored_data s index = Some p ->
  defined_thread index "" s = s.
Proof.
  intros Hindex Hdata. rewrite defined_thread_eq, Hdata. simpl.
  unfold stored_data, stored_name in *.
  destruct (_threads s !! Z.to_nat index) as [[name data]|] eqn:Hslot;
    [|discriminate].
  simpl in Hdata. subst data. simpl.
  pose proof (lookup_lt_Some _ _ _ Hslot) as Hlt.
  replace (Z.to_nat (index + 1 - vsize (_threads s))) with 0%nat
    by (unfold vsize; lia).
  simpl. rewrite app_nil_r, list_insert_id by exact Hslot.
  apply set_same.
Qed.

Lemma defined_thread_twice (index : Z) (n1 n2 : string)
    (s : PStatClientData) :
  0 <= index ->
  defined_thread index n2 (defined_thread index n1 s)
  = defined_thread index (if empty n2 then n1 else n2) s.
Proof.
  intros Hindex.
  destruct (defined_thread_stored index n1 s Hindex) as [Hname Hdata].
  destruct (defined_thread_spec index n1 s Hindex)
    as (_ & _ & Hsize & _).
  rewrite (defined_thread_eq index n2 (defined_thread index n1 s)).
  rewrite Hname, Hdata, Hsize. simpl.
  replace (Z.to_nat (index + 1 - Z.max (vsize (_threads s)) (index + 1)))
    with 0%nat by lia.
  simpl. rewrite app_nil_r.
  rewrite (defined_thread_eq index n1 s),
    (defined_thread_eq index (if empty n2 then n1 else n2) s).
  unfold set_heap, set_threads. simpl. rewrite list_insert_insert_eq.
  destruct (empty n2) eqn:H2; [reflexivity|]. now rewrite H2.
Qed.

(** X8.  Two calls of [define_thread] for the same index, from 0 to 999, do
    what one call does, with the second name if it is not empty and with the
    first if it is; so a call made twice does what it does once. *)
Theorem define_thread_twice (fuel : nat) (index : Z) (n1 n2 : string)
    (s : PStatClientData) :
  0 <= index < 1000 -> (1000 <= fuel)%nat ->
  after (define_thread fuel index n1 s)
    (fun _ s1 => define_thread fuel index n2 s1)
  = define_thread fuel index (if empty n2 then n1 else n2) s.
Proof.
  intros Hrange Hfuel.
  assert (Hcall : forall name s0,
            define_thread fuel index name s0
            = Returns tt (defined_thread index name s0))
    by (intros name s0; apply define_thread_valid;
        [exact Hrange|pose proof (vsize_nonneg (_threads s0)); lia]).
  rewrite !Hcall. simpl. rewrite Hcall.
  now rewrite defined_thread_twice by lia.
Qed.

(** Thread 1 named "App" and then defined with the empty name is as after
    the first call alone. *)
Lemma define_thread_twice_witness :
  after (define_thread 1000 1 "App" (PStatClientData_new (Some 7%nat)))
    (fun _ s1 => define_thread 1000 1 "" s1)
  = define_thread 1000 1 "App" (PStatClientData_new (Some 7%nat)).
Proof.
  exact (define_thread_twice 1000 1 "App" "" (PStatClientData_new (Some 7%nat))
           ltac:(lia) ltac:(lia)).
Defined.

Lemma get_num_threads_small (s : PStatClientData) :
  wf s -> get_num_threads s = vsize (_threads s).
Proof.
  intros Hwf. apply size_t_to_int_small.
  pose proof (wf_threads_small s Hwf). pose proof (vsize_nonneg (_threads s)).
  lia.
Qed.

Lemma get_num_collectors_small (s : PStatClientData) :
  wf s -> get_num_collectors s = vsize (_collectors s).
Proof.
  intros Hwf. apply size_t_to_int_small.
  pose proof (wf_collectors_small s Hwf).
  pose proof (vsize_nonneg (_collectors s)). lia.
Qed.

Lemma defined_thread_other (index : Z) (name : string) (s : PStatClientData)
    (j : Z) :
  0 <= index -> 0 <= j -> j <> index ->
  stored_name (defined_thread index name s) j = stored_name s j
  /\ stored_data (defined_thread index name s) j = stored_data s j.
Proof.
  intros Hindex Hj Hne.
  destruct (defined_thread_spec index name s Hindex)
    as (_ & _ & _ & Hother & _).
  unfold stored_name, stored_data.
  rewrite (Hother (Z.to_nat j)) by lia.
  destruct (_threads s !! Z.to_nat j); [auto|]. now case_decide.
Qed.

(** X9.  [define_thread] for an index from 0 to 999 leaves every other
    thread as it was: [has_thread], [get_thread_name] and the frame store of
    every other index are the same after it, the slots the loop has appended
    being threads without name and without frame store; and the table has
    grown to hold the index, no further. *)
Theorem define_thread_others (fuel : nat) (index : Z) (name : string)
    (s : PStatClientData) :
  wf s -> 0 <= index < 1000 -> (1000 <= fuel)%nat ->
  exists s',
    define_thread fuel index name s = Returns tt s'
    /\ get_num_threads s' = Z.max (get_num_threads s) (index + 1)
    /\ _collectors s' = _collectors s
    /\ forall j : Z,
         j <> index ->
         has_thread s' j = has_thread s j
         /\ get_thread_name s' j = get_thread_name s j
         /\ (0 <= j -> stored_data s' j = stored_data s j).
Proof.
  intros Hwf Hrange Hfuel. exists (defined_thread index name s).
  pose proof (defined_thread_wf index name s Hrange Hwf) as Hwf'.
  destruct (defined_thread_spec index name s ltac:(lia))
    as (_ & _ & Hsize & _ & Hc & _).
  split; [|split; [|split; [exact Hc|]]].
  - apply define_thread_valid; [exact Hrange|].
    pose proof (vsize_nonneg (_threads s)). lia.
  - now rewrite !get_num_threads_small.
  - intros j Hne. destruct (Z.lt_ge_cases j 0) as [Hneg|Hpos].
    + unfold get_thread_name.
      rewrite !has_thread_negative by exact Hneg. repeat split. lia.
    + destruct (defined_thread_other index name s j ltac:(lia) Hpos Hne)
        as [Hname Hdata].
      rewrite !has_thread_stored, !get_thread_name_stored
        by (try (now apply wf_threads_small); lia).
      rewrite Hname. auto.
Qed.

(** Thread 3 defined on a new object: thread 1, whose slot the loop has
    appended, is not a thread the client has defined. *)
Lemma define_thread_others_witness :
  exists s',
    define_thread 1000 3 "Cull" (PStatClientData_new (Some 7%nat))
    = Returns tt s'
    /\ get_num_threads s' = 4
    /\ has_thread s' 1 = false.
Proof.
  destruct (define_thread_others 1000 3 "Cull"
              (PStatClientData_new (Some 7%nat)) (wf_new _)
              ltac:(lia) ltac:(lia)) as (s' & Hcall & Hnum & _ & Hother).
  exists s'. split; [exact Hcall|split; [exact Hnum|]].
  destruct (Hother 1 ltac:(lia)) as [-> _]. reflexivity.
Defined.

(** ** Frame stores *)

Lemma get_thread_data_enough (fuel : nat) (index : Z) (s : PStatClientData) :
  0 <= index < 1000 -> index + 1 - vsize (_threads s) <= Z.of_nat fuel ->
  wf s ->
  get_thread_data fuel index s
  = Returns (stored_data (defined_thread index "" s) index)
      (defined_thread index "" s).
Proof.
  intros Hrange Hfuel Hwf. unfold get_thread_data.
  rewrite define_thread_valid by assumption.
  simpl. rewrite thread_in_range_defined by assumption. simpl.
  unfold stored_data.
  destruct (defined_thread_spec index "" s ltac:(lia)) as (Hslot & _).
  now rewrite Hslot.
Qed.

Lemma stored_data_range (s : PStatClientData) (index : Z) (p : nat) :
  wf s -> 0 <= index -> stored_data s index = Some p ->
  index < 1000 /\ index + 1 - vsize (_threads s) <= 0.
Proof.
  intros (_ & Hsize & _) Hindex. unfold stored_data.
  destruct (_threads s !! Z.to_nat index) as [t|] eqn:Hslot; [|discriminate].
  intros _. apply lookup_lt_Some in Hslot. unfold vsize in *. lia.
Qed.

Lemma get_thread_data_pure (fuel : nat) (index : Z) (p : nat)
    (s : PStatClientData) :
  wf s -> 0 <= index -> stored_data s index = Some p ->
  get_thread_data fuel index s = Returns (Some p) s.
Proof.
  intros Hwf Hindex Hdata.
  destruct (stored_data_range s index p Hwf Hindex Hdata) as [Hlt Hfuel].
  rewrite get_thread_data_enough by (assumption || lia).
  now rewrite (defined_thread_again index p s Hindex Hdata), Hdata.
Qed.

(** X10.  [get_thread_data] changes the object only when it makes the frame
    store: the store it has returned is the one every later call returns,
    and a later call leaves the object as it is.  It never returns NULL when
    it runs to its end. *)
Theorem get_thread_data_stable (fuel fuel' : nat) (index : Z)
    (p : option nat) (s s' : PStatClientData) :
  is_int index -> wf s ->
  get_thread_data fuel index s = Returns p s' ->
  is_Some p /\ get_thread_data fuel' index s' = Returns p s'.
Proof.
  intros Hint Hwf Hret.
  apply (get_thread_data_Returns fuel index p s s' Hint Hwf) in Hret
    as (Hrange & -> & ->).
  destruct (defined_thread_stored index "" s ltac:(lia)) as [_ Hdata].
  rewrite Hdata. split; [eauto|].
  apply get_thread_data_pure;
    [now apply defined_thread_wf|lia|exact Hdata].
Qed.

(** On a new object the first call for thread 2 makes the store at address
    0, and a call after it, with no fuel at all, returns that store. *)
Lemma get_thread_data_stable_witness :
  get_thread_data 0 2 (defined_thread 2 "" (PStatClientData_new (Some 7%nat)))
  = Returns (Some 0%nat)
      (defined_thread 2 "" (PStatClientData_new (Some 7%nat))).
Proof.
  exact (proj2 (get_thread_data_stable 1000 0 2 (Some 0%nat)
                  (PStatClientData_new (Some 7%nat))
                  (defined_thread 2 "" (PStatClientData_new (Some 7%nat)))
                  ltac:(unfold is_int; simpl; lia) (wf_new _) eq_refl)).
Defined.

Lemma thread_in_range_large (s : PStatClientData) (index : Z) :
  wf s -> 1000 <= index -> thread_in_range s index = false.
Proof.
  intros Hwf Hbig. apply not_true_is_false. intros Hcheck.
  apply (thread_in_range_bound s index Hwf) in Hcheck. lia.
Qed.

(** X11.  For a thread index of 1000 or more the three methods that define
    threads leave through an assertion with the object as it was: no thread
    is defined, [get_thread_data] gives NULL, and the frame handed to
    [record_new_frame] is stored nowhere. *)
Theorem thread_index_too_large (fuel : nat) (index : Z)
    (s : PStatClientData) :
  wf s -> 1000 <= index ->
  (forall name, define_thread fuel index name s = AssertionFailed tt s)
  /\ get_thread_data fuel index s = AssertionFailed None s
  /\ (forall frame_number frame_data,
        record_new_frame fuel index frame_number frame_data s
        = AssertionFailed tt s).
Proof.
  intros Hwf Hbig.
  split; [intros name; now apply define_thread_rejected|].
  unfold get_thread_data, record_new_frame.
  rewrite define_thread_rejected by exact Hbig. simpl.
  now rewrite thread_in_range_large.
Qed.

(** A frame for thread 1000 on a new object is turned away. *)
Lemma thread_index_too_large_witness :
  record_new_frame 5 1000 12 3 (PStatClientData_new (Some 7%nat))
  = AssertionFailed tt (PStatClientData_new (Some 7%nat)).
Proof.
  destruct (thread_index_too_large 5 1000 (PStatClientData_new (Some 7%nat))
              (wf_new _) ltac:(lia)) as (_ & _ & Hrecord).
  apply Hrecord.
Defined.

Lemma threads_inv_ext (s s' : PStatClientData) :
  _threads s' = _threads s -> threads_inv s -> threads_inv s'.
Proof. unfold threads_inv. now intros ->. Qed.

Lemma defined_thread_slot (index : Z) (name : string) (s : PStatClientData)
    (i : nat) (t : Thread.t) :
  0 <= index -> i <> Z.to_nat index ->
  _threads (defined_thread index name s) !! i = Some t ->
  _threads s !! i = Some t \/ t = Thread.new.
Proof.
  intros Hindex Hne Hslot.
  destruct (defined_thread_spec index name s Hindex)
    as (_ & _ & _ & Hother & _).
  rewrite (Hother i Hne) in Hslot.
  destruct (_threads s !! i); [now left|].
  case_decide; [|discriminate]. injection Hslot as <-. now right.
Qed.

Lemma defined_thread_threads_inv (index : Z) (name : string)
    (s : PStatClientData) :
  0 <= index < 1000 -> wf s -> threads_inv s ->
  threads_inv (defined_thread index name s).
Proof.
  intros Hrange Hwf [Hdistinct Hnamed].
  destruct (defined_thread_spec index name s ltac:(lia)) as (Hslot & _).
  assert (Hfresh : forall (j : nat) (t' : Thread.t),
            j <> Z.to_nat index ->
            _threads (defined_thread index name s) !! j = Some t' ->
            Thread._data t'
            <> Some (default (length (thread_data_heap s))
                       (stored_data s index))).
  { intros j t' Hne Hj Hdata.
    apply defined_thread_slot in Hj as [Hold| ->]; [|discriminate|lia|exact Hne].
    unfold stored_data in Hdata.
    destruct (_threads s !! Z.to_nat index) as [t|] eqn:Hidx; simpl in Hdata.
    - destruct (Thread._data t) as [p|] eqn:Hp; simpl in Hdata.
      + apply Hne. exact (Hdistinct _ _ _ _ _ Hold Hidx Hdata Hp).
      + destruct Hwf as (_ & _ & Hheap).
        pose proof (Hheap _ _ _ Hold Hdata). lia.
    - destruct Hwf as (_ & _ & Hheap).
      pose proof (Hheap _ _ _ Hold Hdata). lia. }
  split.
  - intros i j t t' p Hi Hj Hp Hp'.
    destruct (decide (i = Z.to_nat index)) as [->|Hni],
             (decide (j = Z.to_nat index)) as [->|Hnj]; [reflexivity| | |].
    + rewrite Hslot in Hi. injection Hi as <-. simpl in Hp.
      exfalso. apply (Hfresh j t' Hnj Hj). congruence.
    + rewrite Hslot in Hj. injection Hj as <-. simpl in Hp'.
      exfalso. apply (Hfresh i t Hni Hi). congruence.
    + apply defined_thread_slot in Hi as [Hi| ->]; [|discriminate|lia|exact Hni].
      apply defined_thread_slot in Hj as [Hj| ->]; [|discriminate|lia|exact Hnj].
      exact (Hdistinct _ _ _ _ _ Hi Hj Hp Hp').
  - intros i t Hi Hname.
    destruct (decide (i = Z.to_nat index)) as [->|Hni].
    + rewrite Hslot in Hi. injection Hi as <-. simpl. eauto.
    + apply defined_thread_slot in Hi as [Hi| ->]; [|discriminate|lia|exact Hni].
      exact (Hnamed _ _ Hi Hname).
Qed.

Lemma add_collector_final (fuel : nat) (def : PStatCollectorDef.t)
    (s s' : PStatClientData) :
  is_int (PStatCollectorDef._index def) -> wf s ->
  final (add_collector fuel def s) = Some s' ->
  s' = s
  \/ (0 <= PStatCollectorDef._index def < 1000
      /\ s' = set_collectors s (slots_with def (_collectors s))).
Proof.
  intros Hint Hwf Hfinal.
  destruct (add_collector fuel def s) as [[] s1|[] s1| | |] eqn:Hcall;
    try discriminate; injection Hfinal as <-.
  - right. apply (add_collector_Returns fuel def s s1 Hint); [|exact Hcall].
    now apply wf_sizes.
  - left. unfold add_collector, nassert in Hcall.
    destruct (PStatCollectorDef._index def <? 1000).
    + destruct (grow fuel None (_collectors s) _); discriminate.
    + now injection Hcall as <-.
Qed.

Lemma reachable_threads_inv (s : PStatClientData) :
  reachable s -> threads_inv s.
Proof.
  induction 1 as [r|s Hs IH|fuel def s s' Hs IH Hint Hfinal
                  |fuel index name s s' Hs IH Hint Hfinal
                  |fuel index s s' Hs IH Hint Hfinal
                  |fuel index fn fd s s' Hs IH Hint Hfinal];
    try pose proof (proj1 (reachable_inv s Hs)) as Hwf.
  - split; intros i; intros; destruct i; discriminate.
  - apply (threads_inv_ext s); [|exact IH]. apply close_fields.
  - apply (add_collector_final fuel def s s' Hint Hwf) in Hfinal
      as [->|[_ ->]]; [exact IH|exact IH].
  - destruct (define_thread_final fuel index name s s' Hint
                (proj2 (wf_sizes s Hwf)) Hfinal) as [[_ ->]|[Hrange ->]];
      [exact IH|now apply defined_thread_threads_inv].
  - apply get_thread_data_final in Hfinal.
    destruct (define_thread_final fuel index "" s s' Hint
                (proj2 (wf_sizes s Hwf)) Hfinal) as [[_ ->]|[Hrange ->]];
      [exact IH|now apply defined_thread_threads_inv].
  - apply record_new_frame_final in Hfinal
      as (s1 & heap & Hfinal & -> & _).
    apply (threads_inv_ext s1); [reflexivity|].
    destruct (define_thread_final fuel index "" s s1 Hint
                (proj2 (wf_sizes s Hwf)) Hfinal) as [[_ ->]|[Hrange ->]];
      [exact IH|now apply defined_thread_threads_inv].
Qed.

(** [define_thread] leaves every other thread its store, and the thread
    itself the store it had or a new one. *)
Lemma store_of_defined (index : Z) (name : string) (s : PStatClientData) :
  wf s -> 0 <= index ->
  store_of (defined_thread index name s) index
  = Some (default PStatThreadData_new (store_of s index))
  /\ forall j : Z, 0 <= j -> j <> index ->
       store_of (defined_thread index name s) j = store_of s j.
Proof.
  intros Hwf Hindex. unfold store_of.
  destruct (defined_thread_spec index name s Hindex) as (_ & Hheap & _).
  assert (Hold : forall j q, stored_data s j = Some q ->
            thread_data_heap (defined_thread index name s) !! q
            = thread_data_heap s !! q
            /\ is_Some (thread_data_heap s !! q)).
  { intros j q Hq. unfold stored_data in Hq.
    destruct (_threads s !! Z.to_nat j) as [t|] eqn:Hslot; [|discriminate].
    destruct Hwf as (_ & _ & Hvalid). pose proof (Hvalid _ _ _ Hslot Hq).
    split; [|now apply lookup_lt_is_Some_2].
    rewrite Hheap. destruct (stored_data s index); [reflexivity|].
    now apply lookup_app_l. }
  split.
  - destruct (defined_thread_stored index name s Hindex) as [_ ->].
    destruct (stored_data s index) as [p|] eqn:Hp; simpl.
    + destruct (Hold index p Hp) as [-> [store ->]]. reflexivity.
    + rewrite Hheap, lookup_app_r by lia.
      now replace (length (thread_data_heap s) - length (thread_data_heap s))%nat
        with 0%nat by lia.
  - intros j Hj Hne.
    destruct (defined_thread_other index name s j Hindex Hj Hne) as [_ ->].
    destruct (stored_data s j) as [q|] eqn:Hq; [|reflexivity].
    now destruct (Hold j q Hq) as [-> _].
Qed.

(** The stores after [record_new_frame]: the call has been made on the store
    of the thread, and every other thread has the store it had. *)
Lemma store_of_recorded (index frame_number : Z) (frame_data : nat)
    (s : PStatClientData) :
  wf s -> threads_inv s -> 0 <= index < 1000 ->
  store_of (recorded_frame index frame_number frame_data s) index
  = Some (store_frame frame_number frame_data
            (default PStatThreadData_new (store_of s index)))
  /\ forall j : Z, 0 <= j -> j <> index ->
       stored_data (recorded_frame index frame_number frame_data s) j
       = stored_data s j
       /\ store_of (recorded_frame index frame_number frame_data s) j
          = store_of s j.
Proof.
  intros Hwf Hinv Hrange.
  pose proof (defined_thread_wf index "" s Hrange Hwf) as Hwf1.
  pose proof (defined_thread_threads_inv index "" s Hrange Hwf Hinv)
    as [Hdistinct _].
  destruct (defined_thread_spec index "" s ltac:(lia)) as (Hslot & _).
  destruct (defined_thread_stored index "" s ltac:(lia)) as [_ Hdata].
  destruct (store_of_defined index "" s Hwf ltac:(lia)) as [Hown Hother].
  unfold recorded_frame. rewrite Hdata.
  set (s1 := defined_thread index "" s) in *.
  set (p := default (length (thread_data_heap s)) (stored_data s index)) in *.
  split.
  - unfold store_of in Hown |- *. simpl.
    change (stored_data (set_heap s1 _) index) with (stored_data s1 index).
    rewrite Hdata in Hown |- *.
    now rewrite list_lookup_alter_eq, Hown.
  - intros j Hj Hne.
    change (stored_data (set_heap s1 _) j) with (stored_data s1 j).
    split.
    + unfold s1.
      now destruct (defined_thread_other index "" s j ltac:(lia) Hj Hne)
        as [_ ->].
    + rewrite <- (Hother j Hj Hne). unfold store_of. simpl.
      change (stored_data (set_heap s1 _) j) with (stored_data s1 j).
      destruct (stored_data s1 j) as [q|] eqn:Hq; [|reflexivity].
      rewrite list_lookup_alter_ne; [reflexivity|].
      intros <-. unfold stored_data in Hq.
      destruct (_threads s1 !! Z.to_nat j) as [t|] eqn:Hjslot; [|discriminate].
      pose proof (Hdistinct _ _ _ _ _ Hjslot Hslot Hq eq_refl). lia.
Qed.

(** X12.  On an object a client data can become, [record_new_frame] for an
    index from 0 to 999 makes its call [record_new_frame(frame_number,
    frame_data)] on the frame store of that thread, the one the thread had or
    the one [define_thread] has just made for it, and on no other: every
    other thread points to the store it pointed to, and that store is as it
    was.  What the store does with the frame is not part of this. *)
Theorem record_new_frame_own_store (fuel : nat) (index frame_number : Z)
    (frame_data : nat) (s : PStatClientData) :
  reachable s -> 0 <= index < 1000 -> (1000 <= fuel)%nat ->
  exists s',
    record_new_frame fuel index frame_number frame_data s = Returns tt s'
    /\ store_of s' index
       = Some (store_frame frame_number frame_data
                 (default PStatThreadData_new (store_of s index)))
    /\ forall j : Z, 0 <= j -> j <> index ->
         stored_data s' j = stored_data s j
         /\ store_of s' j = store_of s j
         /\ (is_Some (stored_data s' j) ->
             stored_data s' j <> stored_data s' index).
Proof.
  intros Hreach Hrange Hfuel.
  pose proof (proj1 (reachable_inv s Hreach)) as Hwf.
  pose proof (reachable_threads_inv s Hreach) as Hinv.
  exists (recorded_frame index frame_number frame_data s).
  split; [now apply record_new_frame_valid|].
  destruct (store_of_recorded index frame_number frame_data s Hwf Hinv Hrange)
    as [Hown Hother].
  split; [exact Hown|].
  intros j Hj Hne. destruct (Hother j Hj Hne) as [Hdata Hstore].
  split; [exact Hdata|split; [exact Hstore|]].
  intros [q Hq] Heq. rewrite Hq in Heq. symmetry in Heq.
  assert (Hreach' : reachable
                      (recorded_frame index frame_number frame_data s)).
  { apply (reach_record_new_frame fuel index frame_number frame_data s _
             Hreach); [unfold is_int; lia|].
    now rewrite record_new_frame_valid. }
  destruct (reachable_threads_inv _ Hreach') as [Hdistinct _].
  unfold stored_data in Hq, Heq.
  destruct (_threads (recorded_frame index frame_number frame_data s)
              !! Z.to_nat j) as [t|] eqn:Hjslot; [|discriminate].
  destruct (_threads (recorded_frame index frame_number frame_data s)
              !! Z.to_nat index) as [t'|] eqn:Hislot; [|discriminate].
  pose proof (Hdistinct _ _ _ _ _ Hjslot Hislot Hq Heq). lia.
Qed.

(** Frames for thread 0, thread 1 and thread 0 again on a new object: the
    store of thread 0 has received the first and the third call, and is not
    the store of thread 1. *)
Lemma record_new_frame_own_store_witness :
  exists s1 s2 s3,
    record_new_frame 1000 0 10 100 (PStatClientData_new (Some 7%nat))
    = Returns tt s1
    /\ record_new_frame 1000 1 10 101 s1 = Returns tt s2
    /\ record_new_frame 1000 0 11 102 s2 = Returns tt s3
    /\ store_of s3 0
       = Some (store_frame 11 102 (store_frame 10 100 PStatThreadData_new)).
Proof.
  pose proof (reach_new 7) as Hreach0.
  destruct (record_new_frame_own_store 1000 0 10 100 _ Hreach0
              ltac:(lia) ltac:(lia)) as (s1 & Hcall1 & Hown1 & _).
  assert (Hreach1 : reachable s1)
    by (apply (reach_record_new_frame 1000 0 10 100%nat _ s1 Hreach0);
        [unfold is_int; simpl; lia|now rewrite Hcall1]).
  destruct (record_new_frame_own_store 1000 1 10 101 _ Hreach1
              ltac:(lia) ltac:(lia)) as (s2 & Hcall2 & _ & Hother2).
  assert (Hreach2 : reachable s2)
    by (apply (reach_record_new_frame 1000 1 10 101%nat _ s2 Hreach1);
        [unfold is_int; simpl; lia|now rewrite Hcall2]).
  destruct (record_new_frame_own_store 1000 0 11 102 _ Hreach2
              ltac:(lia) ltac:(lia)) as (s3 & Hcall3 & Hown3 & _).
  exists s1, s2, s3.
  split; [exact Hcall1|split; [exact Hcall2|split; [exact Hcall3|]]].
  destruct (Hother2 0 ltac:(lia) ltac:(lia)) as (_ & Hsame & _).
  rewrite Hown3, Hsame, Hown1. reflexivity.
Defined.

Lemma has_thread_stored_data (s : PStatClientData) (index : Z) :
  wf s -> threads_inv s -> has_thread s index = true ->
  0 <= index /\ exists p, stored_data s index = Some p.
Proof.
  intros Hwf [_ Hnamed] Hhas.
  apply (has_thread_iff s index Hwf) in Hhas as [Hindex Hname].
  split; [exact Hindex|]. unfold stored_name, stored_data in *.
  destruct (_threads s !! Z.to_nat index) as [t|] eqn:Hslot;
    [|discriminate].
  exact (Hnamed _ _ Hslot Hname).
Qed.

(** X13.  On an object a client data can become, a thread that [has_thread]
    reports has its frame store: [get_thread_data] for it returns a store,
    not NULL, whatever the fuel, and leaves the object as it is. *)
Theorem get_thread_data_of_named (fuel : nat) (index : Z)
    (s : PStatClientData) :
  reachable s -> has_thread s index = true ->
  exists p : nat, get_thread_data fuel index s = Returns (Some p) s.
Proof.
  intros Hreach Hhas.
  pose proof (proj1 (reachable_inv s Hreach)) as Hwf.
  destruct (has_thread_stored_data s index Hwf
              (reachable_threads_inv s Hreach) Hhas) as [Hindex [p Hp]].
  exists p. now apply get_thread_data_pure.
Qed.

(** A thread named on a new object: the call for its frame store, with no
    fuel, returns the store and the object. *)
Lemma get_thread_data_of_named_witness :
  exists p : nat,
    get_thread_data 0 0
      (defined_thread 0 "Main" (PStatClientData_new (Some 7%nat)))
    = Returns (Some p)
        (defined_thread 0 "Main" (PStatClientData_new (Some 7%nat))).
Proof.
  apply get_thread_data_of_named; [|reflexivity].
  apply (reach_define_thread 1000 0 "Main" _ _ (reach_new 7));
    [unfold is_int; simpl; lia|reflexivity].
Defined.

(** ** What every call keeps *)

Lemma has_thread_ext (s s' : PStatClientData) (index : Z) :
  _threads s' = _threads s -> has_thread s' index = has_thread s index.
Proof. unfold has_thread. now intros ->. Qed.

Lemma stored_data_ext (s s' : PStatClientData) (index : Z) :
  _threads s' = _threads s -> stored_data s' index = stored_data s index.
Proof. unfold stored_data. now intros ->. Qed.

(** A call that changes the collector table only. *)
Lemma grows_collectors (s s' : PStatClientData) :
  _threads s' = _threads s -> thread_data_heap s' = thread_data_heap s ->
  (forall i : Z, has_collector s i = true -> has_collector s' i = true) ->
  get_num_collectors s <= get_num_collectors s' ->
  (is_alive s = false -> is_alive s' = false) ->
  grows s s'.
Proof.
  intros Ht Hh Hc Hn Ha. split; [exact Hc|split; [|split; [|split]]].
  - intros i. now rewrite (has_thread_ext s s' i Ht).
  - intros i p _. now rewrite (stored_data_ext s s' i Ht).
  - exact Hn.
  - split; [|exact Ha]. unfold get_num_threads. rewrite Ht. lia.
Qed.

Lemma grows_refl (s : PStatClientData) : grows s s.
Proof. apply grows_collectors; auto; lia. Qed.

Lemma grows_close (s : PStatClientData) : grows s (close s).
Proof.
  destruct (close_fields s) as (Hc & Ht & Hh).
  apply grows_collectors; try assumption.
  - intros i. now rewrite (has_collector_ext s (close s) i Hc).
  - unfold get_num_collectors. rewrite Hc. lia.
  - unfold is_alive, close. intros Ha. now rewrite Ha.
Qed.

Lemma grows_slots_with (def : PStatCollectorDef.t) (s : PStatClientData) :
  wf s -> 0 <= PStatCollectorDef._index def < 1000 ->
  grows s (set_collectors s (slots_with def (_collectors s))).
Proof.
  intros Hwf Hrange.
  pose proof (slots_with_wf def s Hrange Hwf) as Hwf'.
  apply grows_collectors; try reflexivity; [| |auto].
  - intros i Hhas.
    destruct (proj1 (has_collector_true s i) Hhas) as [[Hi _] _].
    rewrite has_collector_join in Hhas |- *
      by (try (now apply wf_collectors_small); lia).
    destruct (Z.eq_dec i (PStatCollectorDef._index def)) as [->|Hne].
    + simpl. now rewrite slots_with_lookup by lia.
    + simpl. now rewrite slots_with_other by lia.
  - rewrite !get_num_collectors_small by assumption. simpl.
    rewrite slots_with_vsize. lia.
Qed.

Lemma grows_defined (index : Z) (name : string) (s : PStatClientData) :
  wf s -> 0 <= index < 1000 -> grows s (defined_thread index name s).
Proof.
  intros Hwf Hrange.
  pose proof (defined_thread_wf index name s Hrange Hwf) as Hwf'.
  destruct (defined_thread_spec index name s ltac:(lia))
    as (_ & _ & Hsize & _ & Hc & Ha & _).
  destruct (defined_thread_stored index name s ltac:(lia)) as [Hname Hdata].
  split; [|split; [|split; [|split; [|split]]]].
  - intros i. now rewrite (has_collector_ext s _ i Hc).
  - intros i Hhas.
    apply (has_thread_iff s i Hwf) in Hhas as [Hi Hnamed].
    apply (has_thread_iff _ i Hwf'). split; [exact Hi|].
    destruct (Z.eq_dec i index) as [->|Hne].
    + rewrite Hname. now destruct (empty name) eqn:Hempty.
    + now destruct (defined_thread_other index name s i ltac:(lia) Hi Hne)
        as [-> _].
  - intros i p Hi Hp. destruct (Z.eq_dec i index) as [->|Hne].
    + now rewrite Hdata, Hp.
    + now destruct (defined_thread_other index name s i ltac:(lia) Hi Hne)
        as [_ ->].
  - unfold get_num_collectors. rewrite Hc. lia.
  - rewrite !get_num_threads_small by assumption. lia.
  - unfold is_alive. now rewrite Ha.
Qed.

Lemma recorded_frame_fields (index frame_number : Z) (frame_data : nat)
    (s : PStatClientData) :
  let s1 := defined_thread index "" s in
  let s' := recorded_frame index frame_number frame_data s in
  _threads s' = _threads s1 /\ _collectors s' = _collectors s1
  /\ _is_alive s' = _is_alive s1.
Proof.
  unfold recorded_frame.
  now destruct (stored_data (defined_thread index "" s) index).
Qed.

Lemma grows_recorded (index frame_number : Z) (frame_data : nat)
    (s : PStatClientData) :
  wf s -> 0 <= index < 1000 ->
  grows s (recorded_frame index frame_number frame_data s).
Proof.
  intros Hwf Hrange.
  destruct (grows_defined index "" s Hwf Hrange)
    as (Hc & Ht & Hd & Hnc & Hnt & Ha).
  destruct (recorded_frame_fields index frame_number frame_data s)
    as (Hthreads & Hcollectors & Halive).
  split; [|split; [|split; [|split; [|split]]]].
  - intros i Hi. rewrite (has_collector_ext _ _ i Hcollectors). auto.
  - intros i Hi. rewrite (has_thread_ext _ _ i Hthreads). auto.
  - intros i p Hi Hp. rewrite (stored_data_ext _ _ i Hthreads). auto.
  - unfold get_num_collectors in *. now rewrite Hcollectors.
  - unfold get_num_threads in *. now rewrite Hthreads.
  - unfold is_alive in *. now rewrite Halive.
Qed.

Lemma record_new_frame_final_eq (fuel : nat) (index frame_number : Z)
    (frame_data : nat) (s s' : PStatClientData) :
  is_int index -> wf s ->
  final (record_new_frame fuel index frame_number frame_data s) = Some s' ->
  s' = s
  \/ (0 <= index < 1000
      /\ s' = recorded_frame index frame_number frame_data s).
Proof.
  intros Hint Hwf Hfinal.
  destruct (record_new_frame fuel index frame_number frame_data s)
    as [[] s1|[] s1| | |] eqn:Hcall; try discriminate;
    injection Hfinal as <-.
  - right. now apply (record_new_frame_Returns fuel index _ _ s s1).
  - revert Hcall. unfold record_new_frame, after, nassert.
    destruct (define_thread fuel index "" s) as [[] s2|[] s2| | |] eqn:Hdef;
      try discriminate;
      (destruct (define_thread_final fuel index "" s s2 Hint
                   (proj2 (wf_sizes s Hwf)) ltac:(now rewrite Hdef))
        as [[_ ->]|[Hrange ->]];
       [|rewrite thread_in_range_defined by assumption]);
      try (destruct (thread_in_range s index);
           [|intros H; injection H as <-; now left]);
      repeat match goal with
             | |- context [match ?x with _ => _ end] => destruct x
             end; discriminate.
Qed.

(** X14.  Whatever method is called on an object a client data can become,
    nothing that was there is lost: a collector or a thread that was defined
    is still defined, a thread still points to the frame store it pointed
    to, the two tables have not shrunk, and a session that was not alive is
    still not alive. *)
Theorem step_grows (s s' : PStatClientData) :
  reachable s -> step s s' -> grows s s'.
Proof.
  intros Hreach Hstep.
  pose proof (proj1 (reachable_inv s Hreach)) as Hwf.
  destruct Hstep as [|fuel def s' Hint Hfinal|fuel index name s' Hint Hfinal
                     |fuel index s' Hint Hfinal
                     |fuel index fn fd s' Hint Hfinal].
  - apply grows_close.
  - apply (add_collector_final fuel def s s' Hint Hwf) in Hfinal
      as [->|[Hrange ->]]; [apply grows_refl|now apply grows_slots_with].
  - destruct (define_thread_final fuel index name s s' Hint
                (proj2 (wf_sizes s Hwf)) Hfinal) as [[_ ->]|[Hrange ->]];
      [apply grows_refl|now apply grows_defined].
  - apply get_thread_data_final in Hfinal.
    destruct (define_thread_final fuel index "" s s' Hint
                (proj2 (wf_sizes s Hwf)) Hfinal) as [[_ ->]|[Hrange ->]];
      [apply grows_refl|now apply grows_defined].
  - apply (record_new_frame_final_eq fuel index fn fd s s' Hint Hwf)
      in Hfinal as [->|[Hrange ->]];
      [apply grows_refl|now apply grows_recorded].
Qed.

(** A frame recorded for a thread that has a name: the thread is still
    there after the call. *)
Lemma step_grows_witness :
  has_thread
    (recorded_frame 0 5 9
       (defined_thread 0 "Main" (PStatClientData_new (Some 7%nat)))) 0
  = true.
Proof.
  assert (Hreach : reachable
            (defined_thread 0 "Main" (PStatClientData_new (Some 7%nat))))
    by (apply (reach_define_thread 1000 0 "Main" _ _ (reach_new 7));
        [unfold is_int; simpl; lia|reflexivity]).
  destruct (step_grows _
              (recorded_frame 0 5 9
                 (defined_thread 0 "Main" (PStatClientData_new (Some 7%nat))))
              Hreach) as (_ & Hthreads & _).
  - apply (step_record_new_frame _ 1000 0 5 9%nat);
      [unfold is_int; simpl; lia|reflexivity].
  - apply Hthreads. reflexivity.
Defined.

(** ** Liveness and bounds *)

(** X15.  On an object a client data made for a reader can become, the
    session is alive exactly while it holds its reader, and [close()] is the
    only method that changes this: every other call leaves [is_alive] and
    the reader as they were, and the reader's [close()] uncalled. *)
Theorem is_alive_until_close (s : PStatClientData) :
  reachable s ->
  (is_alive s = true <-> is_Some (_reader s))
  /\ forall s' : PStatClientData,
       step s s' ->
       (is_alive s' = is_alive s /\ _reader s' = _reader s
        /\ reader_closed s' = reader_closed s)
       \/ (s' = close s /\ is_alive s = true /\ is_alive s' = false).
Proof.
  intros Hreach. destruct (reachable_inv s Hreach) as [Hwf Hinv].
  split.
  - unfold is_alive.
    destruct Hinv as [(Ha & [r Hr] & _)|(Ha & Hr & _)]; rewrite Ha, Hr.
    + split; eauto.
    + split; [discriminate|]. intros [r Hr']. discriminate.
  - intros s' Hstep.
    destruct (step_same_session s s' Hwf Hstep) as [->|Hsame];
      [|left; exact Hsame].
    destruct (close_session_inv s Hinv) as (Hclosed & _).
    unfold is_alive.
    destruct Hinv as [(Ha & _)|(Ha & Hr & _)].
    + right. auto.
    + left. unfold close. rewrite Ha. auto.
Qed.

(** A new session is alive, and adding a collector leaves it alive. *)
Lemma is_alive_until_close_witness :
  is_alive (PStatClientData_new (Some 7%nat)) = true
  /\ is_alive
       (set_collectors (PStatClientData_new (Some 7%nat))
          [Some (PStatCollectorDef.Build 0 "Frame" 0)]) = true.
Proof.
  destruct (is_alive_until_close _ (reach_new 7)) as [Halive Hstep].
  split; [apply Halive; simpl; eauto|].
  destruct (Hstep (set_collectors (PStatClientData_new (Some 7%nat))
                     [Some (PStatCollectorDef.Build 0 "Frame" 0)]))
    as [(Hsame & _)|(Hclose & _)].
  - apply (step_add_collector _ 1 (PStatCollectorDef.Build 0 "Frame" 0));
      [unfold is_int; simpl; lia|reflexivity].
  - exact Hsame.
  - discriminate.
Defined.

(** X16.  The check of the index keeps both tables within 1000 slots on
    every object a client data can become: [get_num_collectors] and
    [get_num_threads] are from 0 to 1000, and no collector and no thread of
    index 1000 or more is ever reported as defined. *)
Theorem reachable_bounds (s : PStatClientData) :
  reachable s ->
  0 <= get_num_collectors s <= 1000
  /\ 0 <= get_num_threads s <= 1000
  /\ (forall i : Z, has_collector s i = true -> 0 <= i < 1000)
  /\ (forall i : Z, has_thread s i = true -> 0 <= i < 1000).
Proof.
  intros Hreach. pose proof (proj1 (reachable_inv s Hreach)) as Hwf.
  rewrite get_num_collectors_small, get_num_threads_small by exact Hwf.
  pose proof (vsize_nonneg (_collectors s)).
  pose proof (vsize_nonneg (_threads s)).
  destruct Hwf as (Hc & Ht & _).
  split; [lia|split; [lia|split]].
  - intros i Hhas. apply has_collector_true in Hhas as [Hrange _].
    pose proof (size_t_to_int_le _ (vsize_nonneg (_collectors s))). lia.
  - intros i Hhas. unfold has_thread in Hhas.
    apply andb_true_iff in Hhas as [Hrange _].
    apply andb_true_iff in Hrange as [Hlo Hhi].
    apply Z.leb_le in Hlo. apply Z.ltb_lt in Hhi.
    pose proof (size_t_to_int_le _ (vsize_nonneg (_threads s))). lia.
Qed.

(** After a collector of index 999 is added to a new object the table has
    its 1000 slots. *)
Lemma reachable_bounds_witness :
  0 <= get_num_collectors
         (set_collectors (PStatClientData_new (Some 7%nat))
            (slots_with (PStatCollectorDef.Build 999 "Last" 0) [])) <= 1000.
Proof.
  apply reachable_bounds.
  apply (reach_add_collector 1000 (PStatCollectorDef.Build 999 "Last" 0)
           _ _ (reach_new 7)); [unfold is_int; simpl; lia|].
  vm_compute. reflexivity.
Defined.

(** ** The index of a stored definition *)

Lemma collectors_inv_ext (s s' : PStatClientData) :
  _collectors s' = _collectors s -> collectors_inv s -> collectors_inv s'.
Proof. unfold collectors_inv. now intros ->. Qed.

Lemma slots_with_collectors_inv (def : PStatCollectorDef.t)
    (s : PStatClientData) :
  0 <= PStatCollectorDef._index def -> collectors_inv s ->
  collectors_inv (set_collectors s (slots_with def (_collectors s))).
Proof.
  intros Hindex Hinv i d. simpl. rewrite slots_with_lookup_any by exact Hindex.
  case_decide as Hi.
  - intros Hd. injection Hd as <-. lia.
  - destruct (_collectors s !! i) as [slot|] eqn:Hslot.
    + intros Hd. injection Hd as ->. now apply Hinv.
    + now case_decide.
Qed.

Lemma reachable_collectors_inv (s : PStatClientData) :
  reachable s -> collectors_inv s.
Proof.
  induction 1 as [r|s Hs IH|fuel def s s' Hs IH Hint Hfinal
                  |fuel index name s s' Hs IH Hint Hfinal
                  |fuel index s s' Hs IH Hint Hfinal
                  |fuel index fn fd s s' Hs IH Hint Hfinal];
    try pose proof (proj1 (reachable_inv s Hs)) as Hwf.
  - intros i def Hslot. destruct i; discriminate.
  - apply (collectors_inv_ext s); [apply close_fields|exact IH].
  - apply (add_collector_final fuel def s s' Hint Hwf) in Hfinal
      as [->|[Hrange ->]]; [exact IH|].
    apply slots_with_collectors_inv; [lia|exact IH].
  - apply (collectors_inv_ext s); [|exact IH].
    now destruct (define_thread_keeps fuel index name s s' Hint Hwf Hfinal)
      as (_ & _ & Hc).
  - apply get_thread_data_final in Hfinal.
    apply (collectors_inv_ext s); [|exact IH].
    now destruct (define_thread_keeps fuel index "" s s' Hint Hwf Hfinal)
      as (_ & _ & Hc).
  - apply record_new_frame_final in Hfinal
      as (s1 & heap & Hfinal & -> & _).
    apply (collectors_inv_ext s); [|exact IH]. simpl.
    now destruct (define_thread_keeps fuel index "" s s1 Hint Hwf Hfinal)
      as (_ & _ & Hc).
Qed.

(** X17.  On an object a client data can become, the definition
    [get_collector_def] gives for an index carries that index when the
    collector is defined, and the index -1 of the sentinel when it is not:
    a definition is never found under an index other than its own. *)
Theorem get_collector_def_index (null_parent_index : Z)
    (s : PStatClientData) (index : Z) :
  reachable s ->
  PStatCollectorDef._index (get_collector_def null_parent_index s index)
  = if has_collector s index then index else -1.
Proof.
  intros Hreach. unfold get_collector_def.
  destruct (has_collector s index) eqn:Hhas; [|reflexivity]. simpl.
  apply has_collector_true in Hhas as [[Hindex _] [def Hslot]].
  rewrite Hslot. rewrite (reachable_collectors_inv s Hreach _ _ Hslot). lia.
Qed.

(** A definition of index 5 added to a new object is found under 5 with its
    index. *)
Lemma get_collector_def_index_witness :
  PStatCollectorDef._index
    (get_collector_def 0
       (set_collectors (PStatClientData_new (Some 7%nat))
          (slots_with (PStatCollectorDef.Build 5 "Cull" 0) [])) 5) = 5.
Proof.
  apply (get_collector_def_index 0
           (set_collectors (PStatClientData_new (Some 7%nat))
              (slots_with (PStatCollectorDef.Build 5 "Cull" 0) [])) 5).
  apply (reach_add_collector 1000 (PStatCollectorDef.Build 5 "Cull" 0)
           _ _ (reach_new 7)); [unfold is_int; simpl; lia|].
  vm_compute. reflexivity.
Defined.

(** ** The monitor of gtk-stats *)

Module GtkStatsMonitorFacts.
Import GtkStatsMonitor.

Lemma agree_set_time_units (unit_mask : Z) (m : t) :
  graphs_agree m -> graphs_agree (set_time_units unit_mask m).
Proof.
  intros Hagree graph told. simpl. rewrite lookup_fmap_Some.
  intros (told0 & <- & Hold). now rewrite (Hagree _ _ Hold).
Qed.

Lemma agree_set_scroll_speed (scroll_speed : Q) (m : t) :
  graphs_agree m -> graphs_agree (set_scroll_speed scroll_speed m).
Proof.
  intros Hagree graph told. simpl. rewrite lookup_fmap_Some.
  intros (told0 & <- & Hold). now rewrite (Hagree _ _ Hold).
Qed.

Lemma agree_set_pause (pause : bool) (m : t) :
  graphs_agree m -> graphs_agree (set_pause pause m).
Proof.
  intros Hagree graph told. simpl. rewrite lookup_fmap_Some.
  intros (told0 & <- & Hold). now rewrite (Hagree _ _ Hold).
Qed.

Lemma agree_open_graph (graph : nat) (m : t) :
  graphs_agree m -> graphs_agree (open_graph graph m).
Proof.
  intros Hagree graph' told. unfold open_graph, add_graph.
  destruct (_graphs m !! graph) as [old|] eqn:Hold; simpl;
    rewrite lookup_alter; case_decide as Hsame; subst.
  - rewrite Hold. simpl. now intros [= <-].
  - apply Hagree.
  - rewrite lookup_insert_eq. simpl. now intros [= <-].
  - rewrite lookup_insert_ne by exact Hsame. apply Hagree.
Qed.

Lemma agree_remove_graph (graph : nat) (m : t) :
  graphs_agree m -> graphs_agree (remove_graph graph m).
Proof.
  intros Hagree graph' told. unfold remove_graph.
  destruct (_graphs m !! graph); [|apply Hagree]. simpl.
  rewrite lookup_delete_Some. intros [_ Hold]. exact (Hagree _ _ Hold).
Qed.

Lemma add_to_menu_bar_spec (menus : list ChartMenu) :
  forall next : Z,
    snd (add_to_menu_bar menus next) = next + Z.of_nat (length menus)
    /\ length (fst (add_to_menu_bar menus next)) = length menus
    /\ forall (i : nat) (menu : ChartMenu),
         fst (add_to_menu_bar menus next) !! i = Some menu ->
         menu_position menu = Some (next + Z.of_nat i)
         /\ menu_thread <$> menus !! i = Some (menu_thread menu).
Proof.
  induction menus as [|first rest IH]; intros next; simpl.
  - split; [lia|split; [reflexivity|]]. intros i menu Hmenu. discriminate.
  - destruct (IH (next + 1)) as (Hnext & Hlen & Hpos).
    destruct (add_to_menu_bar rest (next + 1)) as [rest' next'] eqn:Hrest.
    simpl in *. split; [lia|split; [now rewrite Hlen|]].
    intros [|i] menu Hmenu; simpl in Hmenu.
    + injection Hmenu as <-. simpl. split; [f_equal; lia|reflexivity].
    + destruct (Hpos i menu Hmenu) as [-> Hthread].
      split; [f_equal; lia|exact Hthread].
Qed.

Lemma create_window_fields (GBU_ms : Z) (window : nat) (m : t) :
  _window m = None ->
  let m' := create_window GBU_ms window m in
  _window m' = Some window
  /\ _time_units m' = GBU_ms /\ _scroll_speed m' = 3%Q /\ _pause m' = false
  /\ _graphs m'
     = (fun _ => {| told_time_units := Some GBU_ms;
                    told_scroll_speed := Some 3%Q;
                    told_pause := Some false |}) <$> _graphs m
  /\ _chart_menus m' = fst (add_to_menu_bar (_chart_menus m) 2)
  /\ _next_chart_index m' = snd (add_to_menu_bar (_chart_menus m) 2).
Proof.
  intros Hnone. unfold create_window. rewrite Hnone. simpl.
  destruct (add_to_menu_bar (_chart_menus m) 2) as [menus next]. simpl.
  repeat split. rewrite <- !map_fmap_compose. reflexivity.
Qed.

Lemma agree_create_window (GBU_ms : Z) (window : nat) (m : t) :
  graphs_agree (create_window GBU_ms window m) \/
  (is_Some (_window m) /\ create_window GBU_ms window m = m).
Proof.
  destruct (_window m) as [w|] eqn:Hwindow.
  - right. split; [eauto|]. unfold create_window. now rewrite Hwindow.
  - left.
    destruct (create_window_fields GBU_ms window m Hwindow)
      as (_ & Hu & Hs & Hp & Hg & _).
    intros graph told. rewrite Hg, Hu, Hs, Hp, lookup_fmap_Some.
    now intros (told0 & <- & _).
Qed.

(** X18.  From the constructor on, whatever charts are opened and closed and
    whatever settings are chosen, every graph of the monitor was last told
    the time units, the scroll speed and the pause state the monitor holds:
    no graph is left behind with older settings. *)
Theorem graphs_follow_monitor (GBU_ms next : Z) (m : t) :
  rtc (step GBU_ms) (new next) m -> graphs_agree m.
Proof.
  intros Hsteps.
  apply (rtc_ind_r (R := step GBU_ms) (fun m => graphs_agree m) (new next));
    [| |exact Hsteps].
  - intros graph told Hmiss. simpl in Hmiss.
    now rewrite lookup_empty in Hmiss.
  - clear m Hsteps. intros m m' _ Hstep Hagree.
    destruct Hstep; try (now apply agree_open_graph).
    + now apply agree_remove_graph.
    + now apply agree_set_time_units.
    + now apply agree_set_scroll_speed.
    + now apply agree_set_pause.
    + exact Hagree.
    + destruct (agree_create_window GBU_ms window m) as [Hnew|[_ ->]];
        assumption.
    + apply agree_open_graph.
      destruct (agree_create_window GBU_ms window m) as [Hnew|[_ ->]];
        assumption.
    + intros graph told Hmiss. simpl in Hmiss.
      now rewrite lookup_empty in Hmiss.
Qed.

(** A monitor that got its hello, with the strip chart 9, and was then set
    to the time units 5: the chart was told 5. *)
Lemma graphs_follow_monitor_witness :
  _graphs (set_time_units 5 (got_hello 1 10 9 (new 0))) !! 9%nat
  = Some (Build_Told (Some 5) (Some 3%Q) (Some false)).
Proof.
  assert (Hsteps : rtc (step 1) (new 0)
                     (set_time_units 5 (got_hello 1 10 9 (new 0))))
    by (eapply rtc_r; [apply rtc_once; apply step_got_hello
                      |apply step_set_time_units]).
  destruct (_graphs (set_time_units 5 (got_hello 1 10 9 (new 0))) !! 9%nat)
    as [told|] eqn:Htold.
  - now rewrite (graphs_follow_monitor 1 0 _ Hsteps _ _ Htold).
  - vm_compute in Htold. discriminate.
Defined.

Lemma open_graph_fields (graph : nat) (m : t) :
  _window (open_graph graph m) = _window m
  /\ _chart_menus (open_graph graph m) = _chart_menus m
  /\ _next_chart_index (open_graph graph m) = _next_chart_index m.
Proof.
  unfold open_graph, add_graph. now destruct (_graphs m !! graph).
Qed.

Lemma remove_graph_fields (graph : nat) (m : t) :
  _window (remove_graph graph m) = _window m
  /\ _chart_menus (remove_graph graph m) = _chart_menus m
  /\ _next_chart_index (remove_graph graph m) = _next_chart_index m.
Proof. unfold remove_graph. now destruct (_graphs m !! graph). Qed.

Lemma menus_in_order_ext (m m' : t) :
  _chart_menus m' = _chart_menus m ->
  _next_chart_index m' = _next_chart_index m ->
  menus_in_order m -> menus_in_order m'.
Proof. unfold menus_in_order. now intros -> ->. Qed.

Lemma menus_in_order_new_thread (thread_index : Z) (m : t) :
  menus_in_order m -> menus_in_order (new_thread thread_index m).
Proof.
  intros [Hnext Hpos]. split; simpl.
  - rewrite length_app. simpl. lia.
  - intros i menu Hmenu.
    apply lookup_app_Some in Hmenu as [Hold|[Hlen Hnew]].
    + now apply Hpos.
    + destruct (i - length (_chart_menus m))%nat eqn:Hi; [|discriminate].
      injection Hnew as <-. simpl. f_equal. lia.
Qed.

Lemma menus_in_order_create_window (GBU_ms : Z) (window : nat) (m : t) :
  _window m = None -> menus_in_order (create_window GBU_ms window m).
Proof.
  intros Hnone.
  destruct (create_window_fields GBU_ms window m Hnone)
    as (_ & _ & _ & _ & _ & Hmenus & Hnext).
  destruct (add_to_menu_bar_spec (_chart_menus m) 2) as (Hsnd & Hlen & Hpos).
  split.
  - rewrite Hnext, Hmenus, Hsnd, Hlen. reflexivity.
  - intros i menu. rewrite Hmenus. intros Hmenu.
    now destruct (Hpos i menu Hmenu).
Qed.

Lemma window_menus_create_window (GBU_ms : Z) (window : nat) (m : t) :
  (is_Some (_window m) -> menus_in_order m) ->
  menus_in_order (create_window GBU_ms window m).
Proof.
  intros Hinv. destruct (_window m) as [w|] eqn:Hwindow.
  - unfold create_window. rewrite Hwindow. apply Hinv. eauto.
  - now apply menus_in_order_create_window.
Qed.

(** X19.  From the constructor on, whenever the monitor has its window the
    chart menus sit in the menu bar at the positions 2, 3, 4 and so on, in
    the order in which the threads came, and [_next_chart_index] is the
    position after the last; the menus of threads that came before the
    window are put there when the window is made. *)
Theorem chart_menus_in_order (GBU_ms next : Z) (m : t) :
  rtc (step GBU_ms) (new next) m ->
  is_Some (_window m) -> menus_in_order m.
Proof.
  intros Hsteps.
  apply (rtc_ind_r (R := step GBU_ms)
           (fun m => is_Some (_window m) -> menus_in_order m) (new next));
    [| |exact Hsteps].
  - simpl. intros [w Hw]. discriminate.
  - clear m Hsteps. intros m m' _ Hstep Hinv.
    destruct Hstep;
      try (destruct (open_graph_fields graph m) as (Hw & Hm & Hn);
           unfold open_strip_chart, open_piano_roll, open_flame_graph,
             open_timeline;
           rewrite Hw; intros Hwindow;
           now apply (menus_in_order_ext m); auto).
    + destruct (remove_graph_fields graph m) as (Hw & Hm & Hn).
      rewrite Hw. intros Hwindow. apply (menus_in_order_ext m); auto.
    + exact Hinv.
    + exact Hinv.
    + exact Hinv.
    + intros Hwindow. apply menus_in_order_new_thread. now apply Hinv.
    + intros _. now apply window_menus_create_window.
    + intros _. unfold got_hello, open_strip_chart.
      destruct (open_graph_fields graph (create_window GBU_ms window m))
        as (_ & Hm & Hn).
      apply (menus_in_order_ext (create_window GBU_ms window m)); auto.
      now apply window_menus_create_window.
    + simpl. intros [w Hw]. discriminate.
Qed.

(** Thread 4 comes before the hello and thread 6 after it: their menus are
    at the positions 2 and 3. *)
Lemma chart_menus_in_order_witness :
  menus_in_order (new_thread 6 (got_hello 1 10 9 (new_thread 4 (new 77)))).
Proof.
  apply (chart_menus_in_order 1 77); [|simpl; eauto].
  eapply rtc_r;
    [eapply rtc_r; [apply rtc_once; apply step_new_thread
                   |apply step_got_hello]
    |apply step_new_thread].
Defined.

End GtkStatsMonitorFacts.
